(** * Nashik Darshan: coordinate wire formats and the itinerary route optimizer

    A shallow embedding of
    - [internal/types] point.go: [Point], its GeoJSON, flat-object and WKT
      encodings, [IsValid] and the haversine [Distance];
    - [internal/domain/place] [Location.Validate];
    - the route optimizer of docs/prds/itenary.md section 5.3
      ([optimizeRoute], [findNearest]);
    - [cmd/migrate] main.go: the connection string of the migration.

    Go's [float64] is Rocq's primitive binary64 [float], every operation
    rounded as IEEE 754 has it; [int] and [time.Duration] are 64-bit
    integers written as [Z] with their wrap-around; a Go map is a [gmap]
    whose [range] order is supplied by the execution. *)

From Stdlib Require Import ZArith Lia Bool List Ascii String Floats DecimalString.
From Stdlib Require Import Reals Lra.
From stdpp Require Import gmap strings list fin_maps.

#[local] Set Warnings "-register-all".
Local Open Scope string_scope.
Local Open Scope Z_scope.

(** ** Errors

    [IErr message hint] is
    [ierr.NewError(message).WithHint(hint).Mark(ierr.ErrValidation)]; the
    next three are the errors of encoding/json; [Errorf] is [fmt.Errorf],
    and [Wrapf] is [fmt.Errorf] with a [%w] cause. *)
Inductive error : Type :=
| IErr (message hint : string)
| SyntaxError
| UnmarshalTypeError (value : string)
| UnsupportedValueError
| Errorf (message : string)
| Wrapf (message : string) (cause : error).

Definition is_nil (e : option error) : bool :=
  match e with None => true | Some _ => false end.

Definition itoa (n : nat) : string := NilZero.string_of_uint (Nat.to_uint n).

(** ** encoding/json

    A byte slice handed to [json.Unmarshal] is represented by what the
    scanner makes of it: [None] when it is not one well-formed JSON text
    ([checkValid] fails before anything is stored), otherwise its value.  A
    number literal is represented by the [float64] that [strconv.ParseFloat]
    rounds it to, an infinity standing for a literal out of range. *)
Module json.

Inductive value : Type :=
| Null
| Bool (b : bool)
| Number (n : float)
| Str (s : string)
| Array (elems : list value)
| Object (members : list (string * value)).

(** The [Value] field of an [UnmarshalTypeError]. *)
Definition kind (v : value) : string :=
  match v with
  | Null => "null" | Bool _ => "bool" | Number _ => "number"
  | Str _ => "string" | Array _ => "array" | Object _ => "object"
  end.

(** Field names are matched case-insensitively; besides the ASCII letters
    the fold identifies U+017F with s and U+212A with k. *)
Definition lower (c : ascii) : ascii :=
  let n := nat_of_ascii c in
  if (65 <=? n)%nat && (n <=? 90)%nat then ascii_of_nat (n + 32) else c.

Fixpoint foldName (s : string) : string :=
  match s with
  | EmptyString => EmptyString
  | String c rest =>
      match nat_of_ascii c, rest with
      | 197%nat, String c1 rest1 =>
          if (nat_of_ascii c1 =? 191)%nat then String "s" (foldName rest1)
          else String c (foldName rest)
      | 226%nat, String c1 (String c2 rest2) =>
          if (nat_of_ascii c1 =? 132)%nat && (nat_of_ascii c2 =? 170)%nat
          then String "k" (foldName rest2)
          else String c (foldName rest)
      | _, _ => String (lower c) (foldName rest)
      end
  end.

(** Storing a JSON value into a Go variable of the given type: the new
    contents of the variable and the error saved for it, if any.  [null]
    leaves a string or a number as it is and makes a slice nil. *)
Definition store_string (cur : string) (v : value) : string * option error :=
  match v with
  | Null => (cur, None)
  | Str s => (s, None)
  | _ => (cur, Some (UnmarshalTypeError (kind v)))
  end.

Definition store_float64 (cur : float) (v : value) : float * option error :=
  match v with
  | Null => (cur, None)
  | Number n =>
      if is_finite n then (n, None)
      else (cur, Some (UnmarshalTypeError "number"))
  | _ => (cur, Some (UnmarshalTypeError (kind v)))
  end.

Definition first_error (e1 e2 : option error) : option error :=
  match e1 with Some _ => e1 | None => e2 end.

(** Elements are stored into the slots the slice already has and into
    zeroed slots after them. *)
Fixpoint store_elems (cur : list float) (elems : list value)
  : list float * option error :=
  match elems with
  | [] => ([], None)
  | v :: rest =>
      let '(x, e1) := store_float64 (hd 0%float cur) v in
      let '(xs, e2) := store_elems (tl cur) rest in
      (x :: xs, first_error e1 e2)
  end.

Definition store_float64_slice (cur : list float) (v : value)
  : list float * option error :=
  match v with
  | Null => ([], None)
  | Array elems => store_elems cur elems
  | _ => (cur, Some (UnmarshalTypeError (kind v)))
  end.

(** A struct is filled member by member, in the order of the text; a
    member that cannot be stored is skipped, and the first such error is
    the one returned once the whole object has been read. *)
Fixpoint store_members {S : Type}
    (field : string -> value -> S -> S * option error)
    (members : list (string * value)) (s : S) : S * option error :=
  match members with
  | [] => (s, None)
  | (k, v) :: rest =>
      let '(s1, e1) := field (foldName k) v s in
      let '(s2, e2) := store_members field rest s1 in
      (s2, first_error e1 e2)
  end.

(** [json.Unmarshal(data, &s)] for a struct [s] whose fields are described
    by [field]. *)
Definition Unmarshal {S : Type}
    (field : string -> value -> S -> S * option error)
    (data : option value) (s : S) : S * option error :=
  match data with
  | None => (s, Some SyntaxError)
  | Some Null => (s, None)
  | Some (Object members) => store_members field members s
  | Some v => (s, Some (UnmarshalTypeError (kind v)))
  end.

(** Encoding a [float64]: NaN and the infinities are unsupported values;
    a finite number is written with the shortest digits that read back as
    the same [float64]. *)
Definition encode_float64 (x : float) : option value :=
  if is_nan x || is_infinity x then None else Some (Number x).

Fixpoint encode_float64_slice (xs : list float) : option (list value) :=
  match xs with
  | [] => Some []
  | x :: rest =>
      match encode_float64 x, encode_float64_slice rest with
      | Some v, Some vs => Some (v :: vs)
      | _, _ => None
      end
  end.

End json.

(** ** fmt

    [Sprintf_f] is the verb [%f] (six digits after the point, the exact
    binary value rounded half to even); [Sscanf_POINT] is
    [fmt.Sscanf(s, "POINT(%f %f)", &lng, &lat)]. *)
Module fmt.

Definition round_half_even (num den : Z) : Z :=
  let q := num / den in
  let r := num mod den in
  match (2 * r) ?= den with
  | Lt => q
  | Eq => if Z.even q then q else q + 1
  | Gt => q + 1
  end.

(** [m * 2^e * 10^6] rounded to an integer. *)
Definition micro (m : positive) (e : Z) : Z :=
  if 0 <=? e then Zpos m * 2 ^ e * 10 ^ 6
  else round_half_even (Zpos m * 10 ^ 6) (2 ^ (- e)).

Definition digit (d : Z) : ascii := ascii_of_nat (48 + Z.to_nat d).

(** The decimal digits of [n], without leading zeros, written in front of
    [tail]; [fuel] bounds the number of digits after the first. *)
Fixpoint digits_onto (fuel : nat) (n : Z) (tail : string) : string :=
  let tail' := String (digit (n mod 10)) tail in
  match fuel with
  | O => tail'
  | Datatypes.S fuel' =>
      if n <? 10 then tail' else digits_onto fuel' (n / 10) tail'
  end.

(** The last [count] digits of [n], zeros included, in front of [tail]. *)
Fixpoint fixed_onto (count : nat) (n : Z) (tail : string) : string :=
  match count with
  | O => tail
  | Datatypes.S count' =>
      fixed_onto count' (n / 10) (String (digit (n mod 10)) tail)
  end.

Definition sign_onto (s : bool) (tail : string) : string :=
  if s then String "-" tail else tail.

(** [n] millionths with sign [s], in the layout of [%f]. *)
Definition millionths_onto (s : bool) (n : Z) (tail : string) : string :=
  sign_onto s
    (digits_onto (Z.to_nat (Z.log2 (n / 10 ^ 6))) (n / 10 ^ 6)
       (String "." (fixed_onto 6 (n mod 10 ^ 6) tail))).

(** The verb [%f] applied to [x], written in front of [tail]. *)
Definition Sprintf_f_onto (x : float) (tail : string) : string :=
  match Prim2SF x with
  | S754_nan => "NaN" +:+ tail
  | S754_infinity s => (if s then "-Inf" else "+Inf") +:+ tail
  | S754_zero s => millionths_onto s 0 tail
  | S754_finite s m e => millionths_onto s (micro m e) tail
  end.

Definition Sprintf_f (x : float) : string := Sprintf_f_onto x "".

(** [fmt.Sprintf("POINT(%f %f)", lng, lat)] *)
Definition Sprintf_POINT (lng lat : float) : string :=
  "POINT(" +:+ Sprintf_f_onto lng (String " " (Sprintf_f_onto lat ")")).

(** *** Scanning *)

Definition code (c : ascii) : nat := nat_of_ascii c.

Definition is_digit (c : ascii) : bool :=
  (48 <=? code c)%nat && (code c <=? 57)%nat.

Definition is_char (a b : ascii) (c : ascii) : bool :=
  Ascii.eqb c a || Ascii.eqb c b.

(** One white-space rune of fmt's table other than the newline, at the
    head of the input: the rest of the input after it. *)
Definition space_rune (s : string) : option string :=
  match s with
  | String c rest =>
      let n := code c in
      if (n =? 9)%nat || (n =? 11)%nat || (n =? 12)%nat || (n =? 13)%nat
         || (n =? 32)%nat
      then Some rest
      else if (n =? 194)%nat then
        match rest with
        | String c1 rest1 =>
            if (code c1 =? 133)%nat || (code c1 =? 160)%nat
            then Some rest1 else None
        | EmptyString => None
        end
      else if (n =? 225)%nat || (n =? 226)%nat || (n =? 227)%nat then
        match rest with
        | String c1 (String c2 rest2) =>
            let n1 := code c1 in
            let n2 := code c2 in
            if ((n =? 225)%nat && (n1 =? 154)%nat && (n2 =? 128)%nat)
               || ((n =? 226)%nat && (n1 =? 128)%nat
                   && (((128 <=? n2)%nat && (n2 <=? 138)%nat)
                       || (n2 =? 168)%nat || (n2 =? 169)%nat
                       || (n2 =? 175)%nat))
               || ((n =? 226)%nat && (n1 =? 129)%nat && (n2 =? 159)%nat)
               || ((n =? 227)%nat && (n1 =? 128)%nat && (n2 =? 128)%nat)
            then Some rest2 else None
        | _ => None
        end
      else None
  | EmptyString => None
  end.

Definition is_newline (s : string) : bool :=
  match s with
  | String c _ => (code c =? 10)%nat
  | EmptyString => false
  end.

(** [SkipSpace] with [nlIsSpace] off: the input after the white space, or
    [None] for the error a newline raises.  The fuel is the length of the
    input, which every skipped rune shortens. *)
Fixpoint skip_space (fuel : nat) (s : string) : option string :=
  if is_newline s then None
  else
    match space_rune s, fuel with
    | Some rest, Datatypes.S fuel' => skip_space fuel' rest
    | _, _ => Some s
    end.

Definition SkipSpace (s : string) : option string :=
  skip_space (String.length s) s.

(** The literal text of the format, rune by rune. *)
Fixpoint literal (lit s : string) : option string :=
  match lit, s with
  | EmptyString, _ => Some s
  | String a lit', String b s' =>
      if Ascii.eqb a b then literal lit' s' else None
  | String _ _, EmptyString => None
  end.

(** A run of decimal digits: their value, how many there were, the rest
    of the input. *)
Fixpoint run (s : string) (acc : Z) (len : nat) : Z * nat * string :=
  match s with
  | String c rest =>
      if is_digit c
      then run rest (10 * acc + Z.of_nat (code c - 48)) (Datatypes.S len)
      else (acc, len, s)
  | EmptyString => (acc, len, s)
  end.

Definition starts_with (p : ascii -> bool) (s : string) : bool :=
  match s with
  | String c _ => p c
  | EmptyString => false
  end.

Definition drop1 (s : string) : string :=
  match s with
  | String _ rest => rest
  | EmptyString => EmptyString
  end.

(** The outcome of reading one [%f] operand. *)
Inductive token : Type :=
| Tok (x : float) (rest : string)
| TokError
| TokOutside.

(** [strconv.ParseFloat] on the decimal mantissa [m] with decimal exponent
    [k]: the nearest [float64], ties to even; [None] is [ErrRange]. *)
Definition ParseFloat (neg : bool) (m k : Z) : option float :=
  let sf :=
    if m =? 0 then S754_zero neg
    else if 0 <=? k
         then binary_normalize prec emax (cond_Zopp neg (m * 10 ^ k)) 0 neg
         else SFdiv prec emax (S754_finite neg (Z.to_pos m) 0)
                (S754_finite false (Z.to_pos (10 ^ (- k))) 0) in
  match sf with
  | S754_infinity _ => None
  | _ => Some (SF2Prim sf)
  end.

(** [floatToken] followed by [convertFloat].  A token that fmt would
    build with a hexadecimal mantissa, a digit separator or a binary
    exponent is [TokOutside]: such operands are not covered here. *)
Definition hex_prefix (s0 : string) : bool :=
  starts_with (Ascii.eqb "0") s0 && starts_with (is_char "x" "X") (drop1 s0).

(** After the [e]: sign and digits of the exponent. *)
Definition scan_exponent (neg : bool) (m : Z) (ilen flen : nat) (s3 : string)
  : token :=
  let eneg := starts_with (Ascii.eqb "-") s3 in
  let s4 := if starts_with (is_char "+" "-") s3 then drop1 s3 else s3 in
  let '(ex, elen, s5) := run s4 0 0 in
  if starts_with (Ascii.eqb "_") s5 then TokOutside
  else if (ilen + flen =? 0)%nat || (elen =? 0)%nat then TokError
  else
    match ParseFloat neg m (cond_Zopp eneg ex - Z.of_nat flen) with
    | Some x => Tok x s5
    | None => TokError
    end.

(** After the sign: digits, point, digits, exponent. *)
Definition scan_decimal (neg : bool) (s0 : string) : token :=
  let '(ip, ilen, s1) := run s0 0 0 in
  if starts_with (Ascii.eqb "_") s1 then TokOutside
  else
    let '(m, flen, s2) :=
      if starts_with (Ascii.eqb ".") s1 then run (drop1 s1) ip 0
      else (ip, 0%nat, s1) in
    if starts_with (Ascii.eqb "_") s2 then TokOutside
    else if starts_with (is_char "p" "P") s2 then TokOutside
    else if starts_with (is_char "e" "E") s2
    then scan_exponent neg m ilen flen (drop1 s2)
    else if (ilen + flen =? 0)%nat then TokError
    else
      match ParseFloat neg m (- Z.of_nat flen) with
      | Some x => Tok x s2
      | None => TokError
      end.

Definition scan_float (s : string) : token :=
  if starts_with (is_char "n" "N") s then
    let s1 := drop1 s in
    if starts_with (is_char "a" "A") s1
       && starts_with (is_char "n" "N") (drop1 s1)
    then Tok nan (drop1 (drop1 s1))
    else TokError
  else
    let neg := starts_with (Ascii.eqb "-") s in
    let s0 := if starts_with (is_char "+" "-") s then drop1 s else s in
    if starts_with (is_char "i" "I") s0 then
      let s1 := drop1 s0 in
      if starts_with (is_char "n" "N") s1
         && starts_with (is_char "f" "F") (drop1 s1)
      then Tok (if neg then neg_infinity else infinity) (drop1 (drop1 s1))
      else TokError
    else if hex_prefix s0 then TokOutside
    else scan_decimal neg s0.

(** One operand: [SkipSpace], [notEOF], then the token. *)
Definition operand (s : string) : token :=
  match SkipSpace s with
  | None => TokError
  | Some EmptyString => TokError
  | Some s' => scan_float s'
  end.

(** The blank of the format: at least one white-space rune of the input
    (or its end), never a newline. *)
Definition blank (s : string) : option string :=
  match s with
  | EmptyString => Some s
  | _ => match space_rune s with
         | Some rest => Some rest
         | None => None
         end
  end.

Inductive scanned : Type :=
| Scanned (lng lat : float)
| ScanError
| ScanOutside.

Definition Sscanf_POINT (s : string) : scanned :=
  match literal "POINT(" s with
  | None => ScanError
  | Some s1 =>
      match operand s1 with
      | TokError => ScanError
      | TokOutside => ScanOutside
      | Tok lng s2 =>
          match blank s2 with
          | None => ScanError
          | Some s3 =>
              match operand s3 with
              | TokError => ScanError
              | TokOutside => ScanOutside
              | Tok lat s4 =>
                  match literal ")" s4 with
                  | None => ScanError
                  | Some _ => Scanned lng lat
                  end
              end
          end
      end
  end.

End fmt.

(** ** package math, as far as [Point.Distance] uses it

    [Sqrt] is the correctly rounded square root.  [Cos] and [Asin] are
    routines of Go's library whose digits their documentation does not fix.
    Their special cases and first steps are written out: [Cos] gives NaN on
    a NaN and on the infinities and otherwise works on the absolute value
    of its argument; [Asin] gives back a zero as it is and gives NaN on a
    NaN and outside [-1, 1].  What they compute on the other arguments is
    left to two kernels. *)
Module math.

Section kernels.

Variables cos_kernel asin_kernel : float -> float.



End kernels.


End math.

(** ** internal/types: point.go *)
Module types.

(** [type Point struct { Longitude, Latitude float64 }] *)
Record Point : Type := { Longitude : float; Latitude : float }.

(** [type GeoJSONPoint struct { Type string; Coordinates []float64 }] *)
Record GeoJSONPoint : Type := { Type_ : string; Coordinates : list float }.

Definition ToGeoJSON (p : Point) : GeoJSONPoint :=
  {| Type_ := "Point"; Coordinates := [Longitude p; Latitude p] |}.

Definition IsValid (p : Point) : bool :=
  if (Latitude p <? -90)%float || (90 <? Latitude p)%float then false
  else if (Longitude p <? -180)%float || (180 <? Longitude p)%float then false
  else true.

Definition PointFromGeoJSON (gj : GeoJSONPoint) : Point + error :=
  if negb (String.eqb (Type_ gj) "Point") then
    inr (IErr "invalid GeoJSON type"
           ("expected 'Point', got '" +:+ Type_ gj +:+ "'"))
  else
    match Coordinates gj with
    | [c0; c1] =>
        let point := {| Longitude := c0; Latitude := c1 |} in
        if negb (IsValid point) then
          inr (IErr "invalid coordinates" "latitude or longitude out of range")
        else inl point
    | cs =>
        inr (IErr "invalid coordinates"
               ("expected 2 values, got " +:+ itoa (length cs)))
    end.

(** The fields of [GeoJSONPoint] and of the local [alias] struct as
    encoding/json sees them through their tags. *)
Definition GeoJSONPoint_field (name : string) (v : json.value)
    (gj : GeoJSONPoint) : GeoJSONPoint * option error :=
  if String.eqb name "type" then
    let '(t, e) := json.store_string (Type_ gj) v in
    ({| Type_ := t; Coordinates := Coordinates gj |}, e)
  else if String.eqb name "coordinates" then
    let '(cs, e) := json.store_float64_slice (Coordinates gj) v in
    ({| Type_ := Type_ gj; Coordinates := cs |}, e)
  else (gj, None).

Record alias : Type := { alias_Longitude : float; alias_Latitude : float }.

Definition alias_field (name : string) (v : json.value) (a : alias)
  : alias * option error :=
  if String.eqb name "longitude" then
    let '(x, e) := json.store_float64 (alias_Longitude a) v in
    ({| alias_Longitude := x; alias_Latitude := alias_Latitude a |}, e)
  else if String.eqb name "latitude" then
    let '(x, e) := json.store_float64 (alias_Latitude a) v in
    ({| alias_Longitude := alias_Longitude a; alias_Latitude := x |}, e)
  else (a, None).

(** [func (p *Point) UnmarshalJSON(data []byte) error]: the receiver
    after the call and the error returned. *)
Definition UnmarshalJSON (p : Point) (data : option json.value)
  : Point * option error :=
  let '(geoJSON, err) :=
    json.Unmarshal GeoJSONPoint_field data {| Type_ := ""; Coordinates := [] |} in
  if is_nil err && String.eqb (Type_ geoJSON) "Point" then
    match PointFromGeoJSON geoJSON with
    | inr err => (p, Some err)
    | inl parsed => (parsed, None)
    end
  else
    let '(a, err) :=
      json.Unmarshal alias_field data
        {| alias_Longitude := 0; alias_Latitude := 0 |} in
    match err with
    | Some err => (p, Some err)
    | None =>
        let p := {| Longitude := alias_Longitude a;
                    Latitude := alias_Latitude a |} in
        if negb (IsValid p) then
          (p, Some (IErr "invalid coordinates"
                      "latitude or longitude out of range"))
        else (p, None)
    end.

(** [json.Marshal] of a [GeoJSONPoint] whose slice is not nil. *)
Definition Marshal_GeoJSONPoint (gj : GeoJSONPoint) : json.value + error :=
  match json.encode_float64_slice (Coordinates gj) with
  | Some cs =>
      inl (json.Object [("type", json.Str (Type_ gj));
                        ("coordinates", json.Array cs)])
  | None => inr UnsupportedValueError
  end.

Definition MarshalJSON (p : Point) : json.value + error :=
  Marshal_GeoJSONPoint (ToGeoJSON p).

Definition ToWKT (p : Point) : string :=
  fmt.Sprintf_POINT (Longitude p) (Latitude p).

(** [None] when the text has an operand that the scanner above does not
    cover. *)
Definition PointFromWKT (wkt : string) : option (Point + error) :=
  match fmt.Sscanf_POINT wkt with
  | fmt.ScanOutside => None
  | fmt.ScanError =>
      Some (inr (IErr "invalid WKT format"
                   ("expected 'POINT(longitude latitude)', got '"
                      +:+ wkt +:+ "'")))
  | fmt.Scanned lng lat =>
      let point := {| Longitude := lng; Latitude := lat |} in
      if negb (IsValid point) then
        Some (inr (IErr "invalid coordinates in WKT"
                     "latitude or longitude out of range"))
      else Some (inl point)
  end.

(** [func (p Point) Distance(other Point) float64], every operation
    rounded to [float64] as it is written.  The constant expression
    [3.141592653589793 / 180.0] is evaluated exactly and rounded once, to
    [radians]; [earthRadiusKm * 2] is exact. *)
Section Distance.

Variables cos_kernel asin_kernel : float -> float.




End Distance.

End types.

(** ** shopspring/decimal, as far as [Location.Validate] uses it

    A [Decimal] is [value * 10 ^ exp] with an unbounded integer [value]. *)
Module decimal.

Record Decimal : Type := { value : Z; exp : Z }.

Definition NewFromInt (v : Z) : Decimal := {| value := v; exp := 0 |}.

Definition rescale (d : Decimal) (e : Z) : Decimal :=
  if exp d =? e then d
  else
    let expScale := 10 ^ Z.abs (e - exp d) in
    if exp d <? e then {| value := Z.quot (value d) expScale; exp := e |}
    else {| value := value d * expScale; exp := e |}.

Definition RescalePair (d1 d2 : Decimal) : Decimal * Decimal :=
  if exp d1 <? exp d2 then (d1, rescale d2 (exp d1))
  else if exp d2 <? exp d1 then (rescale d1 (exp d2), d2)
  else (d1, d2).

Definition Cmp (d d2 : Decimal) : comparison :=
  if exp d =? exp d2 then value d ?= value d2
  else let '(rd, rd2) := RescalePair d d2 in value rd ?= value rd2.

Definition LessThan (d d2 : Decimal) : bool :=
  match Cmp d d2 with Lt => true | _ => false end.

Definition GreaterThan (d d2 : Decimal) : bool :=
  match Cmp d d2 with Gt => true | _ => false end.

End decimal.

(** ** internal/domain/place: [Location.Validate] *)
Module place.

Record Location : Type :=
  { Latitude : decimal.Decimal; Longitude : decimal.Decimal }.

Definition Validate (l : Location) : option error :=
  if decimal.LessThan (Latitude l) (decimal.NewFromInt (-90))
     || decimal.GreaterThan (Latitude l) (decimal.NewFromInt 90)
  then Some (IErr "invalid latitude" "latitude must be between -90 and 90")
  else if decimal.LessThan (Longitude l) (decimal.NewFromInt (-180))
          || decimal.GreaterThan (Longitude l) (decimal.NewFromInt 180)
  then Some (IErr "invalid longitude" "longitude must be between -180 and 180")
  else None.

End place.

(** ** Conversions between [int64] and [float64] *)
Module convert.

(** [float64(z)]: the nearest [float64], ties to even. *)
Definition to_float64 (z : Z) : float :=
  SF2Prim (binary_normalize prec emax z 0 false).

(** [int(x)], toward zero.  Go leaves the result open when [x] is NaN or
    outside [int64]; amd64 gives the least [int64] then.  The optimizer
    converts the minutes of a [Duration], which are below 2^28 in size. *)
Definition to_int (x : float) : Z :=
  match Prim2SF x with
  | S754_zero _ => 0
  | S754_finite s m e =>
      let z := cond_Zopp s (Z.shiftl (Zpos m) e) in
      if (- 2 ^ 63 <=? z) && (z <? 2 ^ 63) then z else - 2 ^ 63
  | _ => - 2 ^ 63
  end.

End convert.

(** ** package time, as far as the optimizer uses it

    A [Time] is an instant counted in nanoseconds; a [Duration] is an
    [int64] count of nanoseconds.  [Add] on instants within a few hundred
    years of each other does not saturate. *)
Module time.

Definition wrap64 (z : Z) : Z := (z + 2 ^ 63) mod 2 ^ 64 - 2 ^ 63.

Definition Minute : Z := 60 * 10 ^ 9.

(** [time.Duration(n) * time.Minute] *)
Definition Minutes_of (n : Z) : Z := wrap64 (n * Minute).

Definition Add (t d : Z) : Z := t + d.

Definition After (t u : Z) : bool := u <? t.

(** [t.Sub(u)] saturates at the ends of [int64]. *)
Definition Sub (t u : Z) : Z := Z.max (- 2 ^ 63) (Z.min (2 ^ 63 - 1) (t - u)).

(** [func (d Duration) Minutes() float64]:
    [min := d / Minute; nsec := d % Minute;
     return float64(min) + float64(nsec)/(60*1e9)]. *)
Definition Minutes (d : Z) : float :=
  (convert.to_float64 (Z.quot d Minute)
   + convert.to_float64 (Z.rem d Minute) / 6e10)%float.

(** [int(d.Minutes())] *)
Definition whole_minutes (d : Z) : Z := convert.to_int (Minutes d).

End time.

(** ** docs/prds/itenary.md, section 5.3: the route optimizer *)
Module service.

Record Location : Type := { Lat : float; Lng : float }.

(** [ent.Place], with the string form of its id. *)
Record Place : Type :=
  { ID : string; Name : string; Latitude : float; Longitude : float }.

(** Modelled from the spec: [place.Location()] is called by the optimizer
    but declared nowhere in the sources; it is the location of the place,
    its latitude and longitude (PlaceRef.location). *)
Definition Place_Location (p : Place) : Location :=
  {| Lat := Latitude p; Lng := Longitude p |}.

(** The matrix the routing client returns; its two accessors are all the
    optimizer uses of it. *)
Record DistanceMatrix : Type :=
  { GetDistance : Location -> Location -> float;
    GetTime : Location -> Location -> Z }.

Record Visit : Type :=
  { SequenceOrder : Z;
    Place_ : Place;
    ArrivalTime : Z;
    DepartureTime : Z;
    VisitDuration : Z;
    TravelTimeFromPrevious : Z;
    DistanceFromPrevious : float }.

Record OptimizedRoute : Type :=
  { Visits : list Visit;
    TotalDistanceKm : float;
    TotalTravelTime : Z;
    CompletionTime : Z;
    TimeBufferMinutes : Z;
    Feasible : bool }.

(** What a call can come to: the route, the error, the panic of calling a
    method on the nil place; [Unfinished] is the loop cut off by its fuel. *)
Inductive outcome : Type :=
| Returned (route : OptimizedRoute)
| Failed (err : error)
| NilDereference
| Unfinished.

(** Go leaves the order of a [range] over a map open, and it may differ
    from one [range] statement to the next: an execution supplies, for the
    n-th pass of the loop, the order in which the entries come. *)
Definition RangeOrder : Type :=
  nat -> gmap string Place -> list (string * Place).

Definition MaxFloat64 : float := 0x1.fffffffffffffp+1023%float.

Fixpoint findNearest_range (from : Location) (entries : list (string * Place))
    (matrix : DistanceMatrix) (nearest : option Place) (minDist : float)
  : option Place * float :=
  match entries with
  | [] => (nearest, minDist)
  | (_, place) :: rest =>
      let dist := GetDistance matrix from (Place_Location place) in
      if (dist <? minDist)%float
      then findNearest_range from rest matrix (Some place) dist
      else findNearest_range from rest matrix nearest minDist
  end.

(** [findNearest(from, places, matrix)], [entries] being the map [places]
    in the order its [range] yields it. *)
Definition findNearest (from : Location) (entries : list (string * Place))
    (matrix : DistanceMatrix) : option Place * float :=
  findNearest_range from entries matrix None MaxFloat64.

Record state : Type :=
  { currentLoc : Location;
    currentTime : Z;
    unvisited : gmap string Place;
    visits : list Visit;
    totalDistance : float;
    totalTravelTime : Z;
    sequenceOrder : Z }.

Definition infeasible : error :=
  Errorf "cannot fit all places: time window exceeded".

Section optimizer.

Variable order : RangeOrder.
Variable matrix : DistanceMatrix.
Variable endTime : Z.
Variable visitDuration : Z.

(** The loop [for len(unvisited) > 0 { ... }], [n] counting its passes. *)
Fixpoint greedy (fuel n : nat) (st : state) : outcome :=
  if (size (unvisited st) =? 0)%nat then
    Returned
      {| Visits := visits st;
         TotalDistanceKm := totalDistance st;
         TotalTravelTime := totalTravelTime st;
         CompletionTime := currentTime st;
         TimeBufferMinutes :=
           time.whole_minutes (time.Sub endTime (currentTime st));
         Feasible := true |}
  else
    match fuel with
    | O => Unfinished
    | Datatypes.S fuel' =>
        match findNearest (currentLoc st) (order n (unvisited st)) matrix with
        | (None, _) => NilDereference
        | (Some nearestPlace, minDist) =>
            let travelTime :=
              GetTime matrix (currentLoc st) (Place_Location nearestPlace) in
            let arrivalTime :=
              time.Add (currentTime st) (time.Minutes_of travelTime) in
            let departureTime :=
              time.Add arrivalTime (time.Minutes_of visitDuration) in
            if time.After departureTime endTime then Failed infeasible
            else
              let visit :=
                {| SequenceOrder := sequenceOrder st;
                   Place_ := nearestPlace;
                   ArrivalTime := arrivalTime;
                   DepartureTime := departureTime;
                   VisitDuration := visitDuration;
                   TravelTimeFromPrevious := travelTime;
                   DistanceFromPrevious := minDist |} in
              greedy fuel' (Datatypes.S n)
                {| currentLoc := Place_Location nearestPlace;
                   currentTime := departureTime;
                   unvisited := delete (ID nearestPlace) (unvisited st);
                   visits := visits st ++ [visit];
                   totalDistance := (totalDistance st + minDist)%float;
                   totalTravelTime :=
                     time.wrap64 (totalTravelTime st + travelTime);
                   sequenceOrder := time.wrap64 (sequenceOrder st + 1) |}
        end
    end.

End optimizer.

(** [for _, p := range places { unvisited[p.ID.String()] = p }] *)
Definition index_places (places : list Place) : gmap string Place :=
  foldl (fun m p => <[ID p := p]> m) ∅ places.

(** [optimizeRoute]; [fetched] is what
    [s.routingClient.GetDistanceMatrix] returned.  Every pass of the loop
    removes one entry of the map, so its size is fuel enough. *)
Definition optimizeRoute (order : RangeOrder)
    (fetched : DistanceMatrix + error)
    (startLoc : Location) (places : list Place)
    (startTime endTime : Z) (visitDuration : Z) : outcome :=
  match fetched with
  | inr err => Failed (Wrapf "failed to get distance matrix: " err)
  | inl matrix =>
      let unvisited := index_places places in
      greedy order matrix endTime visitDuration (size unvisited) 0
        {| currentLoc := startLoc;
           currentTime := startTime;
           unvisited := unvisited;
           visits := [];
           totalDistance := 0;
           totalTravelTime := 0;
           sequenceOrder := 1 |}
  end.

End service.

(** ** The wire forms of the specification

    The three texts that the specification names for one coordinate, and
    its range [-90, 90] x [-180, 180]. *)
Definition GeoJSON_form (lng lat : float) : json.value :=
  json.Object [("type", json.Str "Point");
               ("coordinates", json.Array [json.Number lng; json.Number lat])].

Definition flat_form (lng lat : float) : json.value :=
  json.Object [("latitude", json.Number lat); ("longitude", json.Number lng)].

Definition within_range (p : types.Point) : bool :=
  (-90 <=? types.Latitude p)%float && (types.Latitude p <=? 90)%float
  && (-180 <=? types.Longitude p)%float && (types.Longitude p <=? 180)%float.

Definition finite_point (p : types.Point) : bool :=
  is_finite (types.Longitude p) && is_finite (types.Latitude p).

(** Whether a JSON value has a member of that name (as the decoder matches
    names), and whether it has the members of one of the two forms. *)
Definition has_member (name : string) (v : json.value) : bool :=
  match v with
  | json.Object members =>
      existsb (fun kv => String.eqb (json.foldName (fst kv)) name) members
  | _ => false
  end.

Definition of_either_form (v : json.value) : bool :=
  (has_member "type" v && has_member "coordinates" v)
  || (has_member "latitude" v && has_member "longitude" v).

(** The error of a failed range check. *)
Definition out_of_range : error :=
  IErr "invalid coordinates" "latitude or longitude out of range".


(** What a decode keeps true of the struct it fills. *)
Definition finite_coordinates (gj : types.GeoJSONPoint) : Prop :=
  Forall (fun x => is_finite x = true) (types.Coordinates gj).

Definition finite_alias (a : types.alias) : Prop :=
  is_finite (types.alias_Longitude a) = true /\ is_finite (types.alias_Latitude a) = true.


(** [d <= n] and [n <= d] for a decimal [d = value * 10 ^ exp] and an
    integer [n], cleared of the power of ten. *)
Definition decimal_le (d : decimal.Decimal) (n : Z) : Prop :=
  if 0 <=? decimal.exp d
  then decimal.value d * 10 ^ decimal.exp d <= n
  else decimal.value d <= n * 10 ^ (- decimal.exp d).

Definition decimal_ge (d : decimal.Decimal) (n : Z) : Prop :=
  if 0 <=? decimal.exp d
  then n <= decimal.value d * 10 ^ decimal.exp d
  else n * 10 ^ (- decimal.exp d) <= decimal.value d.


(** An execution's [range] order is legal when every pass enumerates the
    entries of the map, each once. *)
Definition legal (order : service.RangeOrder) : Prop :=
  forall n (m : gmap string service.Place), order n m ≡ₚ map_to_list m.

(** Every entry of the map sits under the id of its place. *)
Definition keyed (m : gmap string service.Place) : Prop :=
  forall k p, m !! k = Some p -> service.ID p = k.


(** A count of minutes whose [Duration] does not overflow. *)
Definition fits (n : Z) : Prop := - 2 ^ 63 <= n * time.Minute < 2 ^ 63.







(** The distance of a place from where the loop stands. *)
Definition distance_to (matrix : service.DistanceMatrix)
    (from : service.Location) (p : service.Place) : float :=
  service.GetDistance matrix from (service.Place_Location p).

(** Two places are apart when one is strictly nearer than the other. *)
Definition apart (matrix : service.DistanceMatrix) (from : service.Location)
    (p q : service.Place) : Prop :=
  (distance_to matrix from p <? distance_to matrix from q)%float = true
  \/ (distance_to matrix from q <? distance_to matrix from p)%float = true.


(** [p] is nearer to [from] than [q]; the distance to [p] is a number
    below [MaxFloat64]. *)
Definition nearer (matrix : service.DistanceMatrix)
    (from : service.Location) (p q : service.Place) : Prop :=
  (distance_to matrix from p <? distance_to matrix from q)%float = true.

Definition measured (matrix : service.DistanceMatrix)
    (from : service.Location) (p : service.Place) : Prop :=
  (distance_to matrix from p <? service.MaxFloat64)%float = true.


(** No ties: from the start and from every place, any two places of the
    map are at different distances. *)
Definition reachable (startLoc : service.Location)
    (m0 : gmap string service.Place) (from : service.Location) : Prop :=
  from = startLoc
  \/ exists k p, m0 !! k = Some p /\ from = service.Place_Location p.

Definition no_ties (matrix : service.DistanceMatrix)
    (startLoc : service.Location) (m0 : gmap string service.Place) : Prop :=
  forall from k1 p1 k2 p2,
    reachable startLoc m0 from ->
    m0 !! k1 = Some p1 -> m0 !! k2 = Some p2 -> k1 <> k2 ->
    apart matrix from p1 p2.


(** The state after the visit of [p], reached from [st]. *)
Definition visit_next (matrix : service.DistanceMatrix) (visitDuration : Z)
    (st : service.state) (p : service.Place) : service.state :=
  let travelTime := service.GetTime matrix (service.currentLoc st) (service.Place_Location p) in
  let arrivalTime := time.Add (service.currentTime st) (time.Minutes_of travelTime) in
  let departureTime := time.Add arrivalTime (time.Minutes_of visitDuration) in
  let minDist := service.GetDistance matrix (service.currentLoc st) (service.Place_Location p) in
  {| service.currentLoc := service.Place_Location p;
     service.currentTime := departureTime;
     service.unvisited := delete (service.ID p) (service.unvisited st);
     service.visits :=
       service.visits st ++
         [{| service.SequenceOrder := service.sequenceOrder st;
             service.Place_ := p;
             service.ArrivalTime := arrivalTime;
             service.DepartureTime := departureTime;
             service.VisitDuration := visitDuration;
             service.TravelTimeFromPrevious := travelTime;
             service.DistanceFromPrevious := minDist |}];
     service.totalDistance := (service.totalDistance st + minDist)%float;
     service.totalTravelTime := time.wrap64 (service.totalTravelTime st + travelTime);
     service.sequenceOrder := time.wrap64 (service.sequenceOrder st + 1) |}.

Definition departure_after (matrix : service.DistanceMatrix)
    (visitDuration : Z) (st : service.state) (p : service.Place) : Z :=
  service.currentTime (visit_next matrix visitDuration st p).


(** What ends an operand that [%f] wrote: the blank or the parenthesis of
    the format. *)
Definition closes (tail : string) : Prop :=
  tail = ")" \/ exists t, tail = String " " t.


(** The [float64] read back from the text that [%f] makes of [x]: [x]
    rounded to six decimals. *)
Definition six_decimals (x : float) : option float :=
  match Prim2SF x with
  | S754_nan => Some nan
  | S754_infinity s => Some (if s then neg_infinity else infinity)
  | S754_zero s => fmt.ParseFloat s 0 (-6)
  | S754_finite s m e => fmt.ParseFloat s (fmt.micro m e) (-6)
  end.


(** ** The instances of the specification's section 8 *)
Module instances.

Import service.

(** Start at (0,0); places A(0,1), B(0,5), C(0,2), as (latitude, longitude). *)
Definition start : Location := {| Lat := 0; Lng := 0 |}.
Definition A : Place := {| ID := "A"; Name := "A"; Latitude := 0; Longitude := 1 |}.
Definition B : Place := {| ID := "B"; Name := "B"; Latitude := 0; Longitude := 5 |}.
Definition C : Place := {| ID := "C"; Name := "C"; Latitude := 0; Longitude := 2 |}.

(** Two places at the same distance from the start, on either side. *)
Definition East : Place := {| ID := "E"; Name := "East"; Latitude := 0; Longitude := 1 |}.
Definition West : Place := {| ID := "W"; Name := "West"; Latitude := 0; Longitude := -1 |}.

Definition straight_line (a b : Location) : float :=
  PrimFloat.sqrt ((Lat b - Lat a) * (Lat b - Lat a)
                  + (Lng b - Lng a) * (Lng b - Lng a))%float.

(** A matrix of straight-line distances, every leg taking [minutes]. *)
Definition plane (minutes : Z) : DistanceMatrix :=
  {| GetDistance := straight_line; GetTime := fun _ _ => minutes |}.

Definition range_forward : RangeOrder := fun _ m => map_to_list m.
Definition range_backward : RangeOrder := fun _ m => reverse (map_to_list m).

Definition visited (o : outcome) : list string :=
  match o with
  | Returned route => map (fun v => ID (Place_ v)) (Visits route)
  | _ => []
  end.

(** Clock times of one day, in nanoseconds. *)
Definition clock (h m : Z) : Z := (60 * h + m) * time.Minute.

End instances.

(** ** The route as a whole *)

(** The route that the loop returns from the state in which it ends. *)
Definition completed (endTime : Z) (st : service.state)
  : service.OptimizedRoute :=
  {| service.Visits := service.visits st;
     service.TotalDistanceKm := service.totalDistance st;
     service.TotalTravelTime := service.totalTravelTime st;
     service.CompletionTime := service.currentTime st;
     service.TimeBufferMinutes :=
       time.whole_minutes (time.Sub endTime (service.currentTime st));
     service.Feasible := true |}.

(** The state in which [optimizeRoute] enters its loop. *)
Definition initial (startLoc : service.Location) (startTime : Z)
    (places : list service.Place) : service.state :=
  {| service.currentLoc := startLoc;
     service.currentTime := startTime;
     service.unvisited := service.index_places places;
     service.visits := [];
     service.totalDistance := 0;
     service.totalTravelTime := 0;
     service.sequenceOrder := 1 |}.

(** Where the traveller stands after the visits [vs]. *)
Definition last_location (start : service.Location)
    (vs : list service.Visit) : service.Location :=
  foldl (fun _ v => service.Place_Location (service.Place_ v)) start vs.

(** Each visit records the distance and the travel time that the matrix
    gives from the stop before it, the first one from [from]. *)
Fixpoint legs (matrix : service.DistanceMatrix) (from : service.Location)
    (vs : list service.Visit) : Prop :=
  match vs with
  | [] => True
  | v :: rest =>
      let to := service.Place_Location (service.Place_ v) in
      service.DistanceFromPrevious v = service.GetDistance matrix from to
      /\ service.TravelTimeFromPrevious v = service.GetTime matrix from to
      /\ legs matrix to rest
  end.

(** The recorded distances added up in the order of the visits, as
    [float64] additions; the recorded travel times added up as integers. *)
Definition total_distance (vs : list service.Visit) : float :=
  foldl (fun acc v => (acc + service.DistanceFromPrevious v)%float) 0%float vs.

Definition total_travel (vs : list service.Visit) : Z :=
  foldl (fun acc v => acc + service.TravelTimeFromPrevious v) 0 vs.

(** The ids of the places visited, in the order of the visits. *)
Definition visited_ids (vs : list service.Visit) : list string :=
  map (fun v => service.ID (service.Place_ v)) vs.

(** A matrix that gives every leg the same distance and travel time. *)
Definition uniform (km : float) (minutes : Z) : service.DistanceMatrix :=
  {| service.GetDistance := fun _ _ => km;
     service.GetTime := fun _ _ => minutes |}.

(** The values of the members of one name (as the decoder matches names),
    in the order of the text. *)
Definition members_named (name : string)
    (members : list (string * json.value)) : list json.value :=
  map snd
    (List.filter (fun kv => String.eqb (json.foldName (fst kv)) name) members).

(** What the flat form makes of the members of one name: 0 when there is
    none, the number when there is one. *)
Definition member_or_zero (vs : list json.value) (x : float) : Prop :=
  (vs = [] /\ x = 0%float) \/ (vs = [json.Number x] /\ is_finite x = true).

(** ** binary64 vocabulary *)



(** The number that a [Decimal] stands for. *)
Definition decimal_R (d : decimal.Decimal) : R :=
  (IZR (decimal.value d) * powerRZ 10 (decimal.exp d))%R.

(** The first byte of a text in which [fmt] finds a number. *)
Definition token_start (c : ascii) : bool :=
  fmt.is_char "n" "N" c || fmt.is_char "+" "-" c || fmt.is_char "i" "I" c
  || fmt.is_digit c || Ascii.eqb "." c.

(** Nearest first: a visit goes to a place that none of the places visited
    after it undercuts, that is, no later place was strictly nearer to the
    stop before the visit than the distance recorded for it. *)
Fixpoint nearest_first (matrix : service.DistanceMatrix)
    (from : service.Location) (vs : list service.Visit) : Prop :=
  match vs with
  | [] => True
  | v :: rest =>
      Forall (fun w =>
                (distance_to matrix from (service.Place_ w)
                 <? service.DistanceFromPrevious v)%float = false) rest
      /\ nearest_first matrix (service.Place_Location (service.Place_ v)) rest
  end.

(** The same while the loop runs: the places still [pending] do not
    undercut the visits made so far either. *)
Fixpoint nearest_so_far (matrix : service.DistanceMatrix)
    (from : service.Location) (vs : list service.Visit)
    (pending : service.Place -> Prop) : Prop :=
  match vs with
  | [] => True
  | v :: rest =>
      (forall q, pending q ->
         (distance_to matrix from q
          <? service.DistanceFromPrevious v)%float = false)
      /\ Forall (fun w =>
                   (distance_to matrix from (service.Place_ w)
                    <? service.DistanceFromPrevious v)%float = false) rest
      /\ nearest_so_far matrix (service.Place_Location (service.Place_ v))
           rest pending
  end.

(** ** package strings, as far as the migration command uses it *)
Module strings.

Fixpoint HasPrefix (s prefix : string) {struct prefix} : bool :=
  match prefix, s with
  | EmptyString, _ => true
  | String a prefix', String b s' => Ascii.eqb a b && HasPrefix s' prefix'
  | String _ _, EmptyString => false
  end.

Fixpoint skip (n : nat) (s : string) : string :=
  match n, s with
  | Datatypes.S n', String _ s' => skip n' s'
  | _, _ => s
  end.

(** [strings.Index]: the byte index of the first instance of [substr] in
    [s]; [None] is Go's -1. *)
Fixpoint Index (s substr : string) : option nat :=
  if HasPrefix s substr then Some 0%nat
  else
    match s with
    | EmptyString => None
    | String _ s' => option_map Datatypes.S (Index s' substr)
    end.

Definition Contains (s substr : string) : bool :=
  match Index s substr with Some _ => true | None => false end.

(** [strings.Replace(s, old, new, 1)]: the first instance of [old] is
    replaced by [new]. *)
Fixpoint Replace_1 (s old new : string) : string :=
  if HasPrefix s old then new +:+ skip (String.length old) s
  else
    match s with
    | EmptyString => EmptyString
    | String c s' => String c (Replace_1 s' old new)
    end.

End strings.

(** ** cmd/migrate: the connection string of the migration *)
Module migrate.

(** The fields of [config.PostgresConfig] that the command prints, with
    the types of their verbs. *)
Record PostgresConfig : Type :=
  { Host : string; Port : Z; User : string; Password : string;
    DBName : string; SSLMode : string }.

(** The verb [%d]. *)
Definition Sprintf_d (n : Z) : string :=
  if n <? 0 then String "-" (itoa (Z.to_nat (- n))) else itoa (Z.to_nat n).

(** [fmt.Sprintf("host=%s port=%d user=%s password=%s dbname=%s sslmode=%s", ...)] *)
Definition Sprintf_DSN (host : string) (port : Z)
    (user password dbname sslmode : string) : string :=
  "host=" +:+ host +:+ " port=" +:+ Sprintf_d port +:+ " user=" +:+ user
  +:+ " password=" +:+ password +:+ " dbname=" +:+ dbname
  +:+ " sslmode=" +:+ sslmode.

Definition buildMigrationDSN (cfg : PostgresConfig) : string :=
  Sprintf_DSN (Host cfg) (Port cfg) (User cfg) (Password cfg) (DBName cfg)
    (SSLMode cfg).

Definition buildMigrationDSNFromHost (cfg : PostgresConfig) (host : string)
  : string :=
  Sprintf_DSN host (Port cfg) (User cfg) (Password cfg) (DBName cfg)
    (SSLMode cfg).

(** The connection string that [main] opens: the one built from the
    configuration, or, when the host contains "pooler", the one built with
    the host from which the first "-pooler" is taken out. *)
Definition migrationDSN (cfg : PostgresConfig) : string :=
  let migrationDSN := buildMigrationDSN cfg in
  if strings.Contains (Host cfg) "pooler" then
    let directHost := strings.Replace_1 (Host cfg) "-pooler" "" in
    buildMigrationDSNFromHost cfg directHost
  else migrationDSN.

End migrate.

(** * Properties *)

(** ** binary64 comparisons *)
Section float64.

Lemma SFcompare_antisym x y :
  SFcompare y x = option_map CompOpp (SFcompare x y).
Proof.
  destruct x as [[]|[]| |[] m e], y as [[]|[]| |[] m' e'];
    simpl; try reflexivity.
  all: rewrite (Z.compare_antisym e e'); destruct (e ?= e'); simpl;
    try reflexivity.
  all: change (Pos.compare_cont Eq m' m)
         with (Pos.compare_cont (CompOpp Eq) m' m);
    rewrite <- (Pos.compare_cont_antisym m m' Eq); simpl; try reflexivity.
  all: destruct (Pos.compare_cont Eq m m'); reflexivity.
Qed.

Lemma finite_cmp_lt e m e' m' :
  match e ?= e' with
  | Lt => Lt | Gt => Gt | Eq => Pos.compare_cont Eq m m'
  end = Lt
  <-> e < e' \/ (e = e' /\ Zpos m < Zpos m').
Proof.
  change (Pos.compare_cont Eq m m') with (Pos.compare m m').
  destruct (Z.compare_spec e e'); destruct (Pos.compare_spec m m');
    split; intros; try discriminate; try lia; reflexivity.
Qed.

Lemma finite_cmp_gt e m e' m' :
  match e ?= e' with
  | Lt => Gt | Gt => Lt | Eq => CompOpp (Pos.compare_cont Eq m m')
  end = Lt
  <-> e' < e \/ (e' = e /\ Zpos m' < Zpos m).
Proof.
  change (Pos.compare_cont Eq m m') with (Pos.compare m m').
  destruct (Z.compare_spec e e'); destruct (Pos.compare_spec m m');
    simpl; split; intros; try discriminate; try lia; reflexivity.
Qed.

Lemma SFcompare_lt_trans x y z :
  SFcompare x y = Some Lt -> SFcompare y z = Some Lt ->
  SFcompare x z = Some Lt.
Proof.
  destruct x as [[]|[]| |[] m e], y as [[]|[]| |[] m' e'],
        z as [[]|[]| |[] m'' e''];
    simpl; try discriminate; try reflexivity; intros H1 H2;
    injection H1 as H1; injection H2 as H2; f_equal.
  all: rewrite ?finite_cmp_lt, ?finite_cmp_gt in *; lia.
Qed.

Lemma SFcompare_refl_finite s m e :
  SFcompare (S754_finite s m e) (S754_finite s m e) = Some Eq.
Proof.
  simpl. rewrite Z.compare_refl.
  change (Pos.compare_cont Eq m m) with (Pos.compare m m).
  rewrite Pos.compare_refl. now destruct s.
Qed.

Lemma ltb_asym x y : (x <? y)%float = true -> (y <? x)%float = false.
Proof.
  rewrite !FloatAxioms.ltb_spec. unfold SFltb.
  rewrite (SFcompare_antisym (Prim2SF x) (Prim2SF y)).
  destruct (SFcompare (Prim2SF x) (Prim2SF y)) as [[]|]; simpl; congruence.
Qed.

Lemma ltb_trans x y z :
  (x <? y)%float = true -> (y <? z)%float = true -> (x <? z)%float = true.
Proof.
  rewrite !FloatAxioms.ltb_spec. unfold SFltb.
  destruct (SFcompare (Prim2SF x) (Prim2SF y)) as [[]|] eqn:E1;
    try discriminate.
  destruct (SFcompare (Prim2SF y) (Prim2SF z)) as [[]|] eqn:E2;
    try discriminate.
  intros _ _. now rewrite (SFcompare_lt_trans _ _ _ E1 E2).
Qed.

Lemma leb_ltb x y : (x <=? y)%float = true -> (y <? x)%float = false.
Proof.
  rewrite FloatAxioms.ltb_spec, FloatAxioms.leb_spec. unfold SFltb, SFleb.
  rewrite (SFcompare_antisym (Prim2SF x) (Prim2SF y)).
  destruct (SFcompare (Prim2SF x) (Prim2SF y)) as [[]|]; simpl; congruence.
Qed.

(** Neither below nor above, and not NaN: between. *)
Lemma not_ltb_leb x y :
  (y <? x)%float = false -> is_nan x = false -> is_nan y = false ->
  (x <=? y)%float = true.
Proof.
  unfold is_nan. rewrite FloatAxioms.ltb_spec, FloatAxioms.leb_spec, !FloatAxioms.eqb_spec. unfold SFltb, SFleb, SFeqb.
  rewrite (SFcompare_antisym (Prim2SF x) (Prim2SF y)).
  destruct (Prim2SF x) as [[]|[]| |[] m e], (Prim2SF y) as [[]|[]| |[] m' e'];
    try (cbn; congruence).
  all: destruct (SFcompare _ _) as [[]|] eqn:E; simpl; try congruence.
  all: simpl in E; discriminate.
Qed.

Lemma Prim2SF_infinity : Prim2SF infinity = S754_infinity false.
Proof. reflexivity. Qed.

(** A number between two finite numbers is finite. *)
Lemma bracket_finite lo hi x :
  is_finite lo = true -> is_finite hi = true ->
  (lo <=? x)%float = true -> (x <=? hi)%float = true -> is_finite x = true.
Proof.
  unfold is_finite, is_nan, is_infinity.
  rewrite !FloatAxioms.eqb_spec, !FloatAxioms.abs_spec, !FloatAxioms.leb_spec, Prim2SF_infinity.
  destruct (Prim2SF lo) as [[]|[]| |[] ml el] eqn:El; try (cbn; discriminate);
  destruct (Prim2SF hi) as [[]|[]| |[] mh eh] eqn:Eh; try (cbn; discriminate);
  destruct (Prim2SF x) as [[]|[]| |[] m e] eqn:Ex; try (cbn; discriminate);
  intros _ _ _ _; unfold SFeqb; rewrite ?SFcompare_refl_finite; reflexivity.
Qed.

Lemma finite_not_nan x : is_finite x = true -> is_nan x = false.
Proof. unfold is_finite. destruct (is_nan x); [discriminate | reflexivity]. Qed.

Lemma finite_encodes x :
  is_finite x = true -> json.encode_float64 x = Some (json.Number x).
Proof.
  unfold json.encode_float64, is_finite.
  destruct (is_nan x || is_infinity x); [discriminate | reflexivity].
Qed.

End float64.

(** ** binary64 rounding

    What [SpecFloat] says of the shifts and of rounding to nearest, as far
    as the conversions and [Duration.Minutes] need it. *)
Section binary64_rounding.

Lemma digits2_pos_bounds p :
  2 ^ (Zpos (digits2_pos p) - 1) <= Zpos p < 2 ^ Zpos (digits2_pos p).
Proof.
  assert (forall D, 0 < D -> 2 ^ D = 2 * 2 ^ (D - 1)) as Hpow.
  { intros D HD. rewrite <- Z.pow_succ_r by lia. f_equal. lia. }
  induction p as [p IH|p IH|]; cbn [digits2_pos].
  - rewrite Pos2Z.inj_succ, (Pos2Z.inj_xI p).
    replace (Z.succ (Zpos (digits2_pos p)) - 1) with (Zpos (digits2_pos p))
      by lia.
    rewrite Z.pow_succ_r by lia.
    rewrite (Hpow (Zpos (digits2_pos p))) in * by lia. lia.
  - rewrite Pos2Z.inj_succ, (Pos2Z.inj_xO p).
    replace (Z.succ (Zpos (digits2_pos p)) - 1) with (Zpos (digits2_pos p))
      by lia.
    rewrite Z.pow_succ_r by lia.
    rewrite (Hpow (Zpos (digits2_pos p))) in * by lia. lia.
  - simpl. lia.
Qed.

Lemma digits2_pos_unique p k :
  2 ^ (k - 1) <= Zpos p < 2 ^ k -> Zpos (digits2_pos p) = k.
Proof.
  intros [Hlo Hhi]. pose proof (digits2_pos_bounds p) as [Dlo Dhi].
  assert (0 < k) as Hk.
  { destruct (Z.ltb_spec 0 k) as [|Hle]; [assumption|].
    destruct (Z.eq_dec k 0) as [->|]; [simpl in Hhi; lia|].
    rewrite Z.pow_neg_r in Hhi by lia. lia. }
  destruct (Z.lt_trichotomy (Zpos (digits2_pos p)) k) as [H|[H|H]];
    [exfalso|exact H|exfalso].
  - assert (2 ^ Zpos (digits2_pos p) <= 2 ^ (k - 1))
      by (apply Z.pow_le_mono_r; lia).
    lia.
  - assert (2 ^ k <= 2 ^ (Zpos (digits2_pos p) - 1))
      by (apply Z.pow_le_mono_r; lia).
    lia.
Qed.

Lemma round_nearest_even_cases m l :
  round_nearest_even m l = m \/ round_nearest_even m l = m + 1.
Proof.
  destruct l as [|[]]; simpl; auto. destruct (Z.even m); auto.
Qed.

Lemma loc_of_shr_record_of_loc m l :
  loc_of_shr_record (shr_record_of_loc m l) = l.
Proof. now destruct l as [|[]]. Qed.

Lemma shr_m_of_loc m l : shr_m (shr_record_of_loc m l) = m.
Proof. now destruct l as [|[]]. Qed.

Lemma shr_1_half mrs : 0 < shr_m mrs -> shr_m (shr_1 mrs) = shr_m mrs / 2.
Proof.
  destruct mrs as [[|[p|p|]|p] r s]; simpl; intros H; try lia.
  - rewrite (Pos2Z.inj_xI p). apply Z.div_unique with 1; lia.
  - rewrite (Pos2Z.inj_xO p). apply Z.div_unique with 0; lia.
  - reflexivity.
Qed.

(** One shift: the mantissa is halved, and the round bit is the bit that
    was dropped. *)
Lemma shr_1_spec mrs :
  0 <= shr_m mrs ->
  shr_m (shr_1 mrs) = shr_m mrs / 2
  /\ shr_r (shr_1 mrs) = Z.odd (shr_m mrs).
Proof.
  destruct mrs as [[|[p|p|]|p] r s]; simpl; intros H; try lia.
  - now split.
  - split; [|reflexivity].
    rewrite (Pos2Z.inj_xI p). apply Z.div_unique with 1; lia.
  - split; [|reflexivity].
    rewrite (Pos2Z.inj_xO p). apply Z.div_unique with 0; lia.
  - now split.
Qed.

Lemma iter_pos_nat {A : Type} (f : A -> A) p : forall x,
  SpecFloat.iter_pos f p x = Nat.iter (Pos.to_nat p) f x.
Proof.
  induction p as [p IH|p IH|]; intros x; cbn [SpecFloat.iter_pos].
  - rewrite !IH, Pos2Nat.inj_xI.
    replace (S (2 * Pos.to_nat p))%nat
      with (Pos.to_nat p + (Pos.to_nat p + 1))%nat by lia.
    rewrite !Nat.iter_add. reflexivity.
  - rewrite !IH, Pos2Nat.inj_xO.
    replace (2 * Pos.to_nat p)%nat
      with (Pos.to_nat p + Pos.to_nat p)%nat by lia.
    rewrite Nat.iter_add. reflexivity.
  - reflexivity.
Qed.

(** Several shifts: the mantissa is divided by the power of two, and the
    round bit is set only when the part dropped is at least half of it. *)
Lemma shr_iter k : forall mrs,
  0 <= shr_m mrs ->
  let out := Nat.iter (S k) shr_1 mrs in
  shr_m out = shr_m mrs / 2 ^ Z.of_nat (S k)
  /\ (shr_r out = true ->
      2 ^ Z.of_nat k <= shr_m mrs mod 2 ^ Z.of_nat (S k)).
Proof.
  induction k as [|k IH]; intros mrs Hm.
  - cbv zeta. change (Nat.iter 1 shr_1 mrs) with (shr_1 mrs). destruct (shr_1_spec mrs Hm) as [Hh Hr].
    change (2 ^ Z.of_nat 1) with 2. change (2 ^ Z.of_nat 0) with 1.
    split; [exact Hh|]. rewrite Hr. intros Hodd.
    rewrite Zmod_odd, Hodd. lia.
  - intros out. subst out.
    change (Nat.iter (S (S k)) shr_1 mrs)
      with (shr_1 (Nat.iter (S k) shr_1 mrs)).
    destruct (IH mrs Hm) as [Hq _].
    set (mid := Nat.iter (S k) shr_1 mrs) in *.
    assert (0 < 2 ^ Z.of_nat (S k)) as Hpow by (apply Z.pow_pos_nonneg; lia).
    assert (0 <= shr_m mid) as Hmid
      by (rewrite Hq; apply Z.div_pos; lia).
    destruct (shr_1_spec mid Hmid) as [Hh Hr].
    assert (2 ^ Z.of_nat (S (S k)) = 2 ^ Z.of_nat (S k) * 2) as Hsucc.
    { rewrite (Nat2Z.inj_succ (S k)), Z.pow_succ_r by lia. lia. }
    split.
    + rewrite Hh, Hq, Hsucc, Z.div_div by lia. reflexivity.
    + rewrite Hr, Hq. intros Hodd.
      pose proof (Z.div_mod (shr_m mrs) (2 ^ Z.of_nat (S k)) ltac:(lia)) as Hdm.
      pose proof (Z.mod_pos_bound (shr_m mrs) (2 ^ Z.of_nat (S k)) Hpow) as Hb.
      pose proof (Z.div_mod (shr_m mrs / 2 ^ Z.of_nat (S k)) 2 ltac:(lia)) as Hdm2.
      rewrite Zmod_odd, Hodd in Hdm2.
      rewrite Hsucc.
      rewrite <- (Z.mod_unique (shr_m mrs) (2 ^ Z.of_nat (S k) * 2)
                    (shr_m mrs / 2 ^ Z.of_nat (S k) / 2)
                    (2 ^ Z.of_nat (S k) + shr_m mrs mod 2 ^ Z.of_nat (S k)));
        [lia|left; lia|].
      generalize dependent (shr_m mrs / 2 ^ Z.of_nat (S k) / 2). intros h.
      generalize dependent (shr_m mrs / 2 ^ Z.of_nat (S k)). intros q.
      generalize dependent (shr_m mrs mod 2 ^ Z.of_nat (S k)). intros r.
      generalize dependent (2 ^ Z.of_nat (S k)). intros P. intros. nia.
Qed.


Lemma round_up_needs_round_bit mrs :
  let m := round_nearest_even (shr_m mrs) (loc_of_shr_record mrs) in
  m = shr_m mrs \/ (m = shr_m mrs + 1 /\ shr_r mrs = true).
Proof.
  destruct mrs as [m [] []]; simpl; auto.
  destruct (Z.even m); auto.
Qed.

(** A mantissa of 53 bits or more is cut down to 53. *)
Lemma shr_fexp_normal p e l :
  let d := Zpos (digits2_pos p) in
  53 <= d -> -1074 <= e ->
  exists out,
    shr_fexp prec emax (Zpos p) e l = (out, e + (d - 53))
    /\ shr_m out = Zpos p / 2 ^ (d - 53)
    /\ (d = 53 -> out = shr_record_of_loc (Zpos p) l)
    /\ (53 < d -> shr_r out = true ->
        2 ^ (d - 53) <= 2 * (Zpos p mod 2 ^ (d - 53))).
Proof.
  intros d Hd He. unfold shr_fexp, Zdigits2. fold d.
  unfold fexp, emin, prec, emax. rewrite Z.max_l by lia.
  replace (d + e - 53 - e) with (d - 53) by lia.
  destruct (d - 53) as [|n|n] eqn:En; [|clear Hd|lia].
  - exists (shr_record_of_loc (Zpos p) l). cbn [shr].
    rewrite Z.add_0_r, shr_m_of_loc, Z.pow_0_r, Z.div_1_r.
    repeat split; lia.
  - cbn [shr]. exists (SpecFloat.iter_pos shr_1 n (shr_record_of_loc (Zpos p) l)).
    split; [reflexivity|].
    rewrite iter_pos_nat.
    destruct (Pos.to_nat n) as [|k] eqn:Ek; [lia|].
    destruct (shr_iter k (shr_record_of_loc (Zpos p) l)) as [Hq Hr];
      [rewrite shr_m_of_loc; lia|].
    rewrite shr_m_of_loc in Hq, Hr.
    assert (Z.of_nat (S k) = Zpos n) as Hn by lia.
    rewrite Hn in Hq, Hr.
    split; [exact Hq|]. split; [lia|].
    intros _ Hbit. specialize (Hr Hbit).
    assert (2 ^ Zpos n = 2 * 2 ^ Z.of_nat k) as ->.
    { rewrite <- Hn, Nat2Z.inj_succ, Z.pow_succ_r by lia. reflexivity. }
    assert (2 ^ Zpos n = 2 * 2 ^ Z.of_nat k) as Hp.
    { rewrite <- Hn, Nat2Z.inj_succ, Z.pow_succ_r by lia. reflexivity. }
    rewrite Hp in Hr. lia.
Qed.

(** The second half of rounding: a mantissa of 53 bits, or 2^53, is
    stored as it is. *)
Lemma round_finish sx mr e1 :
  2 ^ 52 <= mr <= 2 ^ 53 -> -1074 <= e1 <= 970 ->
  exists my ey,
    (let '(mrs'', e'') := shr_fexp prec emax mr e1 loc_Exact in
     match shr_m mrs'' with
     | 0 => S754_zero sx
     | Zpos m0 =>
         if e'' <=? emax - prec then S754_finite sx m0 e''
         else S754_infinity sx
     | Zneg _ => S754_nan
     end) = S754_finite sx my ey
    /\ 2 ^ 52 <= Zpos my < 2 ^ 53
    /\ e1 <= ey <= e1 + 1
    /\ Zpos my * 2 ^ (ey - e1) = mr.
Proof.
  intros Hmr He1.
  destruct mr as [|pr|pr]; try lia.
  destruct (Z.ltb_spec (Zpos pr) (2 ^ 53)) as [Hlt|Hge].
  - destruct (shr_fexp_normal pr e1 loc_Exact) as (out & -> & Hm & Hout & _).
    { rewrite (digits2_pos_unique pr 53); lia. }
    { lia. }
    rewrite (digits2_pos_unique pr 53) in * by lia.
    rewrite Hout by reflexivity. cbn [shr_record_of_loc shr_m].
    exists pr, (e1 + (53 - 53)).
    replace (e1 + (53 - 53) <=? emax - prec) with true
      by (symmetry; apply Z.leb_le; unfold emax, prec; lia).
    replace (e1 + (53 - 53) - e1) with 0 by lia.
    rewrite Z.pow_0_r, Z.mul_1_r. repeat split; lia.
  - assert (Zpos pr = 2 ^ 53) as Hpr by lia.
    destruct (shr_fexp_normal pr e1 loc_Exact) as (out & -> & Hm & _ & _).
    { rewrite (digits2_pos_unique pr 54); lia. }
    { lia. }
    rewrite (digits2_pos_unique pr 54) in * by lia.
    rewrite Hm, Hpr. change (2 ^ 53 / 2 ^ (54 - 53)) with (Zpos (2 ^ 52)).
    cbv iota. exists (Pos.pow 2 52), (e1 + (54 - 53)).
    replace (e1 + (54 - 53) <=? emax - prec) with true
      by (symmetry; apply Z.leb_le; unfold emax, prec; lia).
    replace (e1 + (54 - 53) - e1) with 1 by lia.
    split; [reflexivity|].
    change (Zpos (2 ^ 52)) with (2 ^ 52). change (2 ^ 1) with 2.
    repeat split; lia.
Qed.

(** Rounding an exact mantissa of 53 bits or more to the nearest number:
    the result is a normal number, a multiple of the unit of its last
    place, and it lies above the mantissa only when the part cut off was at
    least half a unit. *)
Lemma binary_round_aux_nearest sx p e :
  let d := Zpos (digits2_pos p) in
  53 <= d -> -1074 <= e -> d + e <= 1023 ->
  exists my ey k,
    binary_round_aux prec emax sx (Zpos p) e loc_Exact = S754_finite sx my ey
    /\ 2 ^ 52 <= Zpos my < 2 ^ 53
    /\ e + (d - 53) <= ey <= e + (d - 53) + 1
    /\ Zpos my * 2 ^ (ey - e) = k * 2 ^ (d - 53)
    /\ (k = Zpos p / 2 ^ (d - 53)
        \/ (k = Zpos p / 2 ^ (d - 53) + 1
            /\ 2 ^ (d - 53) <= 2 * (Zpos p mod 2 ^ (d - 53)))).
Proof.
  intros d Hd He Hmax. unfold binary_round_aux.
  destruct (shr_fexp_normal p e loc_Exact Hd He) as (out & -> & Hm & Hsame & Hbit).
  cbv beta iota. fold d in Hm, Hsame, Hbit |- *.
  pose proof (digits2_pos_bounds p) as [Hlo Hhi]. fold d in Hlo, Hhi.
  assert (0 < 2 ^ (d - 53)) as Hpow by (apply Z.pow_pos_nonneg; lia).
  assert (2 ^ 52 <= shr_m out < 2 ^ 53) as Hcut.
  { rewrite Hm.
    assert (2 ^ (d - 1) = 2 ^ 52 * 2 ^ (d - 53)) as E1
      by (rewrite <- Z.pow_add_r by lia; f_equal; lia).
    assert (2 ^ d = 2 ^ 53 * 2 ^ (d - 53)) as E2
      by (rewrite <- Z.pow_add_r by lia; f_equal; lia).
    split; [apply Z.div_le_lower_bound; lia
           |apply Z.div_lt_upper_bound; lia]. }
  pose proof (round_up_needs_round_bit out) as Hround. cbv zeta in Hround.
  set (mr := round_nearest_even (shr_m out) (loc_of_shr_record out)) in *.
  destruct (round_finish sx mr (e + (d - 53))) as (my & ey & -> & Hmy & Hey & Hv);
    [destruct Hround as [->|[-> _]]; lia|lia|].
  exists my, ey, mr. split; [reflexivity|]. split; [exact Hmy|].
  split; [exact Hey|]. split.
  - replace (ey - e) with (ey - (e + (d - 53)) + (d - 53)) by lia.
    rewrite Z.pow_add_r by lia. rewrite Z.mul_assoc, Hv. reflexivity.
  - destruct Hround as [E|[E Hr]]; [left; now rewrite E, Hm|right].
    split; [now rewrite E, Hm|].
    destruct (Z.eq_dec d 53) as [E53|N53].
    + exfalso. subst mr. rewrite (Hsame E53) in E.
      rewrite loc_of_shr_record_of_loc, shr_m_of_loc in E.
      cbn [round_nearest_even] in E. lia.
    + apply Hbit; [lia|exact Hr].
Qed.


Lemma valid_normal s my ey :
  2 ^ 52 <= Zpos my < 2 ^ 53 -> -1074 <= ey <= 971 ->
  Prim2SF (SF2Prim (S754_finite s my ey)) = S754_finite s my ey.
Proof.
  intros Hmy Hey. apply Prim2SF_SF2Prim.
  unfold valid_binary, SpecFloat.bounded, SpecFloat.canonical_mantissa.
  rewrite (digits2_pos_unique my 53) by exact Hmy.
  unfold fexp, emin, prec, emax.
  apply andb_true_iff. split; [apply Z.eqb_eq|apply Z.leb_le]; lia.
Qed.

Lemma iter_xO p k : Zpos (Pos.iter xO p k) = Zpos p * 2 ^ Zpos k.
Proof.
  induction k as [|k IH] using Pos.peano_ind.
  - cbn [Pos.iter]. rewrite (Pos2Z.inj_xO p). change (2 ^ 1) with 2. lia.
  - rewrite Pos.iter_succ, (Pos2Z.inj_xO (Pos.iter xO p k)), IH.
    rewrite Pos2Z.inj_succ, Z.pow_succ_r by lia. lia.
Qed.

Lemma shl_align_fst mx ex ez :
  ez <= ex -> Zpos (fst (shl_align mx ex ez)) = Zpos mx * 2 ^ (ex - ez).
Proof.
  intros H. unfold shl_align.
  destruct (ez - ex) as [|d|d] eqn:E; cbn [fst]; try lia.
  - replace (ex - ez) with 0 by lia. rewrite Z.pow_0_r. lia.
  - rewrite iter_xO. f_equal. f_equal. lia.
Qed.

(** A mantissa of exactly 53 bits is stored as it is. *)
Lemma binary_round_aux_53 sx p e :
  2 ^ 52 <= Zpos p < 2 ^ 53 -> -1074 <= e <= 970 ->
  binary_round_aux prec emax sx (Zpos p) e loc_Exact = S754_finite sx p e.
Proof.
  intros Hp He.
  pose proof (digits2_pos_unique p 53 Hp) as Hd.
  destruct (binary_round_aux_nearest sx p e)
    as (my & ey & k & -> & Hmy & Hey & Hv & Hk); try lia.
  rewrite Hd in *. change (2 ^ (53 - 53)) with 1 in *.
  rewrite Z.mod_1_r, Z.div_1_r in Hk.
  assert (k = Zpos p) as -> by lia.
  assert (ey = e \/ ey = e + 1) as [-> | ->] by lia.
  - replace (e - e) with 0 in Hv by lia. rewrite Z.pow_0_r in Hv.
    f_equal. lia.
  - replace (e + 1 - e) with 1 in Hv by lia. change (2 ^ 1) with 2 in Hv. lia.
Qed.

(** The conversion of an integer below 2^53: no rounding. *)
Lemma binary_normalize_integer p :
  let d := Zpos (digits2_pos p) in
  d <= 53 ->
  exists m,
    binary_normalize prec emax (Zpos p) 0 false = S754_finite false m (d - 53)
    /\ Zpos m = Zpos p * 2 ^ (53 - d)
    /\ 2 ^ 52 <= Zpos m < 2 ^ 53.
Proof.
  intros d Hd. pose proof (digits2_pos_bounds p) as [Hlo Hhi]. fold d in Hlo, Hhi.
  assert (0 < d) as Hpos by (subst d; lia).
  cbn [binary_normalize]. unfold binary_round. fold d.
  unfold fexp, emin, prec, emax. rewrite Z.add_0_r, Z.max_l by lia.
  pose proof (shl_align_fst p 0 (d - 53) ltac:(lia)) as Hfst.
  replace (0 - (d - 53)) with (53 - d) in Hfst by lia.
  assert (snd (shl_align p 0 (d - 53)) = d - 53) as Hsnd.
  { unfold shl_align. destruct (d - 53 - 0) as [|k|k] eqn:E; cbn [snd]; lia. }
  destruct (shl_align p 0 (d - 53)) as [mz ez]. cbn [fst snd] in *. subst ez.
  assert (2 ^ 52 <= Zpos mz < 2 ^ 53) as Hmz.
  { rewrite Hfst.
    assert (2 ^ 52 = 2 ^ (d - 1) * 2 ^ (53 - d)) as ->
      by (rewrite <- Z.pow_add_r by lia; f_equal; lia).
    assert (2 ^ 53 = 2 ^ d * 2 ^ (53 - d)) as ->
      by (rewrite <- Z.pow_add_r by lia; f_equal; lia).
    assert (0 < 2 ^ (53 - d)) by (apply Z.pow_pos_nonneg; lia).
    split; [apply Z.mul_le_mono_nonneg_r; lia
           |apply Z.mul_lt_mono_pos_r; lia]. }
  exists mz. split; [|split; [exact Hfst|exact Hmz]].
  apply binary_round_aux_53; [exact Hmz|lia].
Qed.

(** A mantissa of 53 bits is kept, one of 54 bits is halved. *)
Lemma shr_fexp_53 p e l :
  2 ^ 52 <= Zpos p < 2 ^ 53 -> -1074 <= e ->
  shr_fexp prec emax (Zpos p) e l = (shr_record_of_loc (Zpos p) l, e).
Proof.
  intros Hp He. unfold shr_fexp, Zdigits2.
  rewrite (digits2_pos_unique p 53) by exact Hp.
  unfold fexp, emin, prec, emax.
  rewrite Z.max_l by lia.
  replace (53 + e - 53 - e) with 0 by lia. reflexivity.
Qed.

Lemma shr_fexp_54 p e l :
  2 ^ 53 <= Zpos p < 2 ^ 54 -> -1074 <= e ->
  shr_fexp prec emax (Zpos p) e l
  = (shr_1 (shr_record_of_loc (Zpos p) l), e + 1).
Proof.
  intros Hp He. unfold shr_fexp, Zdigits2.
  rewrite (digits2_pos_unique p 54) by exact Hp.
  unfold fexp, emin, prec, emax.
  rewrite Z.max_l by lia.
  replace (54 + e - 53 - e) with 1 by lia. reflexivity.
Qed.

(** Rounding a mantissa of 53 or 54 bits: the result is a normal number
    whose mantissa, put back at the exponent given, is within two units of
    the mantissa given. *)
Lemma binary_round_aux_near sx m e l :
  2 ^ 52 <= m < 2 ^ 54 -> -1074 <= e <= 900 ->
  exists my ey,
    binary_round_aux prec emax sx m e l = S754_finite sx my ey
    /\ 2 ^ 52 <= Zpos my < 2 ^ 53
    /\ e <= ey <= e + 2
    /\ m - 1 <= Zpos my * 2 ^ (ey - e) <= m + 2.
Proof.
  intros Hm He.
  assert (forall m1 e1 l1,
            2 ^ 52 <= m1 < 2 ^ 53 -> -1074 <= e1 <= 901 ->
            exists my ey,
              (let '(mrs'', e'') :=
                 shr_fexp prec emax (round_nearest_even m1 l1) e1 loc_Exact in
               match shr_m mrs'' with
               | 0 => S754_zero sx
               | Zpos m0 =>
                   if e'' <=? emax - prec then S754_finite sx m0 e''
                   else S754_infinity sx
               | Zneg _ => S754_nan
               end) = S754_finite sx my ey
              /\ 2 ^ 52 <= Zpos my < 2 ^ 53
              /\ e1 <= ey <= e1 + 1
              /\ m1 <= Zpos my * 2 ^ (ey - e1) <= m1 + 1) as Hsecond.
  { intros m1 e1 l1 Hm1 He1.
    destruct (Z.ltb_spec (round_nearest_even m1 l1) (2 ^ 53)) as [Hlt|Hge].
    - destruct (round_nearest_even m1 l1) as [|pr|pr] eqn:Er;
        try (destruct (round_nearest_even_cases m1 l1); lia).
      rewrite shr_fexp_53 by (destruct (round_nearest_even_cases m1 l1); lia).
      rewrite shr_m_of_loc.
      exists pr, e1.
      replace (e1 <=? emax - prec) with true
        by (symmetry; apply Z.leb_le; unfold emax, prec; lia).
      replace (e1 - e1) with 0 by lia. rewrite Z.pow_0_r, Z.mul_1_r.
      repeat split; try lia;
        destruct (round_nearest_even_cases m1 l1); lia.
    - assert (round_nearest_even m1 l1 = 2 ^ 53) as Er
        by (destruct (round_nearest_even_cases m1 l1); lia).
      rewrite Er. change (2 ^ 53) with (Zpos (Pos.pow 2 53)).
      rewrite shr_fexp_54 by (change (Zpos (2 ^ 53)) with (2 ^ 53); lia).
      exists (Pos.pow 2 52), (e1 + 1).
      replace (e1 + 1 <=? emax - prec) with true
        by (symmetry; apply Z.leb_le; unfold emax, prec; lia).
      replace (e1 + 1 - e1) with 1 by lia.
      split; [reflexivity|].
      change (Zpos (2 ^ 52)) with (2 ^ 52). change (2 ^ 1) with 2.
      repeat split; try lia;
        destruct (round_nearest_even_cases m1 l1); lia. }
  unfold binary_round_aux.
  destruct m as [|p|p]; try lia.
  destruct (Z.ltb_spec (Zpos p) (2 ^ 53)) as [H53|H54].
  - rewrite shr_fexp_53 by lia.
    rewrite shr_m_of_loc, loc_of_shr_record_of_loc.
    destruct (Hsecond (Zpos p) e l) as (my & ey & -> & Hmy & Hey & Hv);
      [lia|lia|].
    exists my, ey. repeat split; lia.
  - rewrite shr_fexp_54 by lia.
    pose proof (shr_1_half (shr_record_of_loc (Zpos p) l)) as Hhalf.
    rewrite shr_m_of_loc in Hhalf. specialize (Hhalf eq_refl).
    assert (2 ^ 52 <= Zpos p / 2 < 2 ^ 53) as Hq.
    { split; [apply Z.div_le_lower_bound; lia
             |apply Z.div_lt_upper_bound; lia]. }
    destruct (Hsecond (shr_m (shr_1 (shr_record_of_loc (Zpos p) l))) (e + 1)
                (loc_of_shr_record (shr_1 (shr_record_of_loc (Zpos p) l))))
      as (my & ey & -> & Hmy & Hey & Hv); [rewrite Hhalf; lia|lia|].
    exists my, ey. split; [reflexivity|]. split; [lia|]. split; [lia|].
    rewrite Hhalf in Hv.
    replace (ey - e) with (ey - (e + 1) + 1) by lia.
    rewrite Z.pow_add_r by lia. change (2 ^ 1) with 2.
    pose proof (Z.div_mod (Zpos p) 2 ltac:(lia)) as Hdm.
    pose proof (Z.mod_pos_bound (Zpos p) 2 ltac:(lia)) as Hmod.
    lia.
Qed.

Lemma div_eucl_pair a b : Z.div_eucl a b = (a / b, a mod b).
Proof. unfold Z.div, Z.modulo. now destruct (Z.div_eucl a b). Qed.


Lemma to_float64_positive p :
  let d := Zpos (digits2_pos p) in
  d <= 53 ->
  exists m,
    Prim2SF (convert.to_float64 (Zpos p)) = S754_finite false m (d - 53)
    /\ Zpos m = Zpos p * 2 ^ (53 - d)
    /\ 2 ^ 52 <= Zpos m < 2 ^ 53.
Proof.
  intros d Hd. destruct (binary_normalize_integer p Hd) as (m & E & Hm & Hb).
  fold d in E, Hm.
  assert (0 < d) by (subst d; lia).
  exists m. split; [|split; assumption].
  unfold convert.to_float64. rewrite E. apply valid_normal; [exact Hb|lia].
Qed.

Lemma digits_below p k : Zpos p < 2 ^ k -> Zpos (digits2_pos p) <= k.
Proof.
  intros H. pose proof (digits2_pos_bounds p) as [Hlo _].
  destruct (Z.le_gt_cases (Zpos (digits2_pos p)) k) as [|Hgt]; [assumption|].
  assert (2 ^ k <= 2 ^ (Zpos (digits2_pos p) - 1))
    by (apply Z.pow_le_mono_r; lia).
  lia.
Qed.

Lemma digits_above p k : 2 ^ k <= Zpos p -> k < Zpos (digits2_pos p).
Proof.
  intros H. pose proof (digits2_pos_bounds p) as [_ Hhi].
  destruct (Z.lt_ge_cases k (Zpos (digits2_pos p))) as [|Hge]; [assumption|].
  assert (2 ^ Zpos (digits2_pos p) <= 2 ^ k)
    by (apply Z.pow_le_mono_r; lia).
  lia.
Qed.

(** The fraction of a minute: [float64(nsec) / (60 * 1e9)] for a remainder
    of less than a minute is a normal number below [1 - 2^-36]. *)
Lemma fraction_of_minute p :
  Zpos p < time.Minute ->
  exists my ey,
    Prim2SF (convert.to_float64 (Zpos p) / 6e10)
    = S754_finite false my ey
    /\ 2 ^ 52 <= Zpos my < 2 ^ 53
    /\ -1074 <= ey <= -51
    /\ Zpos my * 2 ^ 36 < (2 ^ 36 - 1) * 2 ^ (- ey).
Proof.
  intros Hp. change time.Minute with 60000000000 in Hp.
  assert (Zpos (digits2_pos p) <= 36) as Hd
    by (apply digits_below; change (2 ^ 36) with 68719476736; lia).
  destruct (to_float64_positive p) as (mG & EG & HmG & HbG); [lia|].
  set (d := Zpos (digits2_pos p)) in *.
  assert (0 < d) as Hpos by (subst d; lia).
  rewrite div_spec, EG.
  change (Prim2SF 6e10) with (S754_finite false 7864320000000000 (-17)).
  unfold SF64div, SFdiv, SFdiv_core_binary. unfold Zdigits2.
  rewrite (digits2_pos_unique mG 53) by exact HbG.
  change (Zpos (digits2_pos 7864320000000000)) with 53.
  unfold fexp, emin, prec, emax.
  replace (Z.min (Z.max (53 + (d - 53) - (53 + -17) - 53) (3 - 1024 - 53))
             (d - 53 - -17)) with (d - 89) by lia.
  replace (d - 53 - -17 - (d - 89)) with 53 by lia.
  rewrite Z.shiftl_mul_pow2 by lia. rewrite div_eucl_pair.
  set (q := Zpos mG * 2 ^ 53 / 7864320000000000).
  assert (2 ^ 52 <= q < 2 ^ 54) as Hq.
  { subst q. change (2 ^ 52) with 4503599627370496 in *.
    change (2 ^ 53) with 9007199254740992 in *.
    change (2 ^ 54) with 18014398509481984.
    split; [apply Z.div_le_lower_bound; lia
           |apply Z.div_lt_upper_bound; lia]. }
  change (binary_round_aux 53 1024) with (binary_round_aux prec emax).
  destruct (binary_round_aux_near (xorb false false) q (d - 89)
              (new_location 7864320000000000
                 (Zpos mG * 2 ^ 53 mod 7864320000000000)) Hq)
    as (my & ey & -> & Hmy & Hey & Hv); [lia|].
  exists my, ey. split; [reflexivity|]. split; [exact Hmy|]. split; [lia|].
  (* q * 6e10 <= p * 2^(89-d) *)
  assert (q * 60000000000 <= Zpos p * 2 ^ (89 - d)) as Hq6.
  { assert (2 ^ (89 - d) = 2 ^ (53 - d) * 2 ^ 36) as ->
      by (rewrite <- Z.pow_add_r by lia; f_equal; lia).
    pose proof (Z.mul_div_le (Zpos mG * 2 ^ 53) 7864320000000000 ltac:(lia)) as Hle.
    fold q in Hle. rewrite HmG in Hle.
    change (2 ^ 53) with 9007199254740992 in Hle.
    change (2 ^ 36) with 68719476736.
    generalize dependent (2 ^ (53 - d)). intros; nia. }
  assert (2 ^ (89 - d) = 2 ^ (- ey) * 2 ^ (ey - (d - 89))) as Hsplit
    by (rewrite <- Z.pow_add_r by lia; f_equal; lia).
  assert (2 ^ 53 <= 2 ^ (89 - d)) as Hbig by (apply Z.pow_le_mono_r; lia).
  assert (0 < 2 ^ (ey - (d - 89))) as Hk by (apply Z.pow_pos_nonneg; lia).
  change (2 ^ 36) with 68719476736. change (2 ^ 53) with 9007199254740992 in Hbig.
  apply (Z.mul_lt_mono_pos_r (2 ^ (ey - (d - 89)))); [exact Hk|].
  rewrite <- (Z.mul_assoc _ (2 ^ (- ey))), <- Hsplit.
  generalize dependent (2 ^ (89 - d)). intros T. intros.
  generalize dependent (2 ^ (ey - (d - 89))). intros K. intros.
  nia.
Qed.


(** Adding the fraction of a minute to a whole number of minutes: the
    sum, rounded, lies between that number and the next, and below 2^18
    minutes it is still below the next. *)
Lemma minutes_sum q mF eF my ey :
  0 < q < 2 ^ 28 ->
  -52 <= eF <= -25 -> Zpos mF = q * 2 ^ (- eF) ->
  2 ^ 52 <= Zpos my < 2 ^ 53 -> -1074 <= ey <= -51 ->
  Zpos my * 2 ^ 36 < (2 ^ 36 - 1) * 2 ^ (- ey) ->
  exists mz ez,
    SFadd prec emax (S754_finite false mF eF) (S754_finite false my ey)
    = S754_finite false mz ez
    /\ 2 ^ 52 <= Zpos mz < 2 ^ 53
    /\ -1074 <= ez < 0
    /\ q <= Zpos mz / 2 ^ (- ez) <= q + 1
    /\ (q < 2 ^ 18 -> Zpos mz / 2 ^ (- ez) = q).
Proof.
  intros Hq HeF HmF Hmy Hey Hfrac.
  cbn [SFadd cond_Zopp]. set (ez0 := Z.min eF ey).
  assert (ez0 <= eF /\ ez0 <= ey /\ -1074 <= ez0 <= -51) as (H1 & H2 & H3)
    by (subst ez0; lia).
  rewrite !shl_align_fst by assumption.
  set (U := 2 ^ (- ez0)).
  assert (Zpos mF * 2 ^ (eF - ez0) = q * U) as EA.
  { rewrite HmF, <- Z.mul_assoc, <- Z.pow_add_r by lia.
    subst U. do 2 f_equal. lia. }
  set (B := Zpos my * 2 ^ (ey - ez0)).
  assert (0 < B) as HB0.
  { subst B. apply Z.mul_pos_pos; [lia|apply Z.pow_pos_nonneg; lia]. }
  assert (B * 2 ^ 36 < (2 ^ 36 - 1) * U) as HB.
  { assert (U = 2 ^ (- ey) * 2 ^ (ey - ez0)) as ->
      by (subst U; rewrite <- Z.pow_add_r by lia; f_equal; lia).
    subst B.
    assert (0 < 2 ^ (ey - ez0)) by (apply Z.pow_pos_nonneg; lia).
    rewrite Z.mul_assoc, (Z.mul_shuffle0 (Zpos my)).
    apply Z.mul_lt_mono_pos_r; assumption. }
  rewrite EA.
  assert (0 < U) as HU by (subst U; apply Z.pow_pos_nonneg; lia).
  change (2 ^ 36) with 68719476736 in HB.
  assert (0 < q * U) as HqU by (apply Z.mul_pos_pos; lia).
  destruct (q * U + B) as [|pM|pM] eqn:EM; [lia| |lia].
  cbn [binary_normalize]. unfold binary_round.
  set (dM := Zpos (digits2_pos pM)).
  assert (2 ^ 52 <= Zpos pM) as Hlow.
  { rewrite <- EM, <- EA.
    assert (1 <= 2 ^ (eF - ez0)) by (apply (Z.pow_le_mono_r 2 0); lia).
    assert (Zpos mF * 1 <= Zpos mF * 2 ^ (eF - ez0))
      by (apply Z.mul_le_mono_nonneg_l; lia).
    lia. }
  assert (53 <= dM) as HdM
    by (pose proof (digits_above pM 52 Hlow); subst dM; lia).
  assert (forall K, q < 2 ^ K -> 0 <= K -> dM <= K - ez0) as Hdigits.
  { intros K HK HK0. apply digits_below. rewrite <- EM.
    replace (K - ez0) with (K + - ez0) by lia.
    rewrite Z.pow_add_r by lia. fold U.
    assert ((q + 1) * U <= 2 ^ K * U)
      by (apply Z.mul_le_mono_nonneg_r; lia).
    lia. }
  pose proof (Hdigits 28 ltac:(lia) ltac:(lia)) as HdM2.
  assert (shl_align pM ez0 (fexp prec emax (dM + ez0)) = (pM, ez0)) as ->.
  { unfold shl_align, fexp, emin, prec, emax.
    rewrite Z.max_l by lia.
    destruct (dM + ez0 - 53 - ez0) eqn:E; try reflexivity; lia. }
  destruct (binary_round_aux_nearest false pM ez0)
    as (mz & ez & k & -> & Hmz & Hez & Hv & Hk); fold dM; try lia.
  fold dM in Hez, Hv, Hk.
  exists mz, ez. split; [reflexivity|]. split; [exact Hmz|]. split; [lia|].
  set (P := 2 ^ (dM - 53)) in *.
  assert (0 < P) as HP by (subst P; apply Z.pow_pos_nonneg; lia).
  pose proof (Z.div_mod (Zpos pM) P ltac:(lia)) as Hdm.
  pose proof (Z.mod_pos_bound (Zpos pM) P HP) as Hmod.
  set (D := 2 ^ (- ez)).
  set (L := 2 ^ (ez - ez0)) in *.
  assert (0 < D) as HD by (subst D; apply Z.pow_pos_nonneg; lia).
  assert (0 < L) as HL by (subst L; apply Z.pow_pos_nonneg; lia).
  assert (U = D * L) as EDL.
  { subst U D L. rewrite <- Z.pow_add_r by lia. f_equal. lia. }
  split.
  - (* between the whole number and the next *)
    set (W := 2 ^ (- ez0 - (dM - 53))).
    assert (1 <= W) as HW by (subst W; apply (Z.pow_le_mono_r 2 0); lia).
    assert (U = P * W) as EU.
    { subst U P W. rewrite <- Z.pow_add_r by lia. f_equal. lia. }
    assert (q * W <= Zpos pM / P) as Hfloor.
    { apply Z.div_le_lower_bound; [exact HP|]. rewrite <- EM, EU. lia. }
    assert (Zpos pM / P < (q + 1) * W) as Hceil.
    { apply Z.div_lt_upper_bound; [exact HP|]. rewrite <- EM, EU in *. lia. }
    assert (q * W * P <= k * P <= (q + 1) * W * P) as [Hlo Hhi]
      by (split; apply Z.mul_le_mono_nonneg_r; lia).
    rewrite <- Hv in Hlo, Hhi.
    assert (q * W * P = q * D * L) as E1 by (rewrite <- Z.mul_assoc, (Z.mul_comm W), <- EU, EDL; lia).
    assert ((q + 1) * W * P = (q + 1) * D * L) as E2
      by (rewrite <- Z.mul_assoc, (Z.mul_comm W), <- EU, EDL; lia).
    rewrite E1 in Hlo. rewrite E2 in Hhi.
    apply Z.mul_le_mono_pos_r in Hlo; [|exact HL].
    apply Z.mul_le_mono_pos_r in Hhi; [|exact HL].
    split; [apply Z.div_le_lower_bound; lia|apply Z.div_le_upper_bound; lia].
  - (* below 2^18 minutes: still below the next *)
    intros Hq18.
    pose proof (Hdigits 18 Hq18 ltac:(lia)) as HdM3.
    set (W := 2 ^ (- ez0 - (dM - 53) - 35)).
    assert (1 <= W) as HW by (subst W; apply (Z.pow_le_mono_r 2 0); lia).
    assert (U = P * 34359738368 * W) as EU.
    { subst U P W. change 34359738368 with (2 ^ 35).
      rewrite <- !Z.pow_add_r by lia. f_equal. lia. }
    assert (q * 34359738368 * W <= Zpos pM / P) as Hfloor.
    { apply Z.div_le_lower_bound; [exact HP|]. rewrite <- EM, EU. lia. }
    assert (q * 34359738368 * W * P <= Zpos pM / P * P) as Hfloor'
      by (apply Z.mul_le_mono_nonneg_r; lia).
    assert (P <= P * W) as HPW.
    { rewrite <- (Z.mul_1_r P) at 1. apply Z.mul_le_mono_nonneg_l; lia. }
    assert (q * U <= k * P < (q + 1) * U) as Hrange.
    { rewrite EU in EM, HB |- *.
      destruct Hk as [->|[-> Hhalf]]; split; lia. }
    rewrite <- Hv, EDL in Hrange. destruct Hrange as [Hlo Hhi].
    assert (q * D <= Zpos mz) as Hlo'
      by (apply (Z.mul_le_mono_pos_r _ _ L HL); lia).
    assert (Zpos mz < (q + 1) * D) as Hhi'
      by (apply (Z.mul_lt_mono_pos_r L _ _ HL); lia).
    symmetry. apply Z.div_unique with (Zpos mz - q * D); lia.
Qed.


Lemma to_int_positive x m e :
  Prim2SF x = S754_finite false m e -> e <= 0 ->
  Zpos m / 2 ^ (- e) < 2 ^ 63 ->
  convert.to_int x = Zpos m / 2 ^ (- e).
Proof.
  intros E He Hsmall. unfold convert.to_int. rewrite E. cbn [cond_Zopp].
  rewrite Z.shiftl_div_pow2 by exact He.
  assert (0 <= Zpos m / 2 ^ (- e))
    by (apply Z.div_pos; [lia|apply Z.pow_pos_nonneg; lia]).
  replace (- 2 ^ 63 <=? Zpos m / 2 ^ (- e)) with true
    by (symmetry; apply Z.leb_le; lia).
  replace (Zpos m / 2 ^ (- e) <? 2 ^ 63) with true
    by (symmetry; apply Z.ltb_lt; lia).
  reflexivity.
Qed.

Lemma to_int_of_integer q :
  0 <= q < 2 ^ 53 -> convert.to_int (convert.to_float64 q) = q.
Proof.
  intros Hq. destruct q as [|p|p]; [reflexivity| |lia].
  assert (Zpos (digits2_pos p) <= 53) as Hd by (apply digits_below; lia).
  destruct (to_float64_positive p Hd) as (m & E & Hm & Hb).
  pose proof (digits2_pos_bounds p) as [Hlo Hhi].
  set (d := Zpos (digits2_pos p)) in *.
  assert (0 < d) by (subst d; lia).
  assert (Zpos m / 2 ^ (- (d - 53)) = Zpos p) as Hval.
  { replace (- (d - 53)) with (53 - d) by lia. rewrite Hm.
    apply Z.div_mul. apply Z.pow_nonzero; lia. }
  rewrite (to_int_positive _ m (d - 53) E); [exact Hval|lia|].
  rewrite Hval. change (2 ^ 53) with 9007199254740992 in Hq.
  change (2 ^ 63) with 9223372036854775808. lia.
Qed.

(** [int(d.Minutes())] for a span [d] that is not negative: the whole
    minutes of the span, or one more; the whole minutes exactly when the
    span is a whole number of minutes or is shorter than 2^18 minutes. *)
Lemma whole_minutes_floor d :
  0 <= d < 2 ^ 63 ->
  d / time.Minute <= time.whole_minutes d <= d / time.Minute + 1
  /\ (d < 2 ^ 18 * time.Minute \/ d mod time.Minute = 0 ->
      time.whole_minutes d = d / time.Minute).
Proof.
  intros Hd. unfold time.whole_minutes, time.Minutes.
  assert (0 < time.Minute) as HM by reflexivity.
  rewrite Z.quot_div_nonneg, Z.rem_mod_nonneg by lia.
  pose proof (Z.div_mod d time.Minute ltac:(lia)) as Hdm.
  pose proof (Z.mod_pos_bound d time.Minute HM) as Hmod.
  assert (0 <= d / time.Minute) as Hq0 by (apply Z.div_pos; lia).
  assert (d / time.Minute < 2 ^ 28) as Hq28.
  { apply Z.div_lt_upper_bound; [lia|].
    change (2 ^ 63) with 9223372036854775808 in Hd.
    change (time.Minute * 2 ^ 28) with 16106127360000000000. lia. }
  change (2 ^ 28) with 268435456 in Hq28.
  destruct (Z.eq_dec (d mod time.Minute) 0) as [Hr|Hr].
  - rewrite Hr. change (convert.to_float64 0 / 6e10)%float with 0%float.
    assert (convert.to_int (convert.to_float64 (d / time.Minute) + 0)
            = d / time.Minute) as ->; [|split; [lia|reflexivity]].
    set (q := d / time.Minute) in *.
    destruct q as [|p|p]; [reflexivity| |lia].
    assert (Zpos (digits2_pos p) <= 53) as Hdp
      by (apply digits_below; change (2 ^ 53) with 9007199254740992; lia).
    destruct (to_float64_positive p Hdp) as (m & E & _).
    assert (convert.to_float64 (Zpos p) + 0 = convert.to_float64 (Zpos p))%float
      as ->.
    { apply Prim2SF_inj. rewrite add_spec, E. reflexivity. }
    apply to_int_of_integer. change (2 ^ 53) with 9007199254740992. lia.
  - destruct (d mod time.Minute) as [|r|r] eqn:Er; [contradiction| |lia].
    destruct (fraction_of_minute r) as (my & ey & EQ & Hmy & Hey & Hfrac);
      [lia|].
    assert (Zpos my < 2 ^ (- ey)) as Hbelow.
    { assert (0 < 2 ^ (- ey)) by (apply Z.pow_pos_nonneg; lia).
      change (2 ^ 36) with 68719476736 in Hfrac. lia. }
    destruct (d / time.Minute) as [|p|p] eqn:Eq; [| |lia].
    + change (convert.to_float64 0) with 0%float.
      assert (0 + convert.to_float64 (Zpos r) / 6e10
              = convert.to_float64 (Zpos r) / 6e10)%float as ->.
      { apply Prim2SF_inj. rewrite add_spec, EQ. reflexivity. }
      rewrite (to_int_positive _ my ey EQ) by
        (try lia; rewrite Z.div_small by lia; reflexivity).
      rewrite Z.div_small by lia. split; [lia|reflexivity].
    + assert (Zpos (digits2_pos p) <= 28) as Hdp
        by (apply digits_below; change (2 ^ 28) with 268435456; lia).
      destruct (to_float64_positive p) as (mF & EF & HmF & HbF); [lia|].
      pose proof (digits2_pos_bounds p) as [Hlo Hhi].
      set (dp := Zpos (digits2_pos p)) in *.
      assert (0 < dp) by (subst dp; lia).
      destruct (minutes_sum (Zpos p) mF (dp - 53) my ey)
        as (mz & ez & Esum & Hmz & Hez & Hval & Hexact); try assumption;
        try lia.
      { rewrite HmF. do 2 f_equal. lia. }
      assert (Prim2SF (convert.to_float64 (Zpos p)
                       + convert.to_float64 (Zpos r) / 6e10)
              = S754_finite false mz ez) as Eall
        by (rewrite add_spec, EF, EQ; exact Esum).
      rewrite (to_int_positive _ mz ez Eall);
        [|lia|change (2 ^ 63) with 9223372036854775808; lia].
      split; [exact Hval|].
      intros [Hshort|Hwhole]; [|lia].
      apply Hexact. apply Z.lt_le_trans with (2 ^ 18); [|lia].
      rewrite <- Eq. apply Z.div_lt_upper_bound; lia.
Qed.

End binary64_rounding.

(** ** [Point.Distance] in binary64 *)
Section distance_facts.

Import types.


















(** *** Finite results *)








(** *** The distance of a point from itself *)







End distance_facts.

(** ** Validation *)
Section validation.

Import types.

Lemma IsValid_false_iff p :
  IsValid p = false <->
  (Latitude p <? -90)%float = true \/ (90 <? Latitude p)%float = true
  \/ (Longitude p <? -180)%float = true \/ (180 <? Longitude p)%float = true.
Proof.
  unfold IsValid.
  destruct (Latitude p <? -90)%float, (90 <? Latitude p)%float,
    (Longitude p <? -180)%float, (180 <? Longitude p)%float; simpl;
    intuition congruence.
Qed.

Lemma within_range_valid p : within_range p = true -> IsValid p = true.
Proof.
  unfold within_range. rewrite !andb_true_iff. intros [[[H1 H2] H3] H4].
  unfold IsValid.
  now rewrite (leb_ltb _ _ H1), (leb_ltb _ _ H2), (leb_ltb _ _ H3),
    (leb_ltb _ _ H4).
Qed.

Lemma within_range_finite p : within_range p = true -> finite_point p = true.
Proof.
  unfold within_range, finite_point. rewrite !andb_true_iff.
  intros [[[H1 H2] H3] H4]. split.
  - now apply (bracket_finite (-180) 180).
  - now apply (bracket_finite (-90) 90).
Qed.

(** What [IsValid] accepts is within the range, unless it is NaN. *)
Lemma valid_within_range p :
  IsValid p = true ->
  is_nan (Latitude p) = false -> is_nan (Longitude p) = false ->
  within_range p = true.
Proof.
  unfold IsValid, within_range. intros H Hlat Hlng.
  destruct (Latitude p <? -90)%float eqn:E1; [discriminate|].
  destruct (90 <? Latitude p)%float eqn:E2; [discriminate|].
  destruct (Longitude p <? -180)%float eqn:E3; [discriminate|].
  destruct (180 <? Longitude p)%float eqn:E4; [discriminate|].
  rewrite !andb_true_iff. repeat split; apply not_ltb_leb; auto.
Qed.

End validation.

(** ** The JSON forms *)
Section json_forms.

Import types.


Lemma MarshalJSON_finite p :
  finite_point p = true ->
  MarshalJSON p = inl (GeoJSON_form (Longitude p) (Latitude p)).
Proof.
  unfold finite_point. rewrite andb_true_iff. intros [Hx Hy].
  unfold MarshalJSON, Marshal_GeoJSONPoint, ToGeoJSON, GeoJSON_form.
  unfold Coordinates, json.encode_float64_slice.
  now rewrite (finite_encodes _ Hx), (finite_encodes _ Hy).
Qed.

Lemma UnmarshalJSON_GeoJSON_form p0 lng lat :
  is_finite lng = true -> is_finite lat = true ->
  UnmarshalJSON p0 (Some (GeoJSON_form lng lat)) =
  if IsValid {| Longitude := lng; Latitude := lat |}
  then ({| Longitude := lng; Latitude := lat |}, None)
  else (p0, Some out_of_range).
Proof.
  intros Hx Hy. unfold UnmarshalJSON, GeoJSON_form.
  lazy -[is_finite IsValid]. rewrite Hx, Hy. lazy -[is_finite IsValid].
  destruct (IsValid _); reflexivity.
Qed.

Lemma UnmarshalJSON_flat_form p0 lng lat :
  is_finite lng = true -> is_finite lat = true ->
  UnmarshalJSON p0 (Some (flat_form lng lat)) =
  if IsValid {| Longitude := lng; Latitude := lat |}
  then ({| Longitude := lng; Latitude := lat |}, None)
  else ({| Longitude := lng; Latitude := lat |}, Some out_of_range).
Proof.
  intros Hx Hy. unfold UnmarshalJSON, flat_form.
  lazy -[is_finite IsValid]. rewrite Hx, Hy. lazy -[is_finite IsValid].
  destruct (IsValid _); reflexivity.
Qed.

(** *** What a decode can store *)

Lemma store_float64_finite cur v :
  is_finite cur = true -> is_finite (fst (json.store_float64 cur v)) = true.
Proof.
  intros H. destruct v; simpl; auto.
  destruct (is_finite n) eqn:E; simpl; auto.
Qed.

Lemma store_elems_finite elems : forall cur,
  Forall (fun x => is_finite x = true) cur ->
  Forall (fun x => is_finite x = true) (fst (json.store_elems cur elems)).
Proof.
  induction elems as [|v rest IH]; intros cur Hcur; simpl.
  - constructor.
  - destruct (json.store_float64 (hd 0%float cur) v) as [x e1] eqn:E1.
    specialize (IH (tl cur)).
    destruct (json.store_elems (tl cur) rest) as [xs e2] eqn:E2. simpl.
    constructor.
    + change x with (fst (x, e1)). rewrite <- E1.
      apply store_float64_finite. destruct Hcur; simpl; auto.
    + apply IH. destruct Hcur; simpl; auto.
Qed.

Lemma store_members_invariant {S : Type} (field : string -> json.value -> S -> S * option error)
    (I : S -> Prop) :
  (forall k v s, I s -> I (fst (field k v s))) ->
  forall members s, I s -> I (fst (json.store_members field members s)).
Proof.
  intros Hfield. induction members as [|[k v] rest IH]; intros s Hs; simpl; auto.
  specialize (Hfield (json.foldName k) v s Hs).
  destruct (field (json.foldName k) v s) as [s1 e1].
  specialize (IH s1 Hfield).
  destruct (json.store_members field rest s1) as [s2 e2]. exact IH.
Qed.

Lemma Unmarshal_invariant {S : Type} (field : string -> json.value -> S -> S * option error)
    (I : S -> Prop) :
  (forall k v s, I s -> I (fst (field k v s))) ->
  forall data s, I s -> I (fst (json.Unmarshal field data s)).
Proof.
  intros Hfield data s0 Hs. destruct data as [[]|]; simpl; auto.
  now apply store_members_invariant.
Qed.


Lemma GeoJSONPoint_field_finite k v gj :
  finite_coordinates gj -> finite_coordinates (fst (GeoJSONPoint_field k v gj)).
Proof.
  intros H. unfold GeoJSONPoint_field.
  destruct (String.eqb k "type").
  - destruct (json.store_string (Type_ gj) v). exact H.
  - destruct (String.eqb k "coordinates"); [|exact H].
    destruct (json.store_float64_slice (Coordinates gj) v) as [cs e] eqn:E.
    unfold finite_coordinates. simpl.
    change cs with (fst (cs, e)). rewrite <- E.
    destruct v; simpl; auto. now apply store_elems_finite.
Qed.

Lemma alias_field_finite k v a :
  finite_alias a -> finite_alias (fst (alias_field k v a)).
Proof.
  intros [Hx Hy]. unfold alias_field.
  destruct (String.eqb k "longitude").
  - destruct (json.store_float64 (alias_Longitude a) v) as [x e] eqn:E.
    split; simpl; auto. change x with (fst (x, e)). rewrite <- E.
    now apply store_float64_finite.
  - destruct (String.eqb k "latitude"); [|now split].
    destruct (json.store_float64 (alias_Latitude a) v) as [x e] eqn:E.
    split; simpl; auto. change x with (fst (x, e)). rewrite <- E.
    now apply store_float64_finite.
Qed.

(** Every point that [UnmarshalJSON] returns passes [IsValid] and has
    finite coordinates. *)
Lemma UnmarshalJSON_valid p0 data q :
  UnmarshalJSON p0 data = (q, None) -> IsValid q = true.
Proof.
  unfold UnmarshalJSON, PointFromGeoJSON.
  destruct (json.Unmarshal GeoJSONPoint_field data _) as [gj e1].
  destruct (is_nil e1 && String.eqb (Type_ gj) "Point").
  - destruct (negb (String.eqb (Type_ gj) "Point")); [congruence|].
    destruct (Coordinates gj) as [|c0 [|c1 [|c2 cs]]]; try congruence.
    destruct (IsValid _) eqn:E; simpl; congruence.
  - destruct (json.Unmarshal alias_field data _) as [a [e2|]]; [congruence|].
    destruct (IsValid _) eqn:E; simpl; congruence.
Qed.

Lemma UnmarshalJSON_finite p0 data q :
  UnmarshalJSON p0 data = (q, None) -> finite_point q = true.
Proof.
  unfold UnmarshalJSON, PointFromGeoJSON.
  pose proof (Unmarshal_invariant GeoJSONPoint_field finite_coordinates
                GeoJSONPoint_field_finite data
                {| Type_ := ""; Coordinates := [] |}
                (List.Forall_nil _)) as Hgj.
  assert (finite_alias {| alias_Longitude := 0; alias_Latitude := 0 |}) as H0
    by (split; reflexivity).
  pose proof (Unmarshal_invariant alias_field finite_alias alias_field_finite
                data _ H0) as Ha.
  destruct (json.Unmarshal GeoJSONPoint_field data _) as [gj e1].
  destruct (is_nil e1 && String.eqb (Type_ gj) "Point").
  - destruct (negb (String.eqb (Type_ gj) "Point")); [congruence|].
    unfold finite_coordinates in Hgj. simpl in Hgj.
    destruct (Coordinates gj) as [|c0 [|c1 [|c2 cs]]]; try congruence.
    destruct (IsValid _); simpl; try congruence.
    intros [= <-]. unfold finite_point. simpl.
    inversion Hgj as [|? ? Hc0 Hrest]; subst.
    inversion Hrest as [|? ? Hc1 _]; subst.
    now rewrite Hc0, Hc1.
  - destruct (json.Unmarshal alias_field data _) as [a [e2|]]; [congruence|].
    destruct (IsValid _); simpl; try congruence.
    intros [= <-]. unfold finite_point. simpl.
    destruct Ha as [Hx Hy]. simpl in Hx, Hy. now rewrite Hx, Hy.
Qed.

End json_forms.

(** ** [Location.Validate] on decimals *)
Section location.


Lemma Cmp_NewFromInt d n :
  decimal.Cmp d (decimal.NewFromInt n) =
  if 0 <=? decimal.exp d
  then decimal.value d * 10 ^ decimal.exp d ?= n
  else decimal.value d ?= n * 10 ^ (- decimal.exp d).
Proof.
  destruct d as [v [|e|e]];
    unfold decimal.Cmp, decimal.RescalePair, decimal.rescale, decimal.NewFromInt;
    cbn [decimal.exp decimal.value].
  - change (0 =? 0) with true. change (0 <=? 0) with true.
    cbv iota. now rewrite Z.mul_1_r.
  - change (Z.pos e =? 0) with false. change (Z.pos e <? 0) with false.
    change (0 <? Z.pos e) with true. change (0 <=? Z.pos e) with true.
    cbv iota. cbn [decimal.value]. now rewrite Z.sub_0_l.
  - change (Z.neg e =? 0) with false. change (Z.neg e <? 0) with true.
    change (0 =? Z.neg e) with false. change (0 <? Z.neg e) with false.
    change (0 <=? Z.neg e) with false.
    cbv iota. cbn [decimal.value]. now rewrite Z.sub_0_r.
Qed.

Lemma not_LessThan d n :
  decimal.LessThan d (decimal.NewFromInt n) = false <-> decimal_ge d n.
Proof.
  unfold decimal.LessThan, decimal_ge. rewrite Cmp_NewFromInt.
  destruct (0 <=? decimal.exp d);
    match goal with |- context [?a ?= ?b] =>
      destruct (Z.compare_spec a b) end; split; intros; try lia;
    try reflexivity; try discriminate.
Qed.

Lemma not_GreaterThan d n :
  decimal.GreaterThan d (decimal.NewFromInt n) = false <-> decimal_le d n.
Proof.
  unfold decimal.GreaterThan, decimal_le. rewrite Cmp_NewFromInt.
  destruct (0 <=? decimal.exp d);
    match goal with |- context [?a ?= ?b] =>
      destruct (Z.compare_spec a b) end; split; intros; try lia;
    try reflexivity; try discriminate.
Qed.

(** [Validate] accepts exactly the locations with latitude in [-90, 90]
    and longitude in [-180, 180]. *)
Lemma Location_Validate_exact (l : place.Location) :
  place.Validate l = None <->
  (decimal_ge (place.Latitude l) (-90) /\ decimal_le (place.Latitude l) 90)
  /\ (decimal_ge (place.Longitude l) (-180)
      /\ decimal_le (place.Longitude l) 180).
Proof.
  rewrite <- !not_LessThan, <- !not_GreaterThan. unfold place.Validate.
  destruct (decimal.LessThan (place.Latitude l) _),
    (decimal.GreaterThan (place.Latitude l) _),
    (decimal.LessThan (place.Longitude l) _),
    (decimal.GreaterThan (place.Longitude l) _); simpl;
    intuition congruence.
Qed.

End location.

(** ** The members that a decode looks at *)
Section member_facts.

Import types.

Lemma members_named_cons name k v rest :
  members_named name ((k, v) :: rest)
  = if String.eqb (json.foldName k) name then v :: members_named name rest
    else members_named name rest.
Proof.
  unfold members_named. cbn [List.filter fst].
  now destruct (String.eqb (json.foldName k) name).
Qed.

Lemma store_elems_finite_numbers cs : forall cur,
  Forall (fun x => is_finite x = true) cs ->
  json.store_elems cur (map json.Number cs) = (cs, None).
Proof.
  induction cs as [|c cs IH]; intros cur Hf; simpl; [reflexivity|].
  inversion Hf as [|? ? Hc Hcs]; subst.
  rewrite Hc, (IH _ Hcs). reflexivity.
Qed.

(** One member named type, a string, and one member named coordinates, an
    array of numbers, fill the struct with that string and those numbers,
    wherever they stand among the members. *)
Lemma store_members_GeoJSON members : forall gj t cs,
  members_named "type" members = [json.Str t]
  \/ (members_named "type" members = [] /\ Type_ gj = t) ->
  (members_named "coordinates" members = [json.Array (map json.Number cs)]
   /\ Forall (fun x => is_finite x = true) cs)
  \/ (members_named "coordinates" members = [] /\ Coordinates gj = cs) ->
  json.store_members GeoJSONPoint_field members gj
  = ({| Type_ := t; Coordinates := cs |}, None).
Proof.
  induction members as [|[k v] rest IH]; intros gj t cs Ht Hc.
  - destruct Ht as [Ht|[_ <-]]; [discriminate|].
    destruct Hc as [[Hc _]|[_ <-]]; [discriminate|].
    now destruct gj.
  - rewrite !members_named_cons in Ht, Hc. cbn [json.store_members].
    unfold GeoJSONPoint_field at 1.
    destruct (String.eqb_spec (json.foldName k) "type") as [Ek|Ek].
    + rewrite Ek in Hc. change (String.eqb "type" "coordinates") with false in Hc.
      cbv iota in Hc.
      destruct Ht as [[= -> Hrest]|[[=] _]].
      cbn [json.store_string].
      rewrite (IH {| Type_ := t; Coordinates := Coordinates gj |} t cs);
        [reflexivity|right; now split|exact Hc].
    + destruct (String.eqb_spec (json.foldName k) "coordinates") as [Ec|Ec].
      * destruct Hc as [[[= -> Hrest] Hfin]|[[=] _]].
        cbn [json.store_float64_slice].
        rewrite (store_elems_finite_numbers cs _ Hfin).
        rewrite (IH {| Type_ := Type_ gj; Coordinates := cs |} t cs);
          [reflexivity|exact Ht|right; now split].
      * rewrite (IH gj t cs Ht Hc). reflexivity.
Qed.

(** The type that a decode leaves in the struct is the one it found there
    or the string of a member named type. *)
Lemma store_members_Type members : forall gj gj' e,
  json.store_members GeoJSONPoint_field members gj = (gj', e) ->
  Type_ gj' = Type_ gj
  \/ List.In (json.Str (Type_ gj')) (members_named "type" members).
Proof.
  induction members as [|[k v] rest IH]; intros gj gj' e.
  - intros [= <- _]. now left.
  - rewrite members_named_cons. cbn [json.store_members].
    unfold GeoJSONPoint_field at 1.
    destruct (String.eqb (json.foldName k) "type"); cbv iota.
    + destruct (json.store_string (Type_ gj) v) as [t e1] eqn:Es.
      destruct (json.store_members _ rest _) as [gj2 e2] eqn:Erest.
      intros [= <- _].
      destruct (IH _ _ _ Erest) as [E|Hin]; [|right; now right].
      cbn [Type_] in E.
      destruct v; cbn in Es; injection Es as <- <-; auto.
      right. left. now rewrite E.
    + destruct (String.eqb (json.foldName k) "coordinates").
      * destruct (json.store_float64_slice (Coordinates gj) v) as [cs e1].
        destruct (json.store_members _ rest _) as [gj2 e2] eqn:Erest.
        intros [= <- _]. exact (IH _ _ _ Erest).
      * destruct (json.store_members _ rest _) as [gj2 e2] eqn:Erest.
        intros [= <- _]. exact (IH _ _ _ Erest).
Qed.

(** At most one member named longitude and at most one named latitude,
    numbers both, fill the flat struct, wherever they stand. *)
Lemma store_members_flat members : forall a lng lat,
  (members_named "longitude" members = [json.Number lng]
   /\ is_finite lng = true)
  \/ (members_named "longitude" members = [] /\ alias_Longitude a = lng) ->
  (members_named "latitude" members = [json.Number lat]
   /\ is_finite lat = true)
  \/ (members_named "latitude" members = [] /\ alias_Latitude a = lat) ->
  json.store_members alias_field members a
  = ({| alias_Longitude := lng; alias_Latitude := lat |}, None).
Proof.
  induction members as [|[k v] rest IH]; intros a lng lat Hx Hy.
  - destruct Hx as [[Hx _]|[_ <-]]; [discriminate|].
    destruct Hy as [[Hy _]|[_ <-]]; [discriminate|].
    now destruct a.
  - rewrite !members_named_cons in Hx, Hy. cbn [json.store_members].
    unfold alias_field at 1.
    destruct (String.eqb_spec (json.foldName k) "longitude") as [Ek|Ek].
    + rewrite Ek in Hy. change (String.eqb "longitude" "latitude") with false in Hy.
      cbv iota in Hy.
      destruct Hx as [[[= -> Hrest] Hfin]|[[=] _]].
      cbn [json.store_float64]. rewrite Hfin.
      rewrite (IH {| alias_Longitude := lng; alias_Latitude := alias_Latitude a |}
                 lng lat); [reflexivity|right; now split|exact Hy].
    + destruct (String.eqb_spec (json.foldName k) "latitude") as [El|El].
      * destruct Hy as [[[= -> Hrest] Hfin]|[[=] _]].
        cbn [json.store_float64]. rewrite Hfin.
        rewrite (IH {| alias_Longitude := alias_Longitude a; alias_Latitude := lat |}
                   lng lat); [reflexivity|exact Hx|right; now split].
      * rewrite (IH a lng lat Hx Hy). reflexivity.
Qed.

End member_facts.

(** ** The claims about [Point] *)
Section point_claims.

Import types.

(** C1, as amended.  For every input, decoding tries the GeoJSON form first
    and uses it exactly when the decode of that form raises no error and
    yields the type "Point"; so it does for every object with one member
    named type, the string "Point", and one member named coordinates, an
    array of two numbers, in whatever order and with whatever other
    members, those of the flat form included.  On every other input it
    falls back to the flat form; so it does on every object in which no
    member named type is the string "Point", and there an absent latitude
    or longitude counts as 0.  It returns an error when the input is not
    JSON, when it is a JSON number, string, boolean or array, and when the
    coordinates fail the range check; every point it yields passes
    [IsValid]. *)
Theorem UnmarshalJSON_two_forms (p0 : Point) :
  (forall data,
     let '(gj, e) :=
       json.Unmarshal GeoJSONPoint_field data
         {| Type_ := ""; Coordinates := [] |} in
     UnmarshalJSON p0 data
     = if is_nil e && String.eqb (Type_ gj) "Point" then
         match PointFromGeoJSON gj with
         | inl q => (q, None)
         | inr err => (p0, Some err)
         end
       else
         let '(a, e') :=
           json.Unmarshal alias_field data
             {| alias_Longitude := 0; alias_Latitude := 0 |} in
         match e' with
         | Some err => (p0, Some err)
         | None =>
             let q := {| Longitude := alias_Longitude a;
                         Latitude := alias_Latitude a |} in
             if IsValid q then (q, None) else (q, Some out_of_range)
         end)
  /\ (forall members lng lat,
        members_named "type" members = [json.Str "Point"] ->
        members_named "coordinates" members
          = [json.Array [json.Number lng; json.Number lat]] ->
        is_finite lng = true -> is_finite lat = true ->
        UnmarshalJSON p0 (Some (json.Object members))
        = let p := {| Longitude := lng; Latitude := lat |} in
          if IsValid p then (p, None) else (p0, Some out_of_range))
  /\ (forall members lng lat,
        ~ List.In (json.Str "Point") (members_named "type" members) ->
        member_or_zero (members_named "longitude" members) lng ->
        member_or_zero (members_named "latitude" members) lat ->
        UnmarshalJSON p0 (Some (json.Object members))
        = let q := {| Longitude := lng; Latitude := lat |} in
          if IsValid q then (q, None) else (q, Some out_of_range))
  /\ UnmarshalJSON p0 None = (p0, Some SyntaxError)
  /\ (forall v,
        match v with json.Object _ | json.Null => False | _ => True end ->
        UnmarshalJSON p0 (Some v) = (p0, Some (UnmarshalTypeError (json.kind v))))
  /\ (forall data q, UnmarshalJSON p0 data = (q, None) -> IsValid q = true).
Proof.
  split; [|split; [|split; [|split; [|split]]]].
  - intros data. unfold UnmarshalJSON.
    destruct (json.Unmarshal GeoJSONPoint_field data _) as [gj e].
    destruct (is_nil e && String.eqb (Type_ gj) "Point");
      [destruct (PointFromGeoJSON gj); reflexivity|].
    destruct (json.Unmarshal alias_field data _) as [a [err|]];
      [reflexivity|].
    cbv zeta. destruct (IsValid _); reflexivity.
  - intros members lng lat Ht Hc Hx Hy. unfold UnmarshalJSON, json.Unmarshal.
    rewrite (store_members_GeoJSON members _ "Point" [lng; lat]);
      [|now left|left; split; [exact Hc|now repeat constructor]].
    change (is_nil None && String.eqb "Point" "Point") with true. cbv iota.
    unfold PointFromGeoJSON. cbn [Type_ Coordinates].
    change (negb (String.eqb "Point" "Point")) with false. cbv iota zeta.
    destruct (IsValid _); reflexivity.
  - intros members lng lat Ht Hx Hy. unfold UnmarshalJSON, json.Unmarshal.
    destruct (json.store_members GeoJSONPoint_field members _) as [gj e]
      eqn:Egj.
    pose proof (store_members_Type _ _ _ _ Egj) as Htype.
    cbn [Type_] in Htype.
    replace (is_nil e && String.eqb (Type_ gj) "Point") with false.
    + rewrite (store_members_flat members _ lng lat).
      * cbn [alias_Longitude alias_Latitude]. cbv zeta.
        destruct (IsValid _); reflexivity.
      * destruct Hx as [[-> ->]|[-> Hfin]]; [right|left]; now split.
      * destruct Hy as [[-> ->]|[-> Hfin]]; [right|left]; now split.
    + symmetry. apply andb_false_iff. right. apply String.eqb_neq.
      intros E. rewrite E in Htype. destruct Htype as [[=]|Hin]. now apply Ht.
  - reflexivity.
  - intros v Hv. destruct v; try contradiction; reflexivity.
  - intros data q. apply UnmarshalJSON_valid.
Qed.

Lemma UnmarshalJSON_two_forms_witness :
  UnmarshalJSON {| Longitude := 0; Latitude := 0 |}
    (Some (json.Object
             [("coordinates", json.Array [json.Number 1; json.Number 2]);
              ("latitude", json.Number 5);
              ("type", json.Str "Point")]))
  = ({| Longitude := 1; Latitude := 2 |}, None).
Proof.
  exact (proj1 (proj2 (UnmarshalJSON_two_forms
                         {| Longitude := 0; Latitude := 0 |}))
           [("coordinates", json.Array [json.Number 1; json.Number 2]);
            ("latitude", json.Number 5);
            ("type", json.Str "Point")] 1%float 2%float
           eq_refl eq_refl eq_refl eq_refl).
Defined.

(** C1 as stated fails: an object of neither form decodes to the point
    (0, 0) without an error. *)
Lemma UnmarshalJSON_accepts_other_objects :
  let v := json.Object [("name", json.Str "Nashik")] in
  of_either_form v = false
  /\ UnmarshalJSON {| Longitude := 5; Latitude := 5 |} (Some v)
     = ({| Longitude := 0; Latitude := 0 |}, None).
Proof. split; reflexivity. Qed.

(** C3: a point within the range encodes to the GeoJSON form, which
    decodes back to the same point; and whatever JSON text a point was
    decoded from, it encodes to the GeoJSON form. *)
Theorem MarshalJSON_round_trip (p : Point) :
  within_range p = true ->
  MarshalJSON p = inl (GeoJSON_form (Longitude p) (Latitude p))
  /\ (forall p0,
        UnmarshalJSON p0 (Some (GeoJSON_form (Longitude p) (Latitude p)))
        = (p, None))
  /\ (forall p0 data q,
        UnmarshalJSON p0 data = (q, None) ->
        MarshalJSON q = inl (GeoJSON_form (Longitude q) (Latitude q))).
Proof.
  intros Hr.
  pose proof (within_range_finite p Hr) as Hf.
  pose proof (within_range_valid p Hr) as Hv.
  split; [now apply MarshalJSON_finite|]. split.
  - intros p0. unfold finite_point in Hf. apply andb_true_iff in Hf as [Hx Hy].
    rewrite (UnmarshalJSON_GeoJSON_form p0 _ _ Hx Hy).
    destruct p as [x y]. simpl in *. now rewrite Hv.
  - intros p0 data q Hq. apply MarshalJSON_finite.
    now apply (UnmarshalJSON_finite p0 data).
Qed.

Lemma MarshalJSON_round_trip_witness :
  let p := {| Longitude := 73.5; Latitude := 19.75 |} in
  within_range p = true
  /\ MarshalJSON p = inl (GeoJSON_form 73.5 19.75)
  /\ UnmarshalJSON {| Longitude := 0; Latitude := 0 |}
       (Some (GeoJSON_form 73.5 19.75)) = (p, None).
Proof.
  split; [reflexivity|].
  pose proof (MarshalJSON_round_trip
                {| Longitude := 73.5; Latitude := 19.75 |} eq_refl) as H.
  split; [exact (proj1 H) | exact (proj1 (proj2 H) _)].
Defined.

(** C4: the code departs from the claim at NaN, which is in no range and
    yet passes [IsValid]; the WKT decoder hands such a point out. *)
Theorem IsValid_accepts_NaN :
  let p := {| Longitude := nan; Latitude := nan |} in
  within_range p = false
  /\ IsValid p = true
  /\ PointFromWKT "POINT(NaN NaN)" = Some (inl p).
Proof. vm_compute. auto. Qed.

(** C10, as amended: encoding checks no range.  [MarshalJSON] succeeds on
    every point with finite coordinates, whatever their size, and
    [ToGeoJSON] on every point; a point that [IsValid] rejects is turned
    down only when its encoding is decoded again. *)
Theorem encoding_checks_no_range (p : Point) :
  finite_point p = true ->
  MarshalJSON p = inl (GeoJSON_form (Longitude p) (Latitude p))
  /\ PointFromGeoJSON (ToGeoJSON p)
     = (if IsValid p then inl p else inr out_of_range)
  /\ (forall p0,
        UnmarshalJSON p0 (Some (GeoJSON_form (Longitude p) (Latitude p)))
        = (if IsValid p then (p, None) else (p0, Some out_of_range))).
Proof.
  intros Hf. split; [now apply MarshalJSON_finite|]. split.
  - destruct p as [x y]. unfold PointFromGeoJSON, ToGeoJSON. simpl.
    destruct (IsValid _); reflexivity.
  - intros p0. unfold finite_point in Hf. apply andb_true_iff in Hf as [Hx Hy].
    rewrite (UnmarshalJSON_GeoJSON_form p0 _ _ Hx Hy). now destruct p.
Qed.

Lemma encoding_checks_no_range_witness :
  let p := {| Longitude := 0; Latitude := 200 |} in
  finite_point p = true
  /\ MarshalJSON p = inl (GeoJSON_form 0 200)
  /\ PointFromGeoJSON (ToGeoJSON p) = inr out_of_range.
Proof.
  split; [reflexivity|].
  pose proof (encoding_checks_no_range
                {| Longitude := 0; Latitude := 200 |} eq_refl) as H.
  split; [exact (proj1 H) | exact (proj1 (proj2 H))].
Defined.

(** C10 as stated fails: [MarshalJSON] returns an error on an infinite
    coordinate, and a point just outside the range comes back from its WKT
    text as a valid one. *)
Lemma MarshalJSON_fails_on_infinity :
  MarshalJSON {| Longitude := 0; Latitude := infinity |}
    = inr UnsupportedValueError
  /\ (let p := {| Longitude := 0; Latitude := 0x1.68000004p+6 |} in
      IsValid p = false
      /\ PointFromWKT (ToWKT p)
         = Some (inl {| Longitude := 0; Latitude := 90 |})).
Proof. vm_compute. auto. Qed.

End point_claims.

(** ** The optimizer *)


Section optimizer_facts.

Import service.

Variable order : RangeOrder.
Variable matrix : DistanceMatrix.
Variable endTime : Z.
Variable visitDuration : Z.

Lemma keyed_index_places places : keyed (index_places places).
Proof.
  unfold index_places.
  assert (forall m, keyed m -> keyed (foldl (fun m p => <[ID p := p]> m) m places)) as H.
  { induction places as [|p rest IH]; intros m Hm; simpl; auto.
    apply IH. intros k q. rewrite lookup_insert.
    case_decide; [intros [= <-]; auto | apply Hm]. }
  apply H. intros k p. rewrite lookup_empty. discriminate.
Qed.

Lemma keyed_delete k m : keyed m -> keyed (delete k m).
Proof.
  intros Hm k' p. rewrite lookup_delete. case_decide; [discriminate | apply Hm].
Qed.

(** What [findNearest] returns is the initial pair or an entry with its
    distance. *)
Lemma findNearest_range_entry from entries : forall nearest minDist r d,
  findNearest_range from entries matrix nearest minDist = (r, d) ->
  (r = nearest /\ d = minDist)
  \/ exists k p, (k, p) ∈ entries /\ r = Some p
                 /\ d = GetDistance matrix from (Place_Location p).
Proof.
  induction entries as [|[k p] rest IH]; intros nearest minDist r d; simpl.
  - intros [= <- <-]. now left.
  - destruct (_ <? _)%float; intros H; apply IH in H as [[-> ->]|(k' & p' & Hin & -> & ->)].
    + right. exists k, p. split; [left|auto].
    + right. exists k', p'. split; [now right|auto].
    + now left.
    + right. exists k', p'. split; [now right|auto].
Qed.

Lemma findNearest_entry from entries p d :
  findNearest from entries matrix = (Some p, d) ->
  exists k, (k, p) ∈ entries /\ d = GetDistance matrix from (Place_Location p).
Proof.
  intros H. apply findNearest_range_entry in H as [[[=] _]|(k & p' & Hin & [= ->] & ->)].
  now exists k.
Qed.

Hypothesis order_legal : legal order.

(** The loop never runs out of fuel that is at least the size of the map. *)
Lemma greedy_finishes fuel : forall n st,
  keyed (unvisited st) -> (size (unvisited st) <= fuel)%nat ->
  greedy order matrix endTime visitDuration fuel n st <> Unfinished.
Proof.
  induction fuel as [|fuel IH]; intros n st Hk Hsize; simpl.
  - destruct (Nat.eqb_spec (size (unvisited st)) 0) as [E|E]; [discriminate|lia].
  - destruct (Nat.eqb_spec (size (unvisited st)) 0) as [E|E]; [discriminate|].
    destruct (findNearest _ _ _) as [[p|] d] eqn:Hn; [|discriminate].
    destruct (time.After _ _); [discriminate|].
    apply IH; simpl.
    + now apply keyed_delete.
    + apply findNearest_entry in Hn as (k & Hin & _).
      rewrite (order_legal n (unvisited st)) in Hin.
      apply elem_of_map_to_list in Hin.
      rewrite (Hk _ _ Hin).
      rewrite map_size_delete_Some by (rewrite Hin; eauto). lia.
Qed.

End optimizer_facts.


Section timeline_facts.

Import service.

Lemma Minutes_of_fits n : fits n -> time.Minutes_of n = n * time.Minute.
Proof.
  unfold fits, time.Minutes_of, time.wrap64. intros H.
  rewrite Z.mod_small; lia.
Qed.




Variable order : RangeOrder.
Variable matrix : DistanceMatrix.
Variables startTime endTime visitDuration : Z.

Hypothesis dwell_fits : fits visitDuration.
Hypothesis travel_fits : forall a b, fits (GetTime matrix a b).
Hypothesis dwell_nonneg : 0 <= visitDuration.
Hypothesis travel_nonneg : forall a b, 0 <= GetTime matrix a b.
Hypothesis window : 0 <= endTime - startTime < 2 ^ 63.


(** A failure of the loop is always the same bare error. *)
Lemma greedy_failed fuel : forall n st err,
  greedy order matrix endTime visitDuration fuel n st = Failed err ->
  err = infeasible.
Proof.
  induction fuel as [|fuel IH]; intros n st err; simpl.
  - destruct (size (unvisited st) =? 0)%nat; discriminate.
  - destruct (size (unvisited st) =? 0)%nat; [discriminate|].
    destruct (findNearest _ _ _) as [[p|] d]; [|discriminate].
    destruct (time.After _ _); [now intros [= <-]|apply IH].
Qed.

End timeline_facts.

(** *** The choice of the nearest place *)
Section nearest.

Import service.

Variable matrix : DistanceMatrix.
Variable from : Location.


Lemma ltb_irrefl x : (x <? x)%float = false.
Proof.
  destruct (x <? x)%float eqn:E; [|reflexivity].
  now rewrite (ltb_asym _ _ E) in E.
Qed.

Lemma findNearest_range_swap x y rest nearest minDist :
  x.2 = y.2 \/ apart matrix from x.2 y.2 ->
  findNearest_range from (x :: y :: rest) matrix nearest minDist
  = findNearest_range from (y :: x :: rest) matrix nearest minDist.
Proof.
  destruct x as [kx p], y as [ky q]. simpl.
  fold (distance_to matrix from p) (distance_to matrix from q).
  intros [->|H]; [reflexivity|].
  destruct (distance_to matrix from p <? minDist)%float eqn:Ep,
    (distance_to matrix from q <? minDist)%float eqn:Eq,
    (distance_to matrix from p <? distance_to matrix from q)%float eqn:Epq,
    (distance_to matrix from q <? distance_to matrix from p)%float eqn:Eqp;
    try reflexivity; exfalso.
  all: try (rewrite (ltb_asym _ _ Epq) in Eqp; discriminate).
  all: try (rewrite (ltb_trans _ _ _ Epq Eq) in Ep; discriminate).
  all: try (rewrite (ltb_trans _ _ _ Eqp Ep) in Eq; discriminate).
  all: destruct H; congruence.
Qed.

(** With no two entries at the same distance, the order of the entries
    does not matter. *)
Lemma findNearest_range_perm l1 l2 :
  l1 ≡ₚ l2 ->
  (forall x y, x ∈ l1 -> y ∈ l1 -> x.2 = y.2 \/ apart matrix from x.2 y.2) ->
  forall nearest minDist,
    findNearest_range from l1 matrix nearest minDist
    = findNearest_range from l2 matrix nearest minDist.
Proof.
  induction 1 as [|x l l' Hp IH|x y l|l l' l'' Hp1 IH1 Hp2 IH2];
    intros Hapart nearest minDist.
  - reflexivity.
  - destruct x as [k p]. simpl.
    destruct (_ <? _)%float; apply IH; intros; apply Hapart; now right.
  - apply findNearest_range_swap.
    apply Hapart; [left | right; left].
  - rewrite IH1 by assumption. apply IH2.
    intros a b Ha Hb. apply Hapart; now rewrite Hp1.
Qed.

(** A place strictly nearer than all the others is the one found. *)
Lemma findNearest_range_kept p rest :
  (forall e, e ∈ rest ->
     e.2 = p \/ (distance_to matrix from p <? distance_to matrix from e.2)%float = true) ->
  findNearest_range from rest matrix (Some p) (distance_to matrix from p)
  = (Some p, distance_to matrix from p).
Proof.
  induction rest as [|[k q] rest IH]; intros H; simpl; [reflexivity|].
  fold (distance_to matrix from q).
  destruct (H (k, q)) as [E|E]; [left| |]; simpl in E.
  - subst q. rewrite ltb_irrefl. apply IH. intros; apply H; now right.
  - rewrite (ltb_asym _ _ E). apply IH. intros; apply H; now right.
Qed.

Lemma findNearest_range_least p entries : forall nearest minDist,
  (exists k, (k, p) ∈ entries) ->
  (distance_to matrix from p <? minDist)%float = true ->
  (forall e, e ∈ entries ->
     e.2 = p \/ (distance_to matrix from p <? distance_to matrix from e.2)%float = true) ->
  findNearest_range from entries matrix nearest minDist
  = (Some p, distance_to matrix from p).
Proof.
  induction entries as [|[k q] rest IH]; intros nearest minDist [kp Hin] Hmin H.
  - inversion Hin.
  - simpl. fold (distance_to matrix from q).
    assert (forall e, e ∈ rest ->
              e.2 = p \/ (distance_to matrix from p <? distance_to matrix from e.2)%float = true) as Hrest
      by (intros; apply H; now right).
    destruct (H (k, q)) as [E|E]; [left| |]; simpl in E.
    + subst q. rewrite Hmin. now apply findNearest_range_kept.
    + assert (exists k', (k', p) ∈ rest) as Hin'.
      { apply elem_of_cons in Hin as [[= -> ->]|Hin]; [|now exists kp].
        now rewrite ltb_irrefl in E. }
      destruct (distance_to matrix from q <? minDist)%float; now apply IH.
Qed.

End nearest.


Section determinism.

Import service.

Variable matrix : DistanceMatrix.
Variables endTime visitDuration : Z.
Variable startLoc : Location.
Variable m0 : gmap string Place.
Variables o1 o2 : RangeOrder.

Hypothesis legal1 : legal o1.
Hypothesis legal2 : legal o2.
Hypothesis distinct : no_ties matrix startLoc m0.

Lemma findNearest_order_irrelevant n (m : gmap string Place) from :
  m ⊆ m0 -> reachable startLoc m0 from ->
  findNearest from (o1 n m) matrix = findNearest from (o2 n m) matrix.
Proof.
  intros Hsub Hfrom. unfold findNearest. apply findNearest_range_perm.
  - now rewrite (legal1 n m), (legal2 n m).
  - intros [k1 p1] [k2 p2]. rewrite !(legal1 n m), !elem_of_map_to_list.
    intros H1 H2. simpl.
    destruct (decide (k1 = k2)) as [->|Hne]; [left; congruence|right].
    apply (distinct from k1 p1 k2 p2); auto;
      eapply lookup_weaken; eauto.
Qed.

Lemma greedy_order_irrelevant fuel : forall n st,
  unvisited st ⊆ m0 -> reachable startLoc m0 (currentLoc st) ->
  greedy o1 matrix endTime visitDuration fuel n st
  = greedy o2 matrix endTime visitDuration fuel n st.
Proof.
  induction fuel as [|fuel IH]; intros n st Hsub Hfrom; simpl; [reflexivity|].
  destruct (size (unvisited st) =? 0)%nat; [reflexivity|].
  rewrite <- (findNearest_order_irrelevant n (unvisited st) (currentLoc st))
    by assumption.
  destruct (findNearest _ _ _) as [[p|] d] eqn:Hn; [|reflexivity].
  destruct (time.After _ _); [reflexivity|].
  apply IH; simpl.
  - etrans; [apply delete_subseteq | assumption].
  - right. apply findNearest_entry in Hn as (k & Hin & _).
    rewrite (legal1 n (unvisited st)), elem_of_map_to_list in Hin.
    exists k, p. split; [|reflexivity]. eapply lookup_weaken; eauto.
Qed.

End determinism.

(** *** One pass of the loop *)
Section passes.

Import service.

Variable order : RangeOrder.
Variable matrix : DistanceMatrix.
Variable endTime : Z.
Variable visitDuration : Z.


Hypothesis order_legal : legal order.

(** The loop visits the remaining place that is strictly nearest, when
    there is one below [MaxFloat64]; it stops with the bare error when that
    visit would end after the window. *)
Lemma greedy_visits_nearest fuel n st p :
  unvisited st !! ID p = Some p ->
  (distance_to matrix (currentLoc st) p <? MaxFloat64)%float = true ->
  (forall k q, unvisited st !! k = Some q ->
     q = p \/ (distance_to matrix (currentLoc st) p
               <? distance_to matrix (currentLoc st) q)%float = true) ->
  greedy order matrix endTime visitDuration (Datatypes.S fuel) n st
  = if time.After (departure_after matrix visitDuration st p) endTime then Failed infeasible
    else greedy order matrix endTime visitDuration fuel (Datatypes.S n)
           (visit_next matrix visitDuration st p).
Proof.
  intros Hp Hmax Hleast. simpl.
  destruct (Nat.eqb_spec (size (unvisited st)) 0) as [E|_].
  { apply map_size_empty_inv in E. rewrite E, lookup_empty in Hp. discriminate. }
  unfold findNearest.
  rewrite (findNearest_range_least matrix (currentLoc st) p).
  - reflexivity.
  - exists (ID p). now rewrite (order_legal n (unvisited st)), elem_of_map_to_list.
  - exact Hmax.
  - intros [k q]. rewrite (order_legal n (unvisited st)), elem_of_map_to_list.
    apply Hleast.
Qed.

Lemma greedy_done fuel n st :
  unvisited st = ∅ ->
  greedy order matrix endTime visitDuration fuel n st
  = Returned
      {| Visits := visits st;
         TotalDistanceKm := totalDistance st;
         TotalTravelTime := totalTravelTime st;
         CompletionTime := currentTime st;
         TimeBufferMinutes :=
           time.whole_minutes (time.Sub endTime (currentTime st));
         Feasible := true |}.
Proof.
  intros E. destruct fuel; simpl; now rewrite E, map_size_empty.
Qed.

End passes.


Section optimizer_claims.

Import service instances.

Lemma range_forward_legal : legal range_forward.
Proof. intros n m. reflexivity. Qed.

Lemma range_backward_legal : legal range_backward.
Proof. intros n m. apply reverse_Permutation. Qed.


Ltac entries H :=
  apply elem_of_map_to_list in H; vm_compute in H;
  repeat (apply elem_of_cons in H as [H|H]);
  [ injection H as -> -> .. | apply elem_of_nil in H; destruct H ].

(** C8: from (0,0) with A(0,1), B(0,5), C(0,2), under any matrix that
    orders the places as their straight-line distances do and any order of
    the map, the visits are A, C, B. *)
Theorem nearest_neighbour_order (order : RangeOrder) (matrix : DistanceMatrix)
    (startTime endTime visitDuration : Z) :
  legal order ->
  nearer matrix start A C -> nearer matrix start A B ->
  nearer matrix (Place_Location A) C B ->
  measured matrix start A -> measured matrix (Place_Location A) C ->
  measured matrix (Place_Location C) B ->
  let t1 := GetTime matrix start (Place_Location A) in
  let t2 := GetTime matrix (Place_Location A) (Place_Location C) in
  let t3 := GetTime matrix (Place_Location C) (Place_Location B) in
  fits t1 -> fits t2 -> fits t3 -> fits visitDuration ->
  0 <= t1 -> 0 <= t2 -> 0 <= t3 -> 0 <= visitDuration ->
  startTime + (t1 + t2 + t3 + 3 * visitDuration) * time.Minute <= endTime ->
  exists route,
    optimizeRoute order (inl matrix) start [A; B; C] startTime endTime
      visitDuration = Returned route
    /\ map Place_ (Visits route) = [A; C; B].
Proof.
  intros Hlegal HAC HAB HCB HmA HmC HmB t1 t2 t3 F1 F2 F3 Fd N1 N2 N3 Nd Hwin.
  assert (0 < time.Minute) as HM by reflexivity.
  unfold optimizeRoute.
  change (size (index_places [A; B; C])) with 3%nat.
  rewrite (greedy_visits_nearest order matrix endTime visitDuration Hlegal _ _ _ A);
    [ | reflexivity | exact HmA | ].
  2:{ intros k q H. entries H;
      first [now left | right; exact HAB | right; exact HAC]. }
  replace (time.After _ endTime) with false.
  2:{ symmetry. apply Z.ltb_ge. unfold departure_after, visit_next, time.Add.
      cbn [currentTime currentLoc]. fold t1.
      rewrite !Minutes_of_fits by assumption. lia. }
  rewrite (greedy_visits_nearest order matrix endTime visitDuration Hlegal _ _ _ C);
    [ | reflexivity | exact HmC | ].
  2:{ intros k q H. entries H; first [now left | right; exact HCB]. }
  replace (time.After _ endTime) with false.
  2:{ symmetry. apply Z.ltb_ge. unfold departure_after, visit_next, time.Add.
      cbn [currentTime currentLoc]. fold t1 t2.
      rewrite !Minutes_of_fits by assumption. lia. }
  rewrite (greedy_visits_nearest order matrix endTime visitDuration Hlegal _ _ _ B);
    [ | reflexivity | exact HmB | ].
  2:{ intros k q H. entries H. now left. }
  replace (time.After _ endTime) with false.
  2:{ symmetry. apply Z.ltb_ge. unfold departure_after, visit_next, time.Add.
      cbn [currentTime currentLoc]. fold t1 t2 t3.
      rewrite !Minutes_of_fits by assumption. lia. }
  rewrite greedy_done by reflexivity.
  eexists. split; reflexivity.
Qed.

Ltac evaluated :=
  vm_compute; repeat split; first [reflexivity | discriminate].

Lemma nearest_neighbour_order_witness :
  exists route,
    optimizeRoute range_backward (inl (plane 20)) start [A; B; C]
      (clock 9 0) (clock 18 0) 30 = Returned route
    /\ map Place_ (Visits route) = [A; C; B].
Proof.
  apply (nearest_neighbour_order range_backward (plane 20)
           (clock 9 0) (clock 18 0) 30 range_backward_legal);
    evaluated.
Defined.

(** The pass that would end after the window stops the run, whatever
    visits were scheduled before it. *)
Lemma greedy_aborts order matrix endTime visitDuration fuel n st p d :
  unvisited st <> ∅ ->
  findNearest (currentLoc st) (order n (unvisited st)) matrix = (Some p, d) ->
  time.After (departure_after matrix visitDuration st p) endTime = true ->
  greedy order matrix endTime visitDuration (Datatypes.S fuel) n st
  = Failed infeasible.
Proof.
  intros Hne Hn Hafter. simpl.
  destruct (Nat.eqb_spec (size (unvisited st)) 0) as [E|_].
  { now apply map_size_empty_inv in E. }
  rewrite Hn. unfold departure_after, visit_next in Hafter. simpl in Hafter.
  now rewrite Hafter.
Qed.

(** C5: the error of an infeasible run.  Whenever [optimizeRoute] fails
    after the matrix was fetched, the error is the one fixed message: it
    carries neither the required nor the available minutes. *)
Theorem infeasible_error_is_bare (order : RangeOrder)
    (matrix : DistanceMatrix) (startLoc : Location) (places : list Place)
    (startTime endTime visitDuration : Z) (err : error) :
  optimizeRoute order (inl matrix) startLoc places startTime endTime
    visitDuration = Failed err ->
  err = Errorf "cannot fit all places: time window exceeded".
Proof. unfold optimizeRoute. apply greedy_failed. Qed.

Lemma infeasible_error_is_bare_witness :
  optimizeRoute range_forward (inl (plane 30)) start [A; C]
    (clock 10 0) (clock 12 0) 60
  = Failed (Errorf "cannot fit all places: time window exceeded").
Proof.
  assert (optimizeRoute range_forward (inl (plane 30)) start [A; C]
            (clock 10 0) (clock 12 0) 60 = Failed infeasible) as H
    by (vm_compute; reflexivity).
  rewrite H. apply f_equal.
  exact (infeasible_error_is_bare _ _ _ _ _ _ _ _ H).
Defined.

(** C6 as stated fails: two places at the same distance are visited in the
    order in which the map yields them, either one first. *)
Lemma tie_follows_range_order :
  legal range_forward /\ legal range_backward
  /\ visited (optimizeRoute range_forward (inl (plane 20)) start [East; West]
                (clock 9 0) (clock 18 0) 30) = ["W"; "E"]
  /\ visited (optimizeRoute range_backward (inl (plane 20)) start [East; West]
                (clock 9 0) (clock 18 0) 30) = ["E"; "W"].
Proof.
  split; [exact range_forward_legal|]. split; [exact range_backward_legal|].
  split; vm_compute; reflexivity.
Qed.

(** C6, as amended: when no two places are at the same distance from the
    start or from a place, the outcome (the visits, their order and their
    times, or the failure) is the same under every order of the map. *)
Theorem optimizeRoute_deterministic (o1 o2 : RangeOrder)
    (matrix : DistanceMatrix) (startLoc : Location) (places : list Place)
    (startTime endTime visitDuration : Z) :
  legal o1 -> legal o2 ->
  no_ties matrix startLoc (index_places places) ->
  optimizeRoute o1 (inl matrix) startLoc places startTime endTime visitDuration
  = optimizeRoute o2 (inl matrix) startLoc places startTime endTime
      visitDuration.
Proof.
  intros H1 H2 Hties. unfold optimizeRoute.
  apply (greedy_order_irrelevant matrix endTime visitDuration startLoc
           (index_places places) o1 o2 H1 H2 Hties).
  - reflexivity.
  - now left.
Qed.

Lemma plane_no_ties : no_ties (plane 20) start (index_places [A; B; C]).
Proof.
  intros from k1 p1 k2 p2 Hfrom H1 H2 Hne.
  assert (from = start \/ from = Place_Location A \/ from = Place_Location B
          \/ from = Place_Location C) as Hcases.
  { destruct Hfrom as [->|(k & p & Hp & ->)]; [now left|right].
    entries Hp; auto. }
  entries H1; entries H2; try congruence;
    destruct Hcases as [->|[->|[->| ->]]]; unfold apart;
    vm_compute; auto.
Qed.

Lemma optimizeRoute_deterministic_witness :
  optimizeRoute range_forward (inl (plane 20)) start [A; B; C]
    (clock 9 0) (clock 18 0) 30
  = optimizeRoute range_backward (inl (plane 20)) start [A; B; C]
      (clock 9 0) (clock 18 0) 30.
Proof.
  exact (optimizeRoute_deterministic range_forward range_backward (plane 20)
           start [A; B; C] (clock 9 0) (clock 18 0) 30
           range_forward_legal range_backward_legal plane_no_ties).
Defined.




End optimizer_claims.

(** ** The haversine distance *)
Section distance_claims.

Import types.




End distance_claims.

(** ** Reading back what [%f] wrote *)
Section printed.

Import fmt.

Lemma digit_cases d : 0 <= d < 10 ->
  d = 0 \/ d = 1 \/ d = 2 \/ d = 3 \/ d = 4 \/ d = 5 \/ d = 6 \/ d = 7
  \/ d = 8 \/ d = 9.
Proof. lia. Qed.

Ltac each_digit d H :=
  destruct (digit_cases d H) as [->|[->|[->|[->|[->|[->|[->|[->|[->| ->]]]]]]]]].

Lemma run_digit d rest acc len : 0 <= d < 10 ->
  run (String (digit d) rest) acc len
  = run rest (10 * acc + d) (Datatypes.S len).
Proof. intros H. each_digit d H; reflexivity. Qed.

Lemma run_fixed count : forall n tail acc len,
  0 <= n < 10 ^ Z.of_nat count ->
  run (fixed_onto count n tail) acc len
  = run tail (acc * 10 ^ Z.of_nat count + n) (len + count).
Proof.
  induction count as [|count IH]; intros n tail acc len Hn.
  - simpl in *. f_equal; [lia | lia].
  - rewrite Nat2Z.inj_succ, Z.pow_succ_r in * by lia.
    cbn [fixed_onto]. rewrite IH by (split; [apply Z.div_pos; lia|apply Z.div_lt_upper_bound; lia]).
    rewrite run_digit by (apply Z.mod_pos_bound; lia).
    f_equal; [|lia].
    pose proof (Z.div_mod n 10). nia.
Qed.

Lemma run_digits fuel : forall n tail acc len,
  0 <= n < 2 ^ (Z.of_nat fuel + 1) ->
  exists k,
    run (digits_onto fuel n tail) acc len
    = run tail (acc * 10 ^ Z.of_nat k + n) (len + k).
Proof.
  induction fuel as [|fuel IH]; intros n tail acc len Hn.
  - exists 1%nat. cbn [digits_onto]. change (2 ^ (Z.of_nat 0 + 1)) with 2 in Hn.
    rewrite Z.mod_small by lia. rewrite run_digit by lia.
    f_equal; [f_equal; lia | lia].
  - cbn [digits_onto]. destruct (Z.ltb_spec n 10) as [Hlt|Hge].
    + exists 1%nat. rewrite Z.mod_small by lia. rewrite run_digit by lia.
      f_equal; [f_equal; lia | lia].
    + destruct (IH (n / 10) (String (digit (n mod 10)) tail) acc len) as [k Hk].
      { split; [apply Z.div_pos; lia|].
        apply Z.div_lt_upper_bound; [lia|].
        replace (Z.of_nat (Datatypes.S fuel) + 1) with (Z.of_nat fuel + 1 + 1) in Hn by lia.
        rewrite (Z.pow_add_r 2 (Z.of_nat fuel + 1) 1) in Hn by lia.
        change (2 ^ 1) with 2 in Hn. lia. }
      exists (Datatypes.S k). rewrite Hk.
      rewrite run_digit by (apply Z.mod_pos_bound; lia).
      rewrite Nat2Z.inj_succ, Z.pow_succ_r by lia.
      f_equal; [|lia]. pose proof (Z.div_mod n 10). nia.
Qed.


Lemma digits_onto_head fuel : forall n tail,
  0 <= n < 2 ^ (Z.of_nat fuel + 1) ->
  exists c rest,
    digits_onto fuel n tail = String (digit c) rest
    /\ 0 <= c < 10 /\ (c = 0 -> n = 0 /\ rest = tail).
Proof.
  induction fuel as [|fuel IH]; intros n tail Hn.
  - change (2 ^ (Z.of_nat 0 + 1)) with 2 in Hn.
    exists n, tail. cbn [digits_onto]. rewrite Z.mod_small by lia.
    repeat split; auto; lia.
  - cbn [digits_onto]. destruct (Z.ltb_spec n 10) as [Hlt|Hge].
    + exists n, tail. rewrite Z.mod_small by lia. repeat split; auto; lia.
    + destruct (IH (n / 10) (String (digit (n mod 10)) tail))
        as (c & rest & Hd & Hc & Hz).
      { split; [apply Z.div_pos; lia|].
        apply Z.div_lt_upper_bound; [lia|].
        replace (Z.of_nat (Datatypes.S fuel) + 1) with (Z.of_nat fuel + 1 + 1) in Hn by lia.
        rewrite (Z.pow_add_r 2 (Z.of_nat fuel + 1) 1) in Hn by lia.
        change (2 ^ 1) with 2 in Hn. lia. }
      exists c, rest. split; [exact Hd|]. split; [exact Hc|].
      intros Hc0. destruct (Hz Hc0) as [Hq _]. exfalso.
      assert (1 <= n / 10) by (apply Z.div_le_lower_bound; lia). lia.
Qed.


Lemma log2_fuel n : 0 <= n -> 0 <= n < 2 ^ (Z.of_nat (Z.to_nat (Z.log2 n)) + 1).
Proof.
  intros Hn. split; [exact Hn|].
  rewrite Z2Nat.id by apply Z.log2_nonneg.
  destruct (Z.eq_dec n 0) as [->|Hne]; [reflexivity|].
  replace (Z.log2 n + 1) with (Z.succ (Z.log2 n)) by lia.
  apply Z.log2_spec. lia.
Qed.


Lemma run_length r : forall a l, (l <= snd (fst (run r a l)))%nat.
Proof.
  induction r as [|c r IH]; intros a l; cbn [run]; [simpl; lia|].
  destruct (is_digit c); [|simpl; lia].
  specialize (IH (10 * a + Z.of_nat (code c - 48)) (Datatypes.S l)). lia.
Qed.

Lemma scan_decimal_printed neg s0 ip k frac n tail :
  run s0 0 0 = (ip, k, String "." frac) -> k <> 0%nat ->
  run frac ip 0 = (n, 6%nat, tail) -> closes tail ->
  scan_decimal neg s0
  = match ParseFloat neg n (-6) with
    | Some x => Tok x tail
    | None => TokError
    end.
Proof.
  intros Hint Hk Hfrac Htail. unfold scan_decimal. rewrite Hint.
  cbn [starts_with drop1].
  change (Ascii.eqb "_" ".") with false. change (Ascii.eqb "." ".") with true.
  cbv iota. rewrite Hfrac.
  destruct (Nat.eqb_spec (k + 6) 0) as [E|_]; [lia|].
  destruct Htail as [->|[t ->]]; reflexivity.
Qed.

Lemma digit_plain c : 0 <= c < 10 ->
  is_char "n" "N" (digit c) = false /\ is_char "+" "-" (digit c) = false
  /\ is_char "i" "I" (digit c) = false /\ Ascii.eqb "-" (digit c) = false
  /\ (c <> 0 -> Ascii.eqb "0" (digit c) = false).
Proof.
  intros H. each_digit c H; repeat split; try reflexivity; intros E; congruence.
Qed.

Lemma scan_millionths s n tail :
  0 <= n -> closes tail ->
  scan_float (millionths_onto s n tail)
  = match ParseFloat s n (-6) with
    | Some x => Tok x tail
    | None => TokError
    end.
Proof.
  intros Hn Htail. unfold millionths_onto.
  set (ip := n / 10 ^ 6). set (fp := n mod 10 ^ 6).
  assert (0 <= ip) as Hip by (apply Z.div_pos; lia).
  assert (0 <= fp < 10 ^ 6) as Hfp by (apply Z.mod_pos_bound; lia).
  assert (n = ip * 10 ^ 6 + fp) as Hsplit
    by (unfold ip, fp; pose proof (Z.div_mod n (10 ^ 6)); lia).
  set (fuel := Z.to_nat (Z.log2 ip)).
  pose proof (log2_fuel ip Hip) as Hfuel. fold fuel in Hfuel.
  set (frac := fixed_onto 6 fp tail).
  destruct (digits_onto_head fuel ip (String "." frac) Hfuel)
    as (c & rest & Hd & Hc & Hz).
  destruct (run_digits fuel ip (String "." frac) 0 0%nat Hfuel) as [k Hk].
  assert (run frac ip 0 = (n, 6%nat, tail)) as Hfrac.
  { unfold frac. rewrite run_fixed by exact Hfp. rewrite Hsplit.
    destruct Htail as [->|[t ->]]; reflexivity. }
  assert (run (String (digit c) rest) 0 0 = (ip, k, String "." frac)) as Hint.
  { rewrite <- Hd, Hk. cbn [run is_digit code].
    replace (0 * 10 ^ Z.of_nat k + ip) with ip by lia. reflexivity. }
  assert (k <> 0%nat) as Hk0.
  { intros ->. rewrite run_digit in Hint by exact Hc.
    pose proof (run_length rest (10 * 0 + c) 1%nat) as Hlen.
    rewrite Hint in Hlen. simpl in Hlen. lia. }
  rewrite Hd. clear Hd Hk.
  destruct (digit_plain c Hc) as (Hn1 & Hn2 & Hn3 & Hn4 & Hn5).
  assert (hex_prefix (String (digit c) rest) = false) as Hhex.
  { unfold hex_prefix. cbn [starts_with drop1].
    destruct (Z.eq_dec c 0) as [E|E].
    - destruct (Hz E) as [_ ->]. subst c. reflexivity.
    - now rewrite (Hn5 E). }
  unfold scan_float.
  destruct s; cbn [sign_onto starts_with drop1].
  - change (is_char "n" "N" "-") with false.
    change (is_char "+" "-" "-") with true.
    change (Ascii.eqb "-" "-") with true. cbv iota.
    cbn [starts_with]. rewrite Hn3, Hhex.
    now apply (scan_decimal_printed _ _ ip k frac).
  - rewrite Hn1, Hn2, Hn4. cbn [starts_with]. rewrite Hn3, Hhex.
    now apply (scan_decimal_printed _ _ ip k frac).
Qed.

Lemma micro_nonneg m e : 0 <= micro m e.
Proof.
  unfold micro, round_half_even.
  destruct (0 <=? e) eqn:E.
  - apply Z.leb_le in E. apply Z.mul_nonneg_nonneg; [|lia].
    apply Z.mul_nonneg_nonneg; [lia|]. apply Z.pow_nonneg. lia.
  - assert (0 < 2 ^ (- e)) as Hd by (apply Z.pow_pos_nonneg; lia).
    assert (0 <= Z.pos m * 10 ^ 6 / 2 ^ (- e)) as Hq
      by (apply Z.div_pos; [lia | exact Hd]).
    destruct (_ ?= _); [destruct (Z.even _)| |]; lia.
Qed.


Lemma scan_printed x tail :
  closes tail ->
  scan_float (Sprintf_f_onto x tail)
  = match six_decimals x with
    | Some y => Tok y tail
    | None => TokError
    end.
Proof.
  intros Htail. unfold Sprintf_f_onto, six_decimals.
  destruct (Prim2SF x) as [s|s| |s m e].
  - now apply scan_millionths.
  - destruct s; reflexivity.
  - reflexivity.
  - apply scan_millionths; [apply micro_nonneg | exact Htail].
Qed.

(** Nothing that [%f] writes begins with white space. *)
Lemma operand_millionths s n tail :
  0 <= n ->
  operand (millionths_onto s n tail) = scan_float (millionths_onto s n tail).
Proof.
  intros Hn. unfold millionths_onto.
  destruct s; cbn [sign_onto]; [reflexivity|].
  assert (0 <= n / 10 ^ 6) as Hip by (apply Z.div_pos; lia).
  destruct (digits_onto_head _ _
              (String "." (fixed_onto 6 (n mod 10 ^ 6) tail))
              (log2_fuel _ Hip)) as (c & rest & -> & Hc & _).
  each_digit c Hc; reflexivity.
Qed.

Lemma operand_printed x tail :
  operand (Sprintf_f_onto x tail) = scan_float (Sprintf_f_onto x tail).
Proof.
  unfold Sprintf_f_onto. destruct (Prim2SF x) as [s|s| |s m e].
  - now apply operand_millionths.
  - destruct s; reflexivity.
  - reflexivity.
  - apply operand_millionths, micro_nonneg.
Qed.

Lemma literal_POINT s : literal "POINT(" ("POINT(" +:+ s) = Some s.
Proof. reflexivity. Qed.

Lemma blank_space s : blank (String " " s) = Some s.
Proof. reflexivity. Qed.

Lemma Sscanf_Sprintf lng lat :
  Sscanf_POINT (Sprintf_POINT lng lat)
  = match six_decimals lng, six_decimals lat with
    | Some x, Some y => Scanned x y
    | _, _ => ScanError
    end.
Proof.
  unfold Sscanf_POINT, Sprintf_POINT.
  rewrite literal_POINT.
  rewrite operand_printed, scan_printed by (right; eauto).
  destruct (six_decimals lng) as [x|]; [|reflexivity].
  rewrite blank_space.
  rewrite operand_printed, scan_printed by (now left).
  destruct (six_decimals lat) as [y|]; reflexivity.
Qed.

End printed.

(** ** The three wire forms *)
Section wire_forms.

Import types.

Lemma PointFromWKT_valid wkt q :
  PointFromWKT wkt = Some (inl q) -> IsValid q = true.
Proof.
  unfold PointFromWKT. destruct (fmt.Sscanf_POINT wkt); try discriminate.
  destruct (IsValid _) eqn:E; simpl; [now intros [= <-] | discriminate].
Qed.

(** The text of [ToWKT] read by [PointFromWKT]: the point rounded to six
    decimals, if that is a valid point. *)
Lemma PointFromWKT_ToWKT p :
  PointFromWKT (ToWKT p)
  = match six_decimals (Longitude p), six_decimals (Latitude p) with
    | Some x, Some y =>
        let q := {| Longitude := x; Latitude := y |} in
        if IsValid q then Some (inl q)
        else Some (inr (IErr "invalid coordinates in WKT"
                          "latitude or longitude out of range"))
    | _, _ =>
        Some (inr (IErr "invalid WKT format"
                     ("expected 'POINT(longitude latitude)', got '"
                        +:+ ToWKT p +:+ "'")))
    end.
Proof.
  unfold PointFromWKT, ToWKT. rewrite Sscanf_Sprintf.
  destruct (six_decimals (Longitude p)) as [x|]; [|reflexivity].
  destruct (six_decimals (Latitude p)) as [y|]; [|reflexivity].
  cbv zeta. destruct (IsValid _); reflexivity.
Qed.

(** C2, as amended: for a coordinate within the range, the GeoJSON form,
    the flat form and any WKT text in which the scanner reads the same two
    numbers decode to the same point; and the text that [ToWKT] writes,
    longitude first and six decimals each, decodes back to the point exactly
    when both of its coordinates are unchanged by the rounding to six
    decimals. *)
Theorem wire_forms_agree (p : Point) :
  within_range p = true ->
  (forall p0,
     UnmarshalJSON p0 (Some (GeoJSON_form (Longitude p) (Latitude p)))
     = (p, None))
  /\ (forall p0,
        UnmarshalJSON p0 (Some (flat_form (Longitude p) (Latitude p)))
        = (p, None))
  /\ (forall wkt,
        fmt.Sscanf_POINT wkt = fmt.Scanned (Longitude p) (Latitude p) ->
        PointFromWKT wkt = Some (inl p))
  /\ (PointFromWKT (ToWKT p) = Some (inl p)
      <-> six_decimals (Longitude p) = Some (Longitude p)
          /\ six_decimals (Latitude p) = Some (Latitude p)).
Proof.
  intros Hr.
  pose proof (within_range_valid p Hr) as Hv.
  pose proof (within_range_finite p Hr) as Hf.
  unfold finite_point in Hf. apply andb_true_iff in Hf as [Hx Hy].
  destruct p as [lng lat]. cbn [Longitude Latitude] in *.
  repeat split.
  - intros p0. rewrite (UnmarshalJSON_GeoJSON_form p0 _ _ Hx Hy). now rewrite Hv.
  - intros p0. rewrite (UnmarshalJSON_flat_form p0 _ _ Hx Hy). now rewrite Hv.
  - intros wkt Hscan. unfold PointFromWKT. rewrite Hscan. now rewrite Hv.
  - rewrite PointFromWKT_ToWKT in H. cbn [Longitude Latitude] in H.
    destruct (six_decimals lng) as [x|]; [|discriminate].
    destruct (six_decimals lat) as [y|]; [|discriminate].
    cbv zeta in H.
    destruct (IsValid {| Longitude := x; Latitude := y |}); [|discriminate].
    now injection H as -> ->.
  - rewrite PointFromWKT_ToWKT in H. cbn [Longitude Latitude] in H.
    destruct (six_decimals lng) as [x|]; [|discriminate].
    destruct (six_decimals lat) as [y|]; [|discriminate].
    cbv zeta in H.
    destruct (IsValid {| Longitude := x; Latitude := y |}); [|discriminate].
    now injection H as -> ->.
  - intros [Hlng Hlat]. rewrite PointFromWKT_ToWKT.
    cbn [Longitude Latitude]. rewrite Hlng, Hlat. cbv zeta. now rewrite Hv.
Qed.

Lemma wire_forms_agree_witness :
  let p := {| Longitude := 737898 / 10000; Latitude := 199975 / 10000 |} in
  within_range p = true
  /\ PointFromWKT "POINT(73.7898 19.9975)" = Some (inl p)
  /\ PointFromWKT (ToWKT p) = Some (inl p).
Proof.
  set (p := {| Longitude := 737898 / 10000; Latitude := 199975 / 10000 |}).
  split; [reflexivity|].
  destruct (wire_forms_agree p eq_refl) as (_ & _ & Hwkt & Hround).
  split.
  - apply Hwkt. vm_compute. reflexivity.
  - apply Hround. split; vm_compute; reflexivity.
Defined.

(** C2 as stated fails: the longitude 0.00390625 is written as 0.003906 and
    read back as another number. *)
Lemma ToWKT_keeps_six_decimals :
  let p := {| Longitude := 0.00390625; Latitude := 0 |} in
  within_range p = true
  /\ ToWKT p = "POINT(0.003906 0.000000)"
  /\ PointFromWKT (ToWKT p) <> Some (inl p).
Proof.
  split; [reflexivity|]. split; [vm_compute; reflexivity|].
  intros H.
  apply (f_equal (fun r => match r with
                           | Some (inl q) => (Longitude q <? 0.00390625)%float
                           | _ => false
                           end)) in H.
  vm_compute in H. discriminate.
Qed.

End wire_forms.

(** ** What [findNearest] returns *)
Section nearest_choice.

Import service.

Variable matrix : DistanceMatrix.
Variable from : Location.

(** The distance returned never exceeds the one the scan started with, and
    no entry lies strictly below it. *)
Lemma findNearest_range_minimal entries : forall nearest minDist r d,
  findNearest_range from entries matrix nearest minDist = (r, d) ->
  (d = minDist \/ (d <? minDist)%float = true)
  /\ forall e, e ∈ entries -> (distance_to matrix from e.2 <? d)%float = false.
Proof.
  induction entries as [|[k q] rest IH]; intros nearest minDist r d; simpl.
  - intros [= <- <-]. split; [now left|]. intros e He. inversion He.
  - fold (distance_to matrix from q).
    destruct (distance_to matrix from q <? minDist)%float eqn:Eq; intros H;
      apply IH in H as [Hd Hrest].
    + split.
      * right. destruct Hd as [->|Hd]; [assumption|]. eapply ltb_trans; eauto.
      * intros e He. apply elem_of_cons in He as [->|He]; [|auto]. simpl.
        destruct Hd as [->|Hd]; [apply ltb_irrefl | now apply ltb_asym].
    + split; [assumption|].
      intros e He. apply elem_of_cons in He as [->|He]; [|auto]. simpl.
      destruct Hd as [->|Hd]; [assumption|].
      destruct (distance_to matrix from q <? d)%float eqn:E; [|reflexivity].
      now rewrite (ltb_trans _ _ _ E Hd) in Eq.
Qed.

Lemma findNearest_range_unmoved entries nearest minDist :
  (forall e, e ∈ entries ->
     (distance_to matrix from e.2 <? minDist)%float = false) ->
  findNearest_range from entries matrix nearest minDist = (nearest, minDist).
Proof.
  induction entries as [|[k q] rest IH]; intros H; simpl; [reflexivity|].
  fold (distance_to matrix from q).
  pose proof (H (k, q)) as Hq. simpl in Hq. rewrite Hq by left.
  apply IH. intros e He. apply H. now right.
Qed.

Lemma findNearest_least entries p d :
  findNearest from entries matrix = (Some p, d) ->
  (exists k, (k, p) ∈ entries)
  /\ d = GetDistance matrix from (Place_Location p)
  /\ (d <? MaxFloat64)%float = true
  /\ forall k q, (k, q) ∈ entries ->
       (GetDistance matrix from (Place_Location q) <? d)%float = false.
Proof.
  intros H.
  destruct (findNearest_entry matrix from entries p d H) as (k & Hin & Hd).
  destruct (findNearest_range_minimal entries None MaxFloat64 (Some p) d H)
    as [Hmax Hrest].
  split; [now exists k|]. split; [exact Hd|]. split.
  - destruct Hmax as [->|Hmax]; [exfalso|exact Hmax].
    unfold findNearest in H.
    rewrite (findNearest_range_unmoved entries None MaxFloat64 Hrest) in H.
    discriminate.
  - intros k' q Hq. exact (Hrest (k', q) Hq).
Qed.

Lemma findNearest_none entries d :
  findNearest from entries matrix = (None, d) <->
  d = MaxFloat64
  /\ forall k q, (k, q) ∈ entries ->
       (GetDistance matrix from (Place_Location q) <? MaxFloat64)%float = false.
Proof.
  split.
  - intros H.
    destruct (findNearest_range_entry matrix from entries None MaxFloat64 None d H)
      as [[_ ->]|(k & p & _ & [=] & _)].
    split; [reflexivity|].
    destruct (findNearest_range_minimal entries None MaxFloat64 None MaxFloat64 H)
      as [_ Hrest].
    intros k q Hq. exact (Hrest (k, q) Hq).
  - intros [-> H]. apply findNearest_range_unmoved.
    intros [k q] He. exact (H k q He).
Qed.

(** [findNearest] returns a place of the map together with the matrix's
    distance to it; that distance is below [math.MaxFloat64], and no place
    of the map is strictly nearer. *)
Theorem findNearest_minimal entries p d :
  findNearest from entries matrix = (Some p, d) ->
  (exists k, (k, p) ∈ entries)
  /\ d = GetDistance matrix from (Place_Location p)
  /\ (d <? MaxFloat64)%float = true
  /\ forall k q, (k, q) ∈ entries ->
       (GetDistance matrix from (Place_Location q) <? d)%float = false.
Proof. apply findNearest_least. Qed.

(** [findNearest] returns the nil place exactly when no place of the map
    has a distance below [math.MaxFloat64] (none at all, or only distances
    that are NaN, infinite or [MaxFloat64] itself); the distance returned
    is then [MaxFloat64]. *)
Theorem findNearest_nil entries d :
  findNearest from entries matrix = (None, d) <->
  d = MaxFloat64
  /\ forall k q, (k, q) ∈ entries ->
       (GetDistance matrix from (Place_Location q) <? MaxFloat64)%float = false.
Proof. apply findNearest_none. Qed.

End nearest_choice.

Section nearest_choice_instance.

Import service instances.

Lemma findNearest_minimal_witness :
  (GetDistance (plane 20) start (Place_Location C)
   <? GetDistance (plane 20) start (Place_Location A))%float = false.
Proof.
  assert (findNearest start [("C", C); ("A", A); ("B", B)] (plane 20)
          = (Some A, GetDistance (plane 20) start (Place_Location A))) as H
    by (vm_compute; reflexivity).
  destruct (findNearest_minimal (plane 20) start _ _ _ H) as (_ & _ & _ & Hmin).
  apply (Hmin "C" C). left.
Defined.

End nearest_choice_instance.

(** ** The loop of the optimizer *)
Section loop.

Import service.

Variable order : RangeOrder.
Variable matrix : DistanceMatrix.
Variables endTime visitDuration : Z.

(** One pass of the loop in terms of the place found. *)
Lemma greedy_pass fuel n st :
  unvisited st <> ∅ ->
  greedy order matrix endTime visitDuration (Datatypes.S fuel) n st
  = match findNearest (currentLoc st) (order n (unvisited st)) matrix with
    | (None, _) => NilDereference
    | (Some p, _) =>
        if time.After (departure_after matrix visitDuration st p) endTime
        then Failed infeasible
        else greedy order matrix endTime visitDuration fuel (Datatypes.S n)
               (visit_next matrix visitDuration st p)
    end.
Proof.
  intros Hne. simpl.
  destruct (Nat.eqb_spec (size (unvisited st)) 0) as [E|_].
  { now apply map_size_empty_inv in E. }
  destruct (findNearest _ _ _) as [[p|] d] eqn:Hn; [|reflexivity].
  apply findNearest_entry in Hn as (k & _ & ->). reflexivity.
Qed.

Lemma greedy_empty fuel n st :
  unvisited st = ∅ ->
  greedy order matrix endTime visitDuration fuel n st
  = Returned (completed endTime st).
Proof.
  intros E. destruct fuel; simpl; now rewrite E, map_size_empty.
Qed.

Lemma empty_or_not (m : gmap string Place) : m = ∅ \/ m <> ∅.
Proof.
  destruct (size m) eqn:E.
  - left. now apply map_size_empty_inv.
  - right. intros ->. now rewrite map_size_empty in E.
Qed.

Variable P : state -> Prop.

Hypothesis P_step : forall n st p,
  P st -> (exists k, (k, p) ∈ order n (unvisited st)) ->
  (forall k q, (k, q) ∈ order n (unvisited st) ->
     (distance_to matrix (currentLoc st) q
      <? distance_to matrix (currentLoc st) p)%float = false) ->
  time.After (departure_after matrix visitDuration st p) endTime = false ->
  P (visit_next matrix visitDuration st p).

(** What every pass keeps true holds of the state from which the route is
    returned. *)
Lemma greedy_returns fuel : forall n st route,
  P st ->
  greedy order matrix endTime visitDuration fuel n st = Returned route ->
  exists st', P st' /\ unvisited st' = ∅ /\ route = completed endTime st'.
Proof.
  induction fuel as [|fuel IH]; intros n st route HP.
  - simpl. destruct (Nat.eqb_spec (size (unvisited st)) 0) as [E|E];
      [|discriminate].
    intros [= <-]. exists st. split; [assumption|].
    split; [now apply map_size_empty_inv | reflexivity].
  - destruct (empty_or_not (unvisited st)) as [E|E].
    + rewrite greedy_empty by assumption. intros [= <-]. now exists st.
    + rewrite greedy_pass by assumption.
      destruct (findNearest _ _ _) as [[p|] d] eqn:Hn; [|discriminate].
      destruct (time.After _ _) eqn:Ha; [discriminate|].
      apply IH.
      destruct (findNearest_least _ _ _ _ _ Hn) as (Hin & -> & _ & Hmin).
      now apply (P_step n).
Qed.

End loop.

(** *** The map of the places *)
Section index.

Import service.

Lemma index_places_snoc l p :
  index_places (l ++ [p]) = <[ID p := p]> (index_places l).
Proof. unfold index_places. now rewrite foldl_app. Qed.

Lemma index_places_size l : (size (index_places l) <= length l)%nat.
Proof.
  induction l as [|p l IH] using rev_ind.
  { unfold index_places. simpl. now rewrite map_size_empty. }
  rewrite index_places_snoc, map_size_insert, length_app. simpl.
  destruct (index_places l !! ID p); simpl; lia.
Qed.

Lemma index_places_elem l : forall k p,
  index_places l !! k = Some p -> p ∈ l.
Proof.
  induction l as [|q l IH] using rev_ind; intros k p.
  - unfold index_places. simpl. now rewrite lookup_empty.
  - rewrite index_places_snoc, lookup_insert. case_decide.
    + intros [= <-]. apply elem_of_app. right. left.
    + intros H'. apply elem_of_app. left. eauto.
Qed.

(** With distinct ids, the map holds a place under its id exactly when the
    place is listed. *)
Lemma index_places_lookup l : NoDup (map ID l) -> forall p,
  index_places l !! ID p = Some p <-> p ∈ l.
Proof.
  induction l as [|q l IH] using rev_ind; intros Hnd p.
  - unfold index_places. simpl. rewrite lookup_empty. split; [discriminate|].
    intros H. inversion H.
  - rewrite map_app in Hnd. apply NoDup_app in Hnd as (Hl & Hq & _).
    rewrite index_places_snoc, lookup_insert, elem_of_app, list_elem_of_singleton.
    case_decide as E.
    + split; [intros [= ->]; now right|].
      intros [Hp| ->]; [|reflexivity]. exfalso.
      apply (Hq (ID p)); [now apply (list_elem_of_fmap_2 ID)|].
      rewrite <- E. simpl. left.
    + rewrite (IH Hl). split; [now left|]. intros [Hp| ->]; [assumption|].
      now contradiction E.
Qed.

Lemma index_places_values l :
  NoDup (map ID l) -> (map_to_list (index_places l)).*2 ≡ₚ l.
Proof.
  induction l as [|q l IH] using rev_ind; intros Hnd.
  - unfold index_places. simpl. now rewrite map_to_list_empty.
  - rewrite map_app in Hnd. apply NoDup_app in Hnd as (Hl & Hq & _).
    rewrite index_places_snoc, map_to_list_insert.
    + simpl. rewrite (IH Hl). apply Permutation_cons_append.
    + destruct (index_places l !! ID q) as [p|] eqn:E; [exfalso|reflexivity].
      pose proof (keyed_index_places l _ _ E) as Hid.
      apply index_places_elem in E.
      apply (Hq (ID q)); [|simpl; left].
      rewrite <- Hid. now apply (list_elem_of_fmap_2 ID).
Qed.

Lemma index_places_permutation l l' :
  l ≡ₚ l' -> NoDup (map ID l) -> index_places l = index_places l'.
Proof.
  intros Hp Hnd.
  assert (NoDup (map ID l')) as Hnd' by now rewrite <- Hp.
  apply map_eq. intros k. apply option_eq. intros p.
  split; intros H.
  - pose proof (keyed_index_places _ _ _ H) as <-.
    apply index_places_lookup; [assumption|]. rewrite <- Hp.
    now apply (index_places_lookup l Hnd).
  - pose proof (keyed_index_places _ _ _ H) as <-.
    apply index_places_lookup; [assumption|]. rewrite Hp.
    now apply (index_places_lookup l' Hnd').
Qed.

End index.

(** *** Routes returned *)
Section returned_routes.

Import service.

Variable order : RangeOrder.
Variable matrix : DistanceMatrix.
Variable startLoc : Location.
Variable places : list Place.
Variables startTime endTime visitDuration : Z.

Lemma optimizeRoute_greedy :
  optimizeRoute order (inl matrix) startLoc places startTime endTime
    visitDuration
  = greedy order matrix endTime visitDuration (size (index_places places)) 0
      (initial startLoc startTime places).
Proof. reflexivity. Qed.

(** No visit of a returned route ends after the time window: every
    departure is at or before [endTime].  With no visit the completion time
    is [startTime]; otherwise it is at or before [endTime] and the buffer
    is not negative. *)
Theorem optimizeRoute_within_window (route : OptimizedRoute) :
  optimizeRoute order (inl matrix) startLoc places startTime endTime
    visitDuration = Returned route ->
  Forall (fun v => DepartureTime v <= endTime) (Visits route)
  /\ (Visits route = [] -> CompletionTime route = startTime)
  /\ (Visits route <> [] ->
      CompletionTime route <= endTime /\ 0 <= TimeBufferMinutes route).
Proof.
  rewrite optimizeRoute_greedy. intros H.
  apply (greedy_returns order matrix endTime visitDuration
           (fun st => Forall (fun v => DepartureTime v <= endTime) (visits st)
                      /\ (visits st = [] -> currentTime st = startTime)
                      /\ (visits st <> [] -> currentTime st <= endTime)))
    in H as (st & (Hall & Hnil & Hcons) & _ & ->).
  - split; [exact Hall|]. split; [exact Hnil|].
    intros Hne. specialize (Hcons Hne). split; [exact Hcons|].
    cbn [completed TimeBufferMinutes].
    destruct (whole_minutes_floor (time.Sub endTime (currentTime st)))
      as [[Hlow _] _]; [unfold time.Sub; lia|].
    assert (0 <= time.Sub endTime (currentTime st) / time.Minute)
      by (apply Z.div_pos; [unfold time.Sub; lia|reflexivity]).
    lia.
  - intros n st p (Hall & _ & _) _ _ Hafter.
    unfold departure_after in Hafter. apply Z.ltb_ge in Hafter.
    split; [|split].
    + simpl. apply Forall_app. split; [exact Hall|].
      constructor; [exact Hafter|constructor].
    + simpl. intros E. now destruct (visits st).
    + intros _. exact Hafter.
  - simpl. split; [constructor|]. split; [reflexivity|congruence].
Qed.

(** Each visit of a returned route records the distance and the travel
    time that the matrix gives from the stop before it (from the start
    location for the first visit). *)
Theorem optimizeRoute_legs (route : OptimizedRoute) :
  optimizeRoute order (inl matrix) startLoc places startTime endTime
    visitDuration = Returned route ->
  legs matrix startLoc (Visits route).
Proof.
  assert (forall vs from v,
            legs matrix from (vs ++ [v]) <->
            legs matrix from vs
            /\ DistanceFromPrevious v
               = GetDistance matrix (last_location from vs)
                   (Place_Location (Place_ v))
            /\ TravelTimeFromPrevious v
               = GetTime matrix (last_location from vs)
                   (Place_Location (Place_ v))) as Hsnoc.
  { induction vs as [|w vs IH]; intros from v; simpl.
    - unfold last_location. simpl. tauto.
    - rewrite IH. unfold last_location. simpl. tauto. }
  rewrite optimizeRoute_greedy. intros H.
  apply (greedy_returns order matrix endTime visitDuration
           (fun st => legs matrix startLoc (visits st)
                      /\ currentLoc st = last_location startLoc (visits st)))
    in H as (st & (Hlegs & _) & _ & ->).
  - exact Hlegs.
  - intros n st p (Hlegs & Hloc) _ _ _. split.
    + simpl. rewrite Hsnoc. simpl. rewrite <- Hloc. auto.
    + simpl. unfold last_location. now rewrite foldl_app.
  - simpl. split; [exact I|reflexivity].
Qed.

Lemma wrap64_add a b : time.wrap64 (time.wrap64 a + b) = time.wrap64 (a + b).
Proof.
  unfold time.wrap64. f_equal.
  replace (a + 2 ^ 63) with (a + 2 ^ 63 + 0) by lia.
  rewrite <- (Z.add_assoc _ b), (Z.add_comm b), Z.add_assoc.
  replace ((a + 2 ^ 63 + 0) mod 2 ^ 64 - 2 ^ 63 + 2 ^ 63 + b)
    with ((a + 2 ^ 63 + 0) mod 2 ^ 64 + b) by lia.
  rewrite Z.add_mod_idemp_l by (vm_compute; discriminate).
  f_equal. lia.
Qed.

(** The totals of a returned route are those of its visits: the total
    distance is the sum, in [float64] and in the order of the visits, of the
    distances recorded, and the total travel time is the sum of the travel
    times recorded, as an [int]. *)
Theorem optimizeRoute_totals (route : OptimizedRoute) :
  optimizeRoute order (inl matrix) startLoc places startTime endTime
    visitDuration = Returned route ->
  TotalDistanceKm route = total_distance (Visits route)
  /\ TotalTravelTime route = time.wrap64 (total_travel (Visits route)).
Proof.
  rewrite optimizeRoute_greedy. intros H.
  apply (greedy_returns order matrix endTime visitDuration
           (fun st => totalDistance st = total_distance (visits st)
                      /\ totalTravelTime st
                         = time.wrap64 (total_travel (visits st))))
    in H as (st & Htotals & _ & ->).
  - exact Htotals.
  - intros n st p (Hd & Ht) _ _ _.
    unfold total_distance, total_travel. simpl. rewrite !foldl_app. simpl.
    fold (total_distance (visits st)) (total_travel (visits st)).
    now rewrite Hd, Ht, wrap64_add.
  - simpl. now split.
Qed.

(** A returned route visits the places of the map, each once: no id is
    visited twice, a place is visited exactly when the map holds it under
    its id, and when the places listed have distinct ids the places visited
    are the places listed, in some order. *)
Theorem optimizeRoute_visits_each_once (route : OptimizedRoute) :
  legal order ->
  optimizeRoute order (inl matrix) startLoc places startTime endTime
    visitDuration = Returned route ->
  NoDup (visited_ids (Visits route))
  /\ (forall p, p ∈ map Place_ (Visits route)
                <-> index_places places !! ID p = Some p)
  /\ (NoDup (map ID places) -> map Place_ (Visits route) ≡ₚ places).
Proof.
  intros Hlegal. rewrite optimizeRoute_greedy. intros H.
  apply (greedy_returns order matrix endTime visitDuration
           (fun st => keyed (unvisited st)
                      /\ map Place_ (visits st)
                           ++ (map_to_list (unvisited st)).*2
                         ≡ₚ (map_to_list (index_places places)).*2))
    in H as (st & (_ & Hperm) & Hempty & ->).
  - rewrite Hempty, map_to_list_empty, app_nil_r in Hperm. simpl.
    pose proof (keyed_index_places places) as Hkeyed.
    assert (map ID (map_to_list (index_places places)).*2
            = (map_to_list (index_places places)).*1) as Hids.
    { rewrite <- list_fmap_compose. apply list_fmap_ext.
      intros i [k p] Hin. apply list_elem_of_lookup_2 in Hin.
      apply elem_of_map_to_list in Hin. simpl. now apply Hkeyed. }
    split; [|split].
    + unfold visited_ids. rewrite <- (map_map Place_ ID), Hperm, Hids.
      apply NoDup_fst_map_to_list.
    + intros p. rewrite Hperm. split.
      * intros Hin. apply list_elem_of_fmap in Hin as ([k q] & -> & Hin).
        apply elem_of_map_to_list in Hin. simpl.
        now rewrite (Hkeyed _ _ Hin).
      * intros Hp. apply elem_of_map_to_list in Hp.
        now apply (list_elem_of_fmap_2 snd) in Hp.
    + intros Hnd. rewrite Hperm. now apply index_places_values.
  - intros n st p (Hkeyed & Hperm) [k Hin] _ _. split.
    + now apply keyed_delete.
    + rewrite (Hlegal n (unvisited st)) in Hin.
      apply elem_of_map_to_list in Hin.
      pose proof (Hkeyed _ _ Hin) as Hid. subst k.
      simpl. rewrite map_app. simpl. rewrite <- Hperm.
      rewrite <- (map_to_list_delete (unvisited st) (ID p) p Hin).
      rewrite fmap_cons. simpl. rewrite <- app_assoc. reflexivity.
  - simpl. split; [apply keyed_index_places|reflexivity].
Qed.

(** The visits of a returned route are numbered 1, 2, 3, ... in their
    order. *)
Theorem optimizeRoute_numbering (route : OptimizedRoute) :
  Z.of_nat (length places) < 2 ^ 63 - 1 ->
  legal order ->
  optimizeRoute order (inl matrix) startLoc places startTime endTime
    visitDuration = Returned route ->
  map SequenceOrder (Visits route)
  = map Z.of_nat (seq 1 (length (Visits route))).
Proof.
  intros Hlen Hlegal. rewrite optimizeRoute_greedy. intros H.
  pose proof (index_places_size places) as Hsize.
  apply (greedy_returns order matrix endTime visitDuration
           (fun st => keyed (unvisited st)
                      /\ (length (visits st) + size (unvisited st)
                          <= length places)%nat
                      /\ sequenceOrder st = Z.of_nat (length (visits st)) + 1
                      /\ map SequenceOrder (visits st)
                         = map Z.of_nat (seq 1 (length (visits st)))))
    in H as (st & (_ & _ & _ & Hseq) & _ & ->).
  - exact Hseq.
  - intros n st p (Hkeyed & Hbound & Hnext & Hseq) [k Hin] _ _.
    rewrite (Hlegal n (unvisited st)) in Hin.
    apply elem_of_map_to_list in Hin.
    pose proof (Hkeyed _ _ Hin) as Hid. subst k.
    assert (size (unvisited st) <> 0%nat) as Hpos.
    { intros E. apply map_size_empty_inv in E.
      now rewrite E, lookup_empty in Hin. }
    split; [now apply keyed_delete|]. simpl.
    rewrite length_app, map_size_delete_Some by eauto. simpl.
    split; [lia|].
    assert (time.wrap64 (sequenceOrder st + 1) = sequenceOrder st + 1) as Hw.
    { unfold time.wrap64. rewrite Z.mod_small; lia. }
    split; [rewrite Hw; lia|].
    rewrite map_app, Hseq, Nat.add_1_r, seq_S, map_app. simpl.
    rewrite Hnext. do 2 f_equal. lia.
  - simpl. split; [apply keyed_index_places|].
    split; [exact Hsize|]. split; reflexivity.
Qed.

End returned_routes.

(** *** Runs that cannot panic *)
Section measured_runs.

Import service.

Variable order : RangeOrder.
Variable matrix : DistanceMatrix.
Variable startLoc : Location.
Variable places : list Place.
Variables startTime endTime visitDuration : Z.

Hypothesis order_legal : legal order.

(** Every distance that a run can look up is below [math.MaxFloat64]. *)
Hypothesis all_measured : forall from p,
  reachable startLoc (index_places places) from -> p ∈ places ->
  measured matrix from p.

Lemma findNearest_found n (m : gmap string Place) from :
  m ⊆ index_places places -> m <> ∅ ->
  reachable startLoc (index_places places) from ->
  exists p d, findNearest from (order n m) matrix = (Some p, d)
              /\ m !! ID p = Some p.
Proof.
  intros Hsub Hne Hfrom.
  destruct (findNearest from (order n m) matrix) as [[p|] d] eqn:Hn.
  - exists p, d. split; [reflexivity|].
    apply findNearest_entry in Hn as (k & Hin & _).
    rewrite (order_legal n m) in Hin. apply elem_of_map_to_list in Hin.
    pose proof (lookup_weaken _ _ _ _ Hin Hsub) as Hin0.
    now rewrite (keyed_index_places places _ _ Hin0).
  - exfalso. apply findNearest_none in Hn as [_ Hn].
    apply map_choose in Hne as (k & p & Hp).
    pose proof (lookup_weaken _ _ _ _ Hp Hsub) as Hp0.
    assert ((k, p) ∈ order n m) as Hin
      by now rewrite (order_legal n m), elem_of_map_to_list.
    specialize (Hn k p Hin).
    pose proof (all_measured from p Hfrom (index_places_elem _ _ _ Hp0)) as Hm.
    unfold measured, distance_to in Hm. congruence.
Qed.

Lemma greedy_outcome fuel : forall n st,
  unvisited st ⊆ index_places places ->
  reachable startLoc (index_places places) (currentLoc st) ->
  (size (unvisited st) <= fuel)%nat ->
  (exists route,
     greedy order matrix endTime visitDuration fuel n st = Returned route)
  \/ greedy order matrix endTime visitDuration fuel n st = Failed infeasible.
Proof.
  induction fuel as [|fuel IH]; intros n st Hsub Hfrom Hsize.
  - left. eexists. apply greedy_empty. apply map_size_empty_inv. lia.
  - destruct (empty_or_not (unvisited st)) as [E|E].
    + left. eexists. now apply greedy_empty.
    + rewrite greedy_pass by assumption.
      destruct (findNearest_found n (unvisited st) (currentLoc st) Hsub E Hfrom)
        as (p & d & -> & Hp).
      destruct (time.After _ _); [now right|].
      apply IH; simpl.
      * etrans; [apply delete_subseteq | assumption].
      * right. exists (ID p), p. split; [|reflexivity].
        eapply lookup_weaken; eauto.
      * rewrite map_size_delete_Some by eauto. lia.
Qed.

(** When every distance that the run can look up is below
    [math.MaxFloat64], [optimizeRoute] comes to an end without a panic: it
    returns a route or fails with the error of the exceeded time window. *)
Theorem optimizeRoute_outcome :
  (exists route,
     optimizeRoute order (inl matrix) startLoc places startTime endTime
       visitDuration = Returned route)
  \/ optimizeRoute order (inl matrix) startLoc places startTime endTime
       visitDuration
     = Failed (Errorf "cannot fit all places: time window exceeded").
Proof.
  rewrite optimizeRoute_greedy. apply greedy_outcome; simpl.
  - reflexivity.
  - now left.
  - lia.
Qed.

Variable maxTravel : Z.

Hypothesis travel_bounded : forall a b, 0 <= GetTime matrix a b <= maxTravel.
Hypothesis travel_fits : fits maxTravel.
Hypothesis dwell_nonneg : 0 <= visitDuration.
Hypothesis dwell_fits : fits visitDuration.



End measured_runs.

(** *** The order in which the places are listed *)
Section listing.

Import service.

(** When the places listed have distinct ids, the order in which they are
    listed does not matter: under the same order of the map's range, listing
    them in another order gives the same outcome. *)
Theorem optimizeRoute_listing_order (order : RangeOrder)
    (fetched : DistanceMatrix + error) (startLoc : Location)
    (places places' : list Place) (startTime endTime visitDuration : Z) :
  places ≡ₚ places' -> NoDup (map ID places) ->
  optimizeRoute order fetched startLoc places startTime endTime visitDuration
  = optimizeRoute order fetched startLoc places' startTime endTime
      visitDuration.
Proof.
  intros Hp Hnd. unfold optimizeRoute.
  now rewrite (index_places_permutation places places' Hp Hnd).
Qed.

End listing.

(** *** The runs of the instance *)
Section route_instances.

Import service instances.

Lemma optimizeRoute_within_window_witness :
  exists route,
    optimizeRoute range_forward (inl (plane 20)) start [A; B; C]
      (clock 9 0) (clock 18 0) 30 = Returned route
    /\ Forall (fun v => DepartureTime v <= clock 18 0) (Visits route)
    /\ (Visits route = [] -> CompletionTime route = clock 9 0)
    /\ (Visits route <> [] ->
        CompletionTime route <= clock 18 0 /\ 0 <= TimeBufferMinutes route).
Proof.
  eexists. split; [vm_compute; reflexivity|].
  apply (optimizeRoute_within_window range_forward (plane 20) start [A; B; C]
           (clock 9 0) (clock 18 0) 30).
  vm_compute. reflexivity.
Defined.

Lemma optimizeRoute_legs_witness :
  exists route,
    optimizeRoute range_forward (inl (plane 20)) start [A; B; C]
      (clock 9 0) (clock 18 0) 30 = Returned route
    /\ legs (plane 20) start (Visits route).
Proof.
  eexists. split; [vm_compute; reflexivity|].
  apply (optimizeRoute_legs range_forward (plane 20) start [A; B; C]
           (clock 9 0) (clock 18 0) 30).
  vm_compute. reflexivity.
Defined.

Lemma optimizeRoute_totals_witness :
  exists route,
    optimizeRoute range_forward (inl (plane 20)) start [A; B; C]
      (clock 9 0) (clock 18 0) 30 = Returned route
    /\ TotalDistanceKm route = total_distance (Visits route)
    /\ TotalTravelTime route = time.wrap64 (total_travel (Visits route)).
Proof.
  eexists. split; [vm_compute; reflexivity|].
  apply (optimizeRoute_totals range_forward (plane 20) start [A; B; C]
           (clock 9 0) (clock 18 0) 30).
  vm_compute. reflexivity.
Defined.

Lemma optimizeRoute_visits_each_once_witness :
  exists route,
    optimizeRoute range_backward (inl (plane 20)) start [A; B; C]
      (clock 9 0) (clock 18 0) 30 = Returned route
    /\ NoDup (visited_ids (Visits route))
    /\ (forall p, p ∈ map Place_ (Visits route)
                  <-> index_places [A; B; C] !! ID p = Some p)
    /\ (NoDup (map ID [A; B; C]) -> map Place_ (Visits route) ≡ₚ [A; B; C]).
Proof.
  eexists. split; [vm_compute; reflexivity|].
  apply (optimizeRoute_visits_each_once range_backward (plane 20) start
           [A; B; C] (clock 9 0) (clock 18 0) 30).
  - exact range_backward_legal.
  - vm_compute. reflexivity.
Defined.

Lemma optimizeRoute_numbering_witness :
  exists route,
    optimizeRoute range_forward (inl (plane 20)) start [A; B; C]
      (clock 9 0) (clock 18 0) 30 = Returned route
    /\ map SequenceOrder (Visits route)
       = map Z.of_nat (seq 1 (length (Visits route))).
Proof.
  eexists. split; [vm_compute; reflexivity|].
  apply (optimizeRoute_numbering range_forward (plane 20) start [A; B; C]
           (clock 9 0) (clock 18 0) 30).
  - vm_compute. reflexivity.
  - exact range_forward_legal.
  - vm_compute. reflexivity.
Defined.

Lemma optimizeRoute_outcome_witness :
  (exists route,
     optimizeRoute range_forward (inl (uniform 1 20)) start [A; B; C]
       (clock 9 0) (clock 10 0) 30 = Returned route)
  \/ optimizeRoute range_forward (inl (uniform 1 20)) start [A; B; C]
       (clock 9 0) (clock 10 0) 30
     = Failed (Errorf "cannot fit all places: time window exceeded").
Proof.
  apply (optimizeRoute_outcome range_forward (uniform 1 20) start [A; B; C]
           (clock 9 0) (clock 10 0) 30 range_forward_legal).
  intros from p _ _. vm_compute. reflexivity.
Defined.


Lemma optimizeRoute_listing_order_witness :
  optimizeRoute range_forward (inl (plane 20)) start [A; B]
    (clock 9 0) (clock 18 0) 30
  = optimizeRoute range_forward (inl (plane 20)) start [B; A]
      (clock 9 0) (clock 18 0) 30.
Proof.
  apply optimizeRoute_listing_order.
  - apply perm_swap.
  - vm_compute. apply NoDup_cons_2; [|apply NoDup_cons_2; [|apply NoDup_nil_2]].
    + intros H. apply elem_of_cons in H as [H|H]; [discriminate|inversion H].
    + intros H. inversion H.
Defined.

End route_instances.

(** ** More on the point and its JSON forms *)
Section point_facts.

Import types.

Lemma nan_ltb x y :
  is_nan x = true -> (x <? y)%float = false /\ (y <? x)%float = false.
Proof.
  unfold is_nan. rewrite FloatAxioms.eqb_spec, !FloatAxioms.ltb_spec.
  unfold SFeqb, SFltb. destruct (Prim2SF x) as [[]|[]| |s m e] eqn:E.
  all: rewrite ?SFcompare_refl_finite; try discriminate.
  intros _. split; [reflexivity|]. now destruct (Prim2SF y) as [[]|[]| |[] ? ?].
Qed.

(** [IsValid] accepts a point exactly when each coordinate is within its
    range or is NaN. *)
Theorem IsValid_exact (p : Point) :
  IsValid p = true <->
  (is_nan (Latitude p) = true
   \/ ((-90 <=? Latitude p) && (Latitude p <=? 90))%float = true)
  /\ (is_nan (Longitude p) = true
      \/ ((-180 <=? Longitude p) && (Longitude p <=? 180))%float = true).
Proof.
  unfold IsValid. split.
  - destruct (Latitude p <? -90)%float eqn:E1; [discriminate|].
    destruct (90 <? Latitude p)%float eqn:E2; [discriminate|].
    destruct (Longitude p <? -180)%float eqn:E3; [discriminate|].
    destruct (180 <? Longitude p)%float eqn:E4; [discriminate|].
    intros _. split.
    + destruct (is_nan (Latitude p)) eqn:N; [now left|right].
      apply andb_true_iff. split; apply not_ltb_leb; auto.
    + destruct (is_nan (Longitude p)) eqn:N; [now left|right].
      apply andb_true_iff. split; apply not_ltb_leb; auto.
  - intros [[Hlat|Hlat] [Hlng|Hlng]].
    all: try (apply andb_true_iff in Hlat as [H1 H2];
              rewrite (leb_ltb _ _ H1), (leb_ltb _ _ H2)).
    all: try (apply andb_true_iff in Hlng as [H3 H4];
              rewrite (leb_ltb _ _ H3), (leb_ltb _ _ H4)).
    all: try (destruct (nan_ltb (Latitude p) (-90) Hlat) as [-> _];
              destruct (nan_ltb (Latitude p) 90 Hlat) as [_ ->]).
    all: try (destruct (nan_ltb (Longitude p) (-180) Hlng) as [-> _];
              destruct (nan_ltb (Longitude p) 180 Hlng) as [_ ->]).
    all: reflexivity.
Qed.

(** [MarshalJSON] writes the GeoJSON form of a point whose coordinates are
    finite, and fails with json's unsupported-value error on any other
    point; it never looks at the range. *)
Theorem MarshalJSON_exact (p : Point) :
  MarshalJSON p
  = if finite_point p then inl (GeoJSON_form (Longitude p) (Latitude p))
    else inr UnsupportedValueError.
Proof.
  destruct (finite_point p) eqn:E; [now apply MarshalJSON_finite|].
  unfold finite_point, is_finite in E.
  unfold MarshalJSON, Marshal_GeoJSONPoint, ToGeoJSON. simpl.
  unfold json.encode_float64.
  destruct (is_nan (Longitude p) || is_infinity (Longitude p));
    [reflexivity|].
  destruct (is_nan (Latitude p) || is_infinity (Latitude p));
    [reflexivity|discriminate].
Qed.

(** [PointFromGeoJSON] returns a point exactly for the GeoJSON form of a
    point that [IsValid] accepts, and returns that point: on what it
    accepts it is the inverse of [ToGeoJSON]. *)
Theorem PointFromGeoJSON_accepts (gj : GeoJSONPoint) (p : Point) :
  PointFromGeoJSON gj = inl p <-> gj = ToGeoJSON p /\ IsValid p = true.
Proof.
  unfold PointFromGeoJSON, ToGeoJSON. destruct gj as [t cs]. simpl. split.
  - destruct (String.eqb_spec t "Point") as [->|Ht]; [simpl|discriminate].
    destruct cs as [|c0 [|c1 [|c2 cs]]]; try discriminate.
    destruct (IsValid _) eqn:E; simpl; [|discriminate].
    intros [= <-]. now split.
  - intros [[= -> ->] Hv]. simpl. destruct p as [x y]. simpl.
    now rewrite Hv.
Qed.

(** A failed [UnmarshalJSON] leaves the receiver as it was, except when the
    flat form holds coordinates out of range: the receiver then holds those
    coordinates. *)
Theorem UnmarshalJSON_failure (p0 : Point) (data : option json.value)
    (q : Point) (e : error) :
  UnmarshalJSON p0 data = (q, Some e) ->
  q = p0 \/ (e = out_of_range /\ IsValid q = false).
Proof.
  unfold UnmarshalJSON.
  destruct (json.Unmarshal GeoJSONPoint_field data _) as [gj e1].
  destruct (is_nil e1 && String.eqb (Type_ gj) "Point").
  - destruct (PointFromGeoJSON gj); [discriminate|].
    intros [= <- _]. now left.
  - destruct (json.Unmarshal alias_field data _) as [a [e2|]].
    + intros [= <- _]. now left.
    + destruct (IsValid _) eqn:E; simpl; [discriminate|].
      intros [= <- <-]. right. now split.
Qed.

(** Every point that [UnmarshalJSON] returns is within the range: the
    JSON forms cannot bring in a NaN. *)
Theorem UnmarshalJSON_within_range (p0 : Point) (data : option json.value)
    (q : Point) :
  UnmarshalJSON p0 data = (q, None) -> within_range q = true.
Proof.
  intros H.
  pose proof (UnmarshalJSON_valid _ _ _ H) as Hv.
  pose proof (UnmarshalJSON_finite _ _ _ H) as Hf.
  unfold finite_point in Hf. apply andb_true_iff in Hf as [Hx Hy].
  apply valid_within_range; auto using finite_not_nan.
Qed.

Lemma store_members_skipped {S : Type}
    (field : string -> json.value -> S -> S * option error)
    (members : list (string * json.value)) (s : S) :
  Forall (fun kv => forall v s', field (json.foldName kv.1) v s' = (s', None))
    members ->
  json.store_members field members s = (s, None).
Proof.
  induction 1 as [|[k v] rest Hk _ IH]; simpl; [reflexivity|].
  simpl in Hk. now rewrite Hk, IH.
Qed.

Lemma has_member_false name members :
  has_member name (json.Object members) = false ->
  Forall (fun kv => String.eqb (json.foldName kv.1) name = false) members.
Proof.
  simpl. induction members as [|[k v] rest IH]; simpl; [constructor|].
  intros H. apply orb_false_iff in H as [Hk Hrest].
  constructor; [exact Hk | now apply IH].
Qed.

Lemma store_members_type members : forall gj,
  has_member "type" (json.Object members) = false ->
  Type_ (fst (json.store_members GeoJSONPoint_field members gj)) = Type_ gj.
Proof.
  induction members as [|[k v] rest IH]; intros gj H; simpl; [reflexivity|].
  simpl in H. apply orb_false_iff in H as [Hk Hrest].
  unfold GeoJSONPoint_field at 1. rewrite Hk.
  destruct (String.eqb (json.foldName k) "coordinates").
  - destruct (json.store_float64_slice (Coordinates gj) v) as [cs e].
    specialize (IH {| Type_ := Type_ gj; Coordinates := cs |} Hrest).
    destruct (json.store_members _ rest _) as [gj' e']. exact IH.
  - specialize (IH gj Hrest).
    destruct (json.store_members _ rest _) as [gj' e']. exact IH.
Qed.

(** An object without a type, a longitude or a latitude member (the empty
    object is one), and [null] as well, decode without error to the point
    (0, 0). *)
Theorem UnmarshalJSON_without_coordinates (p0 : Point) (v : json.value) :
  match v with json.Object _ | json.Null => True | _ => False end ->
  has_member "type" v = false ->
  has_member "longitude" v = false ->
  has_member "latitude" v = false ->
  UnmarshalJSON p0 (Some v) = ({| Longitude := 0; Latitude := 0 |}, None).
Proof.
  destruct v as [| | | | |members]; try contradiction; intros _.
  - intros _ _ _. reflexivity.
  - intros Ht Hlng Hlat. unfold UnmarshalJSON, json.Unmarshal.
    pose proof (store_members_type members
                  {| Type_ := ""; Coordinates := [] |} Ht) as Htype.
    destruct (json.store_members GeoJSONPoint_field members _) as [gj e1].
    simpl in Htype. rewrite Htype.
    replace (is_nil e1 && String.eqb "" "Point") with false
      by now destruct (is_nil e1).
    rewrite store_members_skipped; [reflexivity|].
    apply has_member_false in Hlng, Hlat.
    rewrite Forall_forall in *. intros kv Hin w a.
    unfold alias_field. now rewrite (Hlng kv Hin), (Hlat kv Hin).
Qed.

(** When the object begins with the type "Point" and an array of numbers
    as coordinates, and names them only once, nothing else in it is looked
    at: the outcome is that of [PointFromGeoJSON], so an array of another
    length than two is an error whatever latitude and longitude members
    follow, and the receiver is untouched. *)
Theorem UnmarshalJSON_GeoJSON_first (p0 : Point) (cs : list float)
    (rest : list (string * json.value)) :
  Forall (fun x => is_finite x = true) cs ->
  has_member "type" (json.Object rest) = false ->
  has_member "coordinates" (json.Object rest) = false ->
  UnmarshalJSON p0
    (Some (json.Object (("type", json.Str "Point")
                        :: ("coordinates", json.Array (map json.Number cs))
                        :: rest)))
  = match cs with
    | [lng; lat] =>
        if IsValid {| Longitude := lng; Latitude := lat |}
        then ({| Longitude := lng; Latitude := lat |}, None)
        else (p0, Some out_of_range)
    | _ => (p0, Some (IErr "invalid coordinates"
                        ("expected 2 values, got " +:+ itoa (length cs))))
    end.
Proof.
  intros Hcs Ht Hc. unfold UnmarshalJSON, json.Unmarshal.
  assert (json.store_members GeoJSONPoint_field
            (("type", json.Str "Point")
             :: ("coordinates", json.Array (map json.Number cs)) :: rest)
            {| Type_ := ""; Coordinates := [] |}
          = ({| Type_ := "Point"; Coordinates := cs |}, None)) as ->.
  { cbn [json.store_members].
    change (json.foldName "type") with "type".
    change (json.foldName "coordinates") with "coordinates".
    unfold GeoJSONPoint_field at 1 2.
    change (String.eqb "type" "type") with true.
    change (String.eqb "coordinates" "type") with false.
    change (String.eqb "coordinates" "coordinates") with true.
    cbn [json.store_string json.store_float64_slice Type_ Coordinates].
    rewrite (store_elems_finite_numbers cs _ Hcs).
    rewrite store_members_skipped; [reflexivity|].
    apply has_member_false in Ht, Hc.
    rewrite Forall_forall in *. intros kv Hin w a.
    unfold GeoJSONPoint_field. now rewrite (Ht kv Hin), (Hc kv Hin). }
  change (is_nil None && String.eqb "Point" "Point") with true. cbv iota.
  unfold PointFromGeoJSON.
  change (negb (String.eqb (Type_ {| Type_ := "Point"; Coordinates := cs |})
                  "Point")) with false.
  cbv iota. cbn [Coordinates].
  destruct cs as [|c0 [|c1 [|c2 cs]]]; try reflexivity.
  destruct (IsValid _); reflexivity.
Qed.

End point_facts.

Section point_instances.

Import types.

Lemma UnmarshalJSON_failure_witness :
  {| Longitude := 0; Latitude := 200 |} = {| Longitude := 5; Latitude := 5 |}
  \/ (out_of_range = out_of_range
      /\ IsValid {| Longitude := 0; Latitude := 200 |} = false).
Proof.
  apply (UnmarshalJSON_failure {| Longitude := 5; Latitude := 5 |}
           (Some (flat_form 0 200))).
  vm_compute. reflexivity.
Defined.

Lemma UnmarshalJSON_within_range_witness :
  within_range {| Longitude := 73.5; Latitude := 19.75 |} = true.
Proof.
  apply (UnmarshalJSON_within_range {| Longitude := 0; Latitude := 0 |}
           (Some (GeoJSON_form 73.5 19.75))).
  vm_compute. reflexivity.
Defined.

Lemma UnmarshalJSON_without_coordinates_witness :
  UnmarshalJSON {| Longitude := 5; Latitude := 5 |}
    (Some (json.Object [("name", json.Str "Nashik");
                        ("coordinates", json.Str "unknown")]))
  = ({| Longitude := 0; Latitude := 0 |}, None).
Proof.
  apply UnmarshalJSON_without_coordinates; vm_compute; auto.
Defined.

Lemma UnmarshalJSON_GeoJSON_first_witness :
  UnmarshalJSON {| Longitude := 5; Latitude := 5 |}
    (Some (json.Object
             [("type", json.Str "Point");
              ("coordinates",
               json.Array [json.Number 1; json.Number 2; json.Number 3]);
              ("latitude", json.Number 19.75);
              ("longitude", json.Number 73.5)]))
  = ({| Longitude := 5; Latitude := 5 |},
     Some (IErr "invalid coordinates" "expected 2 values, got 3")).
Proof.
  apply (UnmarshalJSON_GeoJSON_first {| Longitude := 5; Latitude := 5 |}
           [1; 2; 3]%float
           [("latitude", json.Number 19.75); ("longitude", json.Number 73.5)]).
  - repeat constructor.
  - reflexivity.
  - reflexivity.
Defined.

End point_instances.

(** ** [Location.Validate] and the numbers that the decimals stand for *)
Section location_cases.

Lemma pow10_IZR k : 0 <= k -> powerRZ 10 k = IZR (10 ^ k).
Proof.
  intros Hk. rewrite <- (Z2Nat.id k Hk) at 1.
  rewrite <- pow_powerRZ, pow_IZR, Z2Nat.id by assumption. reflexivity.
Qed.

Lemma pow10_neg k : k < 0 -> powerRZ 10 k = (/ IZR (10 ^ (- k)))%R.
Proof.
  intros Hk. replace k with (- (- k)) at 1 by lia.
  rewrite powerRZ_neg', pow10_IZR by lia. reflexivity.
Qed.

Lemma over_le (V N P : R) : (0 < P -> (V * / P <= N <-> V <= N * P))%R.
Proof.
  intros HP. split; intros H.
  - replace V with (V * / P * P)%R by (field; lra).
    apply Rmult_le_compat_r; lra.
  - apply Rmult_le_reg_r with P; [lra|].
    replace (V * / P * P)%R with V by (field; lra). lra.
Qed.

Lemma over_ge (V N P : R) : (0 < P -> (N <= V * / P <-> N * P <= V))%R.
Proof.
  intros HP. split; intros H.
  - replace V with (V * / P * P)%R by (field; lra).
    apply Rmult_le_compat_r; lra.
  - apply Rmult_le_reg_r with P; [lra|].
    replace (V * / P * P)%R with V by (field; lra). lra.
Qed.

Lemma decimal_le_R d n : decimal_le d n <-> (decimal_R d <= IZR n)%R.
Proof.
  unfold decimal_le, decimal_R.
  destruct (Z.leb_spec 0 (decimal.exp d)) as [H|H].
  - rewrite pow10_IZR, <- mult_IZR by assumption.
    split; [apply IZR_le | apply le_IZR].
  - rewrite pow10_neg by assumption.
    assert (0 < IZR (10 ^ (- decimal.exp d)))%R as Hp
      by (apply IZR_lt; apply Z.pow_pos_nonneg; lia).
    rewrite (over_le _ _ _ Hp), <- mult_IZR.
    split; [apply IZR_le | apply le_IZR].
Qed.

Lemma decimal_ge_R d n : decimal_ge d n <-> (IZR n <= decimal_R d)%R.
Proof.
  unfold decimal_ge, decimal_R.
  destruct (Z.leb_spec 0 (decimal.exp d)) as [H|H].
  - rewrite pow10_IZR, <- mult_IZR by assumption.
    split; [apply IZR_le | apply le_IZR].
  - rewrite pow10_neg by assumption.
    assert (0 < IZR (10 ^ (- decimal.exp d)))%R as Hp
      by (apply IZR_lt; apply Z.pow_pos_nonneg; lia).
    rewrite (over_ge _ _ _ Hp), <- mult_IZR.
    split; [apply IZR_le | apply le_IZR].
Qed.

(** [Validate] compares the exact decimal numbers: it accepts a location
    exactly when its latitude is in [-90, 90] and its longitude in
    [-180, 180]; a latitude out of range is the error reported, whatever
    the longitude; a longitude out of range is reported only when the
    latitude is in range. *)
Theorem Location_Validate_cases (l : place.Location) :
  let lat := decimal_R (place.Latitude l) in
  let lng := decimal_R (place.Longitude l) in
  (place.Validate l = None
   <-> (-90 <= lat <= 90)%R /\ (-180 <= lng <= 180)%R)
  /\ (place.Validate l
      = Some (IErr "invalid latitude" "latitude must be between -90 and 90")
      <-> ~ (-90 <= lat <= 90)%R)
  /\ (place.Validate l
      = Some (IErr "invalid longitude"
                "longitude must be between -180 and 180")
      <-> (-90 <= lat <= 90)%R /\ ~ (-180 <= lng <= 180)%R).
Proof.
  cbv zeta.
  rewrite <- !(decimal_le_R _ 90), <- !(decimal_le_R _ 180),
    <- !(decimal_ge_R _ (-90)), <- !(decimal_ge_R _ (-180)).
  rewrite <- !not_LessThan, <- !not_GreaterThan. unfold place.Validate.
  destruct (decimal.LessThan (place.Latitude l) _),
    (decimal.GreaterThan (place.Latitude l) _),
    (decimal.LessThan (place.Longitude l) _),
    (decimal.GreaterThan (place.Longitude l) _); simpl;
    intuition congruence.
Qed.

End location_cases.

(** ** What [PointFromWKT] reads of a text *)
Section scanned_text.

Import fmt.

Variable junk : string.

Lemma append_cons c s : String c s +:+ junk = String c (s +:+ junk).
Proof. reflexivity. Qed.

Lemma length_append s : String.length (s +:+ junk)
  = (String.length s + String.length junk)%nat.
Proof.
  induction s as [|c s IH]; [reflexivity|].
  rewrite append_cons. cbn [String.length]. now rewrite IH.
Qed.

Lemma starts_with_app p s :
  s <> "" -> starts_with p (s +:+ junk) = starts_with p s.
Proof. destruct s; [congruence|reflexivity]. Qed.

Lemma drop1_app s : s <> "" -> drop1 (s +:+ junk) = drop1 s +:+ junk.
Proof. destruct s; [congruence|reflexivity]. Qed.

Lemma literal_app lit : forall s r,
  literal lit s = Some r -> literal lit (s +:+ junk) = Some (r +:+ junk).
Proof.
  induction lit as [|a lit IH]; intros s r.
  - now intros [= ->].
  - destruct s as [|b s]; [discriminate|]. rewrite append_cons.
    cbn [literal]. destruct (Ascii.eqb a b); [apply IH|discriminate].
Qed.

Lemma literal_prefix lit : forall s r, literal lit s = Some r -> s = lit +:+ r.
Proof.
  induction lit as [|a lit IH]; intros s r; simpl.
  - now intros [= ->].
  - destruct s as [|b s]; [discriminate|].
    destruct (Ascii.eqb_spec a b) as [->|]; [|discriminate].
    intros H. now rewrite (IH _ _ H).
Qed.

Lemma run_app s : forall acc len v l r,
  run s acc len = (v, l, r) -> r <> "" ->
  run (s +:+ junk) acc len = (v, l, r +:+ junk).
Proof.
  induction s as [|c s IH]; intros acc len v l r.
  - intros [= <- <- <-]. congruence.
  - rewrite append_cons. cbn [run].
    destruct (is_digit c) eqn:E; [apply IH|].
    now intros [= <- <- <-] _.
Qed.

(** A run leaves a suffix of its input and counts what it took. *)
Lemma run_taken s : forall acc len v l r,
  run s acc len = (v, l, r) ->
  (String.length s + len = String.length r + l)%nat.
Proof.
  induction s as [|c s IH]; intros acc len v l r;
    cbn [String.length run].
  - now intros [= <- <- <-].
  - destruct (is_digit c); [|now intros [= <- <- <-]].
    intros H. apply IH in H. lia.
Qed.

Lemma length_drop1 s : (String.length (drop1 s) <= String.length s)%nat.
Proof. destruct s; simpl; lia. Qed.

Lemma length_drop1_ne s :
  s <> "" -> String.length s = Datatypes.S (String.length (drop1 s)).
Proof. destruct s; [congruence|reflexivity]. Qed.

Lemma starts_with_ne p s : starts_with p s = true -> s <> "".
Proof. destruct s; [discriminate|congruence]. Qed.

Lemma length_ne s : (0 < String.length s)%nat -> s <> "".
Proof. destruct s; simpl; [lia|congruence]. Qed.

Lemma scan_exponent_shorter neg m ilen flen s3 x r :
  scan_exponent neg m ilen flen s3 = Tok x r ->
  (String.length r <= String.length s3)%nat.
Proof.
  unfold scan_exponent.
  destruct (run _ 0 0) as [[ex elen] s5] eqn:Hr.
  apply run_taken in Hr.
  destruct (starts_with (Ascii.eqb "_") s5); [discriminate|].
  destruct ((ilen + flen =? 0)%nat || (elen =? 0)%nat); [discriminate|].
  destruct (ParseFloat _ _ _); [|discriminate].
  intros [= _ <-].
  destruct (starts_with (is_char "+" "-") s3);
    [pose proof (length_drop1 s3)|]; lia.
Qed.

Lemma scan_exponent_app neg m ilen flen s3 x r :
  scan_exponent neg m ilen flen s3 = Tok x r -> r <> "" ->
  scan_exponent neg m ilen flen (s3 +:+ junk) = Tok x (r +:+ junk).
Proof.
  intros H Hr. pose proof (scan_exponent_shorter _ _ _ _ _ _ _ H) as Hlen.
  assert (s3 <> "") as Hs3.
  { apply length_ne. destruct r; [congruence|simpl in Hlen; lia]. }
  revert H. unfold scan_exponent.
  rewrite !starts_with_app by assumption.
  assert ((if starts_with (is_char "+" "-") s3
           then drop1 (s3 +:+ junk) else s3 +:+ junk)
          = (if starts_with (is_char "+" "-") s3 then drop1 s3 else s3)
            +:+ junk) as ->.
  { destruct (starts_with _ s3); [now apply drop1_app|reflexivity]. }
  destruct (run _ 0 0) as [[ex elen] s5] eqn:Hrun.
  destruct (starts_with (Ascii.eqb "_") s5) eqn:Hu; [discriminate|].
  destruct ((ilen + flen =? 0)%nat || (elen =? 0)%nat) eqn:Hz; [discriminate|].
  destruct (ParseFloat _ _ _) eqn:Hp; [|discriminate].
  intros [= <- <-].
  rewrite (run_app _ _ _ _ _ _ Hrun Hr), starts_with_app, Hu, Hz, Hp by assumption.
  reflexivity.
Qed.

Lemma scan_decimal_shorter neg s0 x r :
  scan_decimal neg s0 = Tok x r ->
  (String.length r < String.length s0)%nat.
Proof.
  unfold scan_decimal.
  destruct (run s0 0 0) as [[ip ilen] s1] eqn:Hr1.
  apply run_taken in Hr1.
  destruct (starts_with (Ascii.eqb "_") s1); [discriminate|].
  destruct (starts_with (Ascii.eqb ".") s1) eqn:Hdot.
  - destruct (run (drop1 s1) ip 0) as [[m flen] s2] eqn:Hr2.
    apply run_taken in Hr2.
    pose proof (length_drop1_ne s1 (starts_with_ne _ _ Hdot)) as Hs1.
    destruct (starts_with (Ascii.eqb "_") s2); [discriminate|].
    destruct (starts_with (is_char "p" "P") s2); [discriminate|].
    destruct (starts_with (is_char "e" "E") s2) eqn:He.
    + intros H. apply scan_exponent_shorter in H.
      pose proof (length_drop1_ne s2 (starts_with_ne _ _ He)). lia.
    + destruct (ilen + flen =? 0)%nat; [discriminate|].
      destruct (ParseFloat _ _ _); [|discriminate].
      intros [= _ <-]. lia.
  - destruct (starts_with (Ascii.eqb "_") s1); [discriminate|].
    destruct (starts_with (is_char "p" "P") s1); [discriminate|].
    destruct (starts_with (is_char "e" "E") s1) eqn:He.
    + intros H. apply scan_exponent_shorter in H.
      pose proof (length_drop1_ne s1 (starts_with_ne _ _ He)). lia.
    + destruct (Nat.eqb_spec (ilen + 0) 0); [discriminate|].
      destruct (ParseFloat _ _ _); [|discriminate].
      intros [= _ <-]. lia.
Qed.

Ltac after_the_run H Hne :=
  rewrite (run_app _ _ _ _ _ _ H Hne); cbv beta iota;
  rewrite ?starts_with_app, ?drop1_app by assumption.

Lemma scan_decimal_app neg s0 x r :
  scan_decimal neg s0 = Tok x r -> r <> "" ->
  scan_decimal neg (s0 +:+ junk) = Tok x (r +:+ junk).
Proof.
  intros H Hr. revert H. unfold scan_decimal.
  destruct (run s0 0 0) as [[ip ilen] s1] eqn:Hr1.
  destruct (starts_with (Ascii.eqb "_") s1) eqn:Hu1; [discriminate|].
  destruct (starts_with (Ascii.eqb ".") s1) eqn:Hdot.
  - pose proof (starts_with_ne _ _ Hdot) as Hs1.
    destruct (run (drop1 s1) ip 0) as [[m flen] s2] eqn:Hr2.
    destruct (starts_with (Ascii.eqb "_") s2) eqn:Hu2; [discriminate|].
    destruct (starts_with (is_char "p" "P") s2) eqn:Hp2; [discriminate|].
    destruct (starts_with (is_char "e" "E") s2) eqn:He.
    + pose proof (starts_with_ne _ _ He) as Hs2. intros H.
      after_the_run Hr1 Hs1. rewrite Hu1, Hdot.
      after_the_run Hr2 Hs2. rewrite Hu2, Hp2, He.
      now apply scan_exponent_app.
    + destruct (ilen + flen =? 0)%nat eqn:Hz; [discriminate|].
      destruct (ParseFloat _ _ _) eqn:Hpf; [|discriminate].
      intros [= <- <-].
      after_the_run Hr1 Hs1. rewrite Hu1, Hdot.
      after_the_run Hr2 Hr. rewrite Hu2, Hp2, He, Hz, Hpf.
      reflexivity.
  - rewrite Hu1.
    destruct (starts_with (is_char "p" "P") s1) eqn:Hp1; [discriminate|].
    destruct (starts_with (is_char "e" "E") s1) eqn:He.
    + pose proof (starts_with_ne _ _ He) as Hs1. intros H.
      after_the_run Hr1 Hs1. rewrite Hu1, Hdot. cbv beta iota.
      rewrite ?starts_with_app, ?drop1_app by assumption.
      rewrite Hu1, Hp1, He.
      now apply scan_exponent_app.
    + destruct (ilen + 0 =? 0)%nat eqn:Hz; [discriminate|].
      destruct (ParseFloat _ _ _) eqn:Hpf; [|discriminate].
      intros [= <- <-].
      after_the_run Hr1 Hr. rewrite Hu1, Hdot. cbv beta iota.
      rewrite ?starts_with_app, ?drop1_app by assumption.
      rewrite Hu1, Hp1, He, Hz, Hpf.
      reflexivity.
Qed.

Lemma scan_float_shorter s x r :
  scan_float s = Tok x r -> (String.length r < String.length s)%nat.
Proof.
  unfold scan_float.
  destruct (starts_with (is_char "n" "N") s) eqn:Hn.
  - destruct (starts_with (is_char "a" "A") (drop1 s)) eqn:Ha; [|discriminate].
    destruct (starts_with (is_char "n" "N") (drop1 (drop1 s))) eqn:Hn2;
      [|discriminate].
    intros [= _ <-].
    pose proof (length_drop1_ne _ (starts_with_ne _ _ Hn)).
    pose proof (length_drop1_ne _ (starts_with_ne _ _ Ha)).
    pose proof (length_drop1 (drop1 (drop1 s))). simpl. lia.
  - set (s0 := if starts_with (is_char "+" "-") s then drop1 s else s).
    assert (String.length s0 <= String.length s)%nat as Hs0.
    { subst s0. destruct (starts_with (is_char "+" "-") s);
        [apply length_drop1|lia]. }
    destruct (starts_with (is_char "i" "I") s0) eqn:Hi.
    + destruct (starts_with (is_char "n" "N") (drop1 s0)) eqn:Hn1;
        [|discriminate].
      destruct (starts_with (is_char "f" "F") (drop1 (drop1 s0))) eqn:Hf;
        [|discriminate].
      intros [= _ <-].
      pose proof (length_drop1_ne _ (starts_with_ne _ _ Hi)).
      pose proof (length_drop1_ne _ (starts_with_ne _ _ Hn1)).
      pose proof (length_drop1 (drop1 (drop1 s0))). simpl. lia.
    + destruct (hex_prefix s0); [discriminate|].
      intros H. apply scan_decimal_shorter in H. lia.
Qed.

Lemma scan_float_app s x r :
  scan_float s = Tok x r -> r <> "" ->
  scan_float (s +:+ junk) = Tok x (r +:+ junk).
Proof.
  intros H Hr. pose proof (scan_float_shorter _ _ _ H) as Hlen.
  assert (s <> "") as Hs by (apply length_ne; lia).
  revert H. unfold scan_float.
  rewrite !starts_with_app by assumption.
  destruct (starts_with (is_char "n" "N") s) eqn:Hn.
  - rewrite drop1_app by assumption.
    destruct (starts_with (is_char "a" "A") (drop1 s)) eqn:Ha; [|discriminate].
    pose proof (starts_with_ne _ _ Ha) as Hs1.
    rewrite starts_with_app, Ha, drop1_app by assumption.
    destruct (starts_with (is_char "n" "N") (drop1 (drop1 s))) eqn:Hn2;
      [|discriminate].
    pose proof (starts_with_ne _ _ Hn2) as Hs2.
    rewrite starts_with_app, Hn2, drop1_app by assumption.
    now intros [= <- <-].
  - assert ((if starts_with (is_char "+" "-") s
             then drop1 (s +:+ junk) else s +:+ junk)
            = (if starts_with (is_char "+" "-") s then drop1 s else s)
              +:+ junk) as ->.
    { destruct (starts_with (is_char "+" "-") s);
        [now apply drop1_app|reflexivity]. }
    set (s0 := if starts_with (is_char "+" "-") s then drop1 s else s).
    destruct (starts_with (is_char "i" "I") s0) eqn:Hi.
    + pose proof (starts_with_ne _ _ Hi) as Hs0.
      rewrite starts_with_app, Hi, drop1_app by assumption.
      destruct (starts_with (is_char "n" "N") (drop1 s0)) eqn:Hn1;
        [|discriminate].
      pose proof (starts_with_ne _ _ Hn1) as Hs1.
      rewrite starts_with_app, Hn1, drop1_app by assumption.
      destruct (starts_with (is_char "f" "F") (drop1 (drop1 s0))) eqn:Hf;
        [|discriminate].
      pose proof (starts_with_ne _ _ Hf) as Hs2.
      rewrite starts_with_app, Hf, drop1_app by assumption.
      now intros [= <- <-].
    + destruct (hex_prefix s0) eqn:Hh; [discriminate|].
      intros H. pose proof (scan_decimal_shorter _ _ _ _ H) as Hl0.
      assert (s0 <> "") as Hs0 by (apply length_ne; lia).
      assert (drop1 s0 <> "") as Hd0.
      { apply length_ne. rewrite (length_drop1_ne s0 Hs0) in Hl0.
        destruct r; [congruence|simpl in Hl0; lia]. }
      rewrite starts_with_app, Hi by assumption.
      unfold hex_prefix in *.
      rewrite starts_with_app, drop1_app, starts_with_app, Hh by assumption.
      now apply scan_decimal_app.
Qed.

Lemma scan_float_start s x r :
  scan_float s = Tok x r -> starts_with token_start s = true.
Proof.
  destruct s as [|c s]; [discriminate|].
  unfold scan_float, token_start. cbn [starts_with drop1].
  destruct (is_char "n" "N" c); [reflexivity|].
  destruct (is_char "+" "-" c) eqn:Hsign; [reflexivity|].
  cbv beta iota. cbn [starts_with drop1].
  destruct (is_char "i" "I" c); [reflexivity|].
  unfold hex_prefix. cbn [starts_with drop1].
  destruct (is_digit c) eqn:Hd; [reflexivity|].
  destruct (Ascii.eqb "." c) eqn:Hdot; [reflexivity|].
  assert (Ascii.eqb "0" c = false) as ->.
  { destruct (Ascii.eqb_spec "0" c) as [<-|]; [discriminate|reflexivity]. }
  cbn [andb]. unfold scan_decimal. cbn [run]. rewrite Hd.
  cbv beta iota. cbn [starts_with]. rewrite Hdot.
  cbv beta iota. cbn [starts_with].
  destruct (Ascii.eqb "_" c); [discriminate|].
  destruct (is_char "p" "P" c); [discriminate|].
  destruct (is_char "e" "E" c); [|discriminate].
  unfold scan_exponent. destruct (run _ 0 0) as [[ex elen] s5].
  destruct (starts_with _ s5); discriminate.
Qed.

Lemma token_start_plain c :
  token_start c = true ->
  space_rune (String c junk) = None /\ forall s, space_rune (String c s) = None.
Proof.
  intros H.
  assert (forall s, space_rune (String c s) = None) as Hs; [|now split].
  intros s. unfold token_start, is_char, is_digit in H.
  repeat (apply orb_true_iff in H as [H|H]).
  all: try (apply Ascii.eqb_eq in H; subst c; reflexivity).
  apply andb_true_iff in H as [H1 H2].
  apply Nat.leb_le in H1, H2. unfold space_rune.
  repeat match goal with
         | |- context [(code c =? ?n)%nat] =>
             destruct (Nat.eqb_spec (code c) n); [lia|]
         end.
  reflexivity.
Qed.

Lemma token_start_line c : token_start c = true -> (code c =? 10)%nat = false.
Proof.
  intros H. unfold token_start, is_char, is_digit in H.
  repeat (apply orb_true_iff in H as [H|H]).
  all: try (apply Ascii.eqb_eq in H; subst c; reflexivity).
  apply andb_true_iff in H as [H1 H2].
  apply Nat.leb_le in H1, H2. apply Nat.eqb_neq. lia.
Qed.

Ltac head_if :=
  match goal with
  | |- (if ?b then _ else _) = _ -> _ => destruct b
  end.

Lemma space_rune_app s r :
  space_rune s = Some r -> space_rune (s +:+ junk) = Some (r +:+ junk).
Proof.
  destruct s as [|c s]; [discriminate|]. rewrite append_cons.
  unfold space_rune.
  head_if; [now intros [= <-]|].
  head_if.
  - destruct s as [|c1 s]; [discriminate|]. rewrite append_cons.
    head_if; [now intros [= <-]|discriminate].
  - head_if; [|discriminate].
    destruct s as [|c1 [|c2 s]]; try discriminate. rewrite !append_cons.
    cbv zeta. head_if; [now intros [= <-]|discriminate].
Qed.

Lemma skip_space_app fuel : forall fuel' s s',
  skip_space fuel s = Some s' -> starts_with token_start s' = true ->
  (fuel <= fuel')%nat ->
  skip_space fuel' (s +:+ junk) = Some (s' +:+ junk).
Proof.
  assert (forall fuel' s, starts_with token_start s = true ->
            skip_space fuel' (s +:+ junk) = Some (s +:+ junk)) as Hstop.
  { intros fuel' [|c s] H; [discriminate|]. rewrite append_cons.
    cbn [starts_with] in H.
    destruct (token_start_plain c H) as [_ Hplain].
    destruct fuel'; cbn [skip_space is_newline];
      now rewrite (token_start_line c H), Hplain. }
  induction fuel as [|fuel IH]; intros fuel' s s'.
  - cbn [skip_space]. destruct (is_newline s); [discriminate|].
    destruct (space_rune s); intros [= <-] Hs' _; now apply Hstop.
  - cbn [skip_space]. destruct (is_newline s) eqn:Hnl; [discriminate|].
    destruct (space_rune s) as [rest|] eqn:Hsp.
    + intros H Hs' Hle. destruct fuel' as [|fuel']; [lia|].
      assert (s <> "") as Hs by (destruct s; [discriminate|congruence]).
      cbn [skip_space].
      assert (is_newline (s +:+ junk) = false) as ->
        by (destruct s; [congruence|exact Hnl]).
      rewrite (space_rune_app _ _ Hsp). apply IH; [assumption..|lia].
    + intros [= <-] Hs' _. now apply Hstop.
Qed.

Lemma operand_app s x r :
  operand s = Tok x r -> r <> "" ->
  operand (s +:+ junk) = Tok x (r +:+ junk).
Proof.
  unfold operand, SkipSpace.
  destruct (skip_space (String.length s) s) as [[|c s']|] eqn:Hsk;
    try discriminate.
  intros H Hr. pose proof (scan_float_start _ _ _ H) as Hstart.
  rewrite (skip_space_app _ (String.length (s +:+ junk)) _ _ Hsk Hstart).
  - rewrite append_cons, <- append_cons. now apply scan_float_app.
  - rewrite length_append. lia.
Qed.

Lemma operand_shorter s x r :
  operand s = Tok x r -> (0 < String.length r -> 1 < String.length s)%nat.
Proof.
  unfold operand, SkipSpace.
  assert (forall fuel t t', skip_space fuel t = Some t' ->
            (String.length t' <= String.length t)%nat) as Hsk.
  { induction fuel as [|fuel IH]; intros t t'; cbn [skip_space];
      destruct (is_newline t); try discriminate.
    - destruct (space_rune t); intros [= <-]; lia.
    - destruct (space_rune t) as [rest|] eqn:Hsp; [|intros [= <-]; lia].
      intros H. apply IH in H.
      assert (String.length rest <= String.length t)%nat; [|lia].
      clear -Hsp. destruct t as [|c t]; [discriminate|].
      revert Hsp. unfold space_rune.
      head_if; [intros [= <-]; simpl; lia|].
      head_if.
      + destruct t as [|c1 t]; [discriminate|].
        head_if; [intros [= <-]; simpl; lia|discriminate].
      + head_if; [|discriminate].
        destruct t as [|c1 [|c2 t]]; try discriminate.
        cbv zeta. head_if; [intros [= <-]; simpl; lia|discriminate]. }
  destruct (skip_space (String.length s) s) as [[|c s']|] eqn:E;
    try discriminate.
  intros H. apply scan_float_shorter in H. apply Hsk in E. lia.
Qed.

Lemma blank_app s r :
  blank s = Some r -> s <> "" -> blank (s +:+ junk) = Some (r +:+ junk).
Proof.
  destruct s as [|c s]; [congruence|]. intros H _. revert H.
  rewrite append_cons. unfold blank.
  destruct (space_rune (String c s)) as [rest|] eqn:Hsp; [|discriminate].
  intros [= <-].
  rewrite <- append_cons. now rewrite (space_rune_app _ _ Hsp).
Qed.

Lemma blank_shorter s r :
  blank s = Some r -> (String.length r <= String.length s)%nat.
Proof.
  destruct s as [|c s]; [now intros [= <-]|]. unfold blank.
  destruct (space_rune (String c s)) as [rest|] eqn:Hsp; [|discriminate].
  intros [= <-]. revert Hsp. unfold space_rune.
  head_if; [intros [= <-]; simpl; lia|].
  head_if.
  - destruct s as [|c1 s]; [discriminate|].
    head_if; [intros [= <-]; simpl; lia|discriminate].
  - head_if; [|discriminate].
    destruct s as [|c1 [|c2 s]]; try discriminate.
    cbv zeta. head_if; [intros [= <-]; simpl; lia|discriminate].
Qed.

(** What follows the closing parenthesis is not read. *)
Lemma Sscanf_POINT_app s lng lat :
  Sscanf_POINT s = Scanned lng lat ->
  Sscanf_POINT (s +:+ junk) = Scanned lng lat.
Proof.
  unfold Sscanf_POINT.
  destruct (literal "POINT(" s) as [s1|] eqn:H1; [|discriminate].
  destruct (operand s1) as [x s2| |] eqn:H2; try discriminate.
  destruct (blank s2) as [s3|] eqn:H3; [|discriminate].
  destruct (operand s3) as [y s4| |] eqn:H4; try discriminate.
  destruct (literal ")" s4) as [s5|] eqn:H5; [|discriminate].
  intros [= <- <-].
  assert (s4 <> "") as Hs4 by (destruct s4; [discriminate|congruence]).
  assert (0 < String.length s4)%nat as Hl4
    by (destruct s4; [congruence|simpl; lia]).
  pose proof (operand_shorter _ _ _ H4 Hl4) as Hl3.
  pose proof (blank_shorter _ _ H3) as Hl2.
  assert (s2 <> "") as Hs2 by (apply length_ne; lia).
  rewrite (literal_app _ _ _ H1), (operand_app _ _ _ H2 Hs2),
    (blank_app _ _ H3 Hs2), (operand_app _ _ _ H4 Hs4),
    (literal_app _ _ _ H5).
  reflexivity.
Qed.

End scanned_text.

Section accepted_text.

Import types.

(** A text that [PointFromWKT] accepts begins with the bytes of "POINT(",
    and nothing after its closing parenthesis is read: the same text
    followed by anything is accepted as the same point. *)
Theorem PointFromWKT_accepted_text (wkt : string) (p : Point) :
  PointFromWKT wkt = Some (inl p) ->
  (exists rest, wkt = "POINT(" +:+ rest)
  /\ forall tail, PointFromWKT (wkt +:+ tail) = Some (inl p).
Proof.
  unfold PointFromWKT.
  destruct (fmt.Sscanf_POINT wkt) as [lng lat| |] eqn:Hscan; try discriminate.
  intros H. split.
  - unfold fmt.Sscanf_POINT in Hscan.
    destruct (fmt.literal "POINT(" wkt) as [s1|] eqn:H1; [|discriminate].
    exists s1. now apply literal_prefix.
  - intros tail. now rewrite (Sscanf_POINT_app tail _ _ _ Hscan).
Qed.

Lemma PointFromWKT_accepted_text_witness :
  PointFromWKT "POINT(73.7898 19.9975) and more"
  = Some (inl {| Longitude := 737898 / 10000; Latitude := 199975 / 10000 |}).
Proof.
  apply (PointFromWKT_accepted_text "POINT(73.7898 19.9975)").
  vm_compute. reflexivity.
Defined.

End accepted_text.

(** *** Nearest first *)
Section greedy_choice.

Import service.

Variable matrix : DistanceMatrix.

Lemma nearest_so_far_weaken vs : forall from (pending pending' : Place -> Prop),
  (forall q, pending' q -> pending q) ->
  nearest_so_far matrix from vs pending ->
  nearest_so_far matrix from vs pending'.
Proof.
  induction vs as [|v vs IH]; intros from pending pending' Hsub; simpl;
    [auto|].
  intros (Hp & Hrest & Hnext). split; [auto|]. split; [assumption|].
  now apply (IH _ pending).
Qed.

Lemma nearest_so_far_snoc vs : forall from v (pending : Place -> Prop),
  nearest_so_far matrix from vs (fun q => pending q \/ q = Place_ v) ->
  (forall q, pending q ->
     (distance_to matrix (last_location from vs) q
      <? DistanceFromPrevious v)%float = false) ->
  nearest_so_far matrix from (vs ++ [v]) pending.
Proof.
  induction vs as [|u vs IH]; intros from v pending; simpl.
  - intros _ Hv. split; [exact Hv|]. split; constructor.
  - intros (Hp & Hrest & Hnext) Hv. split; [auto|]. split.
    + apply Forall_app. split; [assumption|].
      constructor; [|constructor]. apply Hp. now right.
    + apply IH; [assumption|].
      unfold last_location in *. simpl in Hv. exact Hv.
Qed.

Lemma nearest_so_far_done vs : forall from,
  nearest_so_far matrix from vs (fun _ => False) ->
  nearest_first matrix from vs.
Proof.
  induction vs as [|v vs IH]; intros from; simpl; [auto|].
  intros (_ & Hrest & Hnext). split; [assumption|]. now apply IH.
Qed.

End greedy_choice.

Section greedy_routes.

Import service.

Variable order : RangeOrder.
Variable matrix : DistanceMatrix.
Variable startLoc : Location.
Variable places : list Place.
Variables startTime endTime visitDuration : Z.

(** A returned route is a nearest-neighbour tour: each visit goes to a
    place at the distance recorded for it, and none of the places visited
    later was strictly nearer to the stop before it. *)
Theorem optimizeRoute_nearest_first (route : OptimizedRoute) :
  legal order ->
  optimizeRoute order (inl matrix) startLoc places startTime endTime
    visitDuration = Returned route ->
  nearest_first matrix startLoc (Visits route).
Proof.
  intros Hlegal. rewrite optimizeRoute_greedy. intros H.
  apply (greedy_returns order matrix endTime visitDuration
           (fun st =>
              nearest_so_far matrix startLoc (visits st)
                (fun q => exists k, unvisited st !! k = Some q)
              /\ currentLoc st = last_location startLoc (visits st)
              /\ keyed (unvisited st)))
    in H as (st & (Hnear & _ & _) & Hempty & ->).
  - simpl. apply nearest_so_far_done.
    eapply nearest_so_far_weaken; [|exact Hnear]. intros q [].
  - intros n st p (Hnear & Hloc & Hkeyed) [k Hin] Hmin _.
    rewrite (Hlegal n (unvisited st)) in Hin.
    apply elem_of_map_to_list in Hin.
    pose proof (Hkeyed _ _ Hin) as Hid. subst k.
    split; [|split].
    + simpl. apply nearest_so_far_snoc.
      * eapply nearest_so_far_weaken; [|exact Hnear].
        simpl. intros q [[k Hq]| ->]; [|now exists (ID p)].
        exists k. rewrite lookup_delete in Hq.
        now case_decide.
      * simpl. rewrite <- Hloc. intros q [k Hq].
        rewrite lookup_delete in Hq. case_decide; [discriminate|].
        apply (Hmin k).
        now rewrite (Hlegal n (unvisited st)), elem_of_map_to_list.
    + simpl. unfold last_location. now rewrite foldl_app.
    + now apply keyed_delete.
  - simpl. split; [exact I|]. split; [reflexivity|apply keyed_index_places].
Qed.

Lemma greedy_longer (endTime' : Z) fuel : forall n st route,
  endTime <= endTime' ->
  greedy order matrix endTime visitDuration fuel n st = Returned route ->
  greedy order matrix endTime' visitDuration fuel n st
  = Returned
      {| Visits := Visits route;
         TotalDistanceKm := TotalDistanceKm route;
         TotalTravelTime := TotalTravelTime route;
         CompletionTime := CompletionTime route;
         TimeBufferMinutes :=
           time.whole_minutes (time.Sub endTime' (CompletionTime route));
         Feasible := true |}.
Proof.
  induction fuel as [|fuel IH]; intros n st route Hle; simpl.
  - destruct (size (unvisited st) =? 0)%nat; [|discriminate].
    now intros [= <-].
  - destruct (size (unvisited st) =? 0)%nat; [now intros [= <-]|].
    destruct (findNearest _ _ _) as [[p|] d]; [|discriminate].
    destruct (time.After _ endTime) eqn:Ha; [discriminate|].
    unfold time.After in *. apply Z.ltb_ge in Ha.
    destruct (Z.ltb_spec endTime' (time.Add (time.Add (currentTime st)
                (time.Minutes_of (GetTime matrix (currentLoc st)
                                    (Place_Location p))))
                (time.Minutes_of visitDuration))) as [Hlt|_]; [lia|].
    now apply IH.
Qed.

(** A longer window changes nothing but the buffer: when a route is
    returned for a window, the same visits, totals and completion time are
    returned for every window that ends later. *)
Theorem optimizeRoute_longer_window (endTime' : Z) (route : OptimizedRoute) :
  endTime <= endTime' ->
  optimizeRoute order (inl matrix) startLoc places startTime endTime
    visitDuration = Returned route ->
  optimizeRoute order (inl matrix) startLoc places startTime endTime'
    visitDuration
  = Returned
      {| Visits := Visits route;
         TotalDistanceKm := TotalDistanceKm route;
         TotalTravelTime := TotalTravelTime route;
         CompletionTime := CompletionTime route;
         TimeBufferMinutes :=
           time.whole_minutes (time.Sub endTime' (CompletionTime route));
         Feasible := true |}.
Proof. unfold optimizeRoute. apply greedy_longer. Qed.

End greedy_routes.

Section greedy_instances.

Import service instances.

Lemma optimizeRoute_nearest_first_witness :
  exists route,
    optimizeRoute range_backward (inl (plane 20)) start [A; B; C]
      (clock 9 0) (clock 18 0) 30 = Returned route
    /\ nearest_first (plane 20) start (Visits route).
Proof.
  eexists. split; [vm_compute; reflexivity|].
  apply (optimizeRoute_nearest_first range_backward (plane 20) start
           [A; B; C] (clock 9 0) (clock 18 0) 30).
  - exact range_backward_legal.
  - vm_compute. reflexivity.
Defined.

Lemma optimizeRoute_longer_window_witness :
  exists route,
    optimizeRoute range_forward (inl (plane 20)) start [A; B; C]
      (clock 9 0) (clock 12 0) 30 = Returned route
    /\ optimizeRoute range_forward (inl (plane 20)) start [A; B; C]
         (clock 9 0) (clock 18 0) 30
       = Returned
           {| Visits := Visits route;
              TotalDistanceKm := TotalDistanceKm route;
              TotalTravelTime := TotalTravelTime route;
              CompletionTime := CompletionTime route;
              TimeBufferMinutes :=
                time.whole_minutes
                  (time.Sub (clock 18 0) (CompletionTime route));
              Feasible := true |}.
Proof.
  eexists. split; [vm_compute; reflexivity|].
  apply (optimizeRoute_longer_window range_forward (plane 20) start
           [A; B; C] (clock 9 0) (clock 12 0) 30 (clock 18 0)).
  - vm_compute. discriminate.
  - vm_compute. reflexivity.
Defined.

End greedy_instances.

(** ** The host of the migration's connection *)
Section migration.

Import strings migrate.

Lemma HasPrefix_append old : forall rest, HasPrefix (old +:+ rest) old = true.
Proof.
  induction old as [|c old IH]; intros rest; [reflexivity|].
  change (String c old +:+ rest) with (String c (old +:+ rest)).
  cbn [HasPrefix]. now rewrite Ascii.eqb_refl, IH.
Qed.

Lemma skip_append old : forall rest,
  skip (String.length old) (old +:+ rest) = rest.
Proof.
  induction old as [|c old IH]; intros rest; [now destruct rest|].
  change (String c old +:+ rest) with (String c (old +:+ rest)).
  cbn [String.length skip]. apply IH.
Qed.

Lemma HasPrefix_split old : forall s,
  HasPrefix s old = true -> s = old +:+ skip (String.length old) s.
Proof.
  induction old as [|c old IH]; intros s; [now destruct s|].
  destruct s as [|b s]; [discriminate|]. cbn [HasPrefix String.length skip].
  intros H. apply andb_true_iff in H as [Hc Hs].
  apply Ascii.eqb_eq in Hc. subst b.
  change (String c old +:+ skip (String.length old) s)
    with (String c (old +:+ skip (String.length old) s)).
  now rewrite <- (IH s Hs).
Qed.

(** Without an instance of [old], the text is left as it is. *)
Lemma Replace_1_absent old new : forall s,
  Contains s old = false -> Replace_1 s old new = s.
Proof.
  unfold Contains. induction s as [|c s IH]; cbn [Index Replace_1].
  - destruct (HasPrefix "" old); [discriminate|reflexivity].
  - destruct (HasPrefix (String c s) old); [discriminate|].
    destruct (Index s old); [discriminate|]. intros _. now rewrite IH.
Qed.

(** With one, the text is cut around its first instance. *)
Lemma Replace_1_present old new : forall s i,
  Index s old = Some i ->
  exists before after,
    s = before +:+ old +:+ after /\ String.length before = i
    /\ Replace_1 s old new = before +:+ new +:+ after.
Proof.
  induction s as [|c s IH]; intros i; cbn [Index Replace_1].
  - destruct (HasPrefix "" old) eqn:E; [|discriminate]. intros [= <-].
    exists "", (skip (String.length old) "").
    split; [now apply HasPrefix_split|]. split; reflexivity.
  - destruct (HasPrefix (String c s) old) eqn:E.
    + intros [= <-]. exists "", (skip (String.length old) (String c s)).
      split; [now apply HasPrefix_split|]. split; reflexivity.
    + destruct (Index s old) as [j|] eqn:Hj; [|discriminate].
      intros [= <-]. destruct (IH j eq_refl) as (before & after & -> & <- & ->).
      exists (String c before), after. repeat split.
Qed.

Lemma Index_prefix s old : HasPrefix s old = true -> Index s old = Some 0%nat.
Proof. intros H. destruct s; cbn [Index]; now rewrite H. Qed.

Lemma Contains_inside before old : forall after,
  Contains (before +:+ old +:+ after) old = true.
Proof.
  unfold Contains. induction before as [|c before IH]; intros after.
  - change ("" +:+ old +:+ after) with (old +:+ after).
    now rewrite (Index_prefix _ _ (HasPrefix_append old after)).
  - change (String c before +:+ old +:+ after)
      with (String c (before +:+ old +:+ after)).
    cbn [Index]. destruct (HasPrefix _ old); [reflexivity|].
    specialize (IH after). now destruct (Index _ old).
Qed.

Lemma append_assoc (a b c : string) : (a +:+ b) +:+ c = a +:+ b +:+ c.
Proof.
  induction a as [|x a IH]; [reflexivity|].
  change (String x a +:+ b) with (String x (a +:+ b)).
  change (String x (a +:+ b) +:+ c) with (String x ((a +:+ b) +:+ c)).
  now rewrite IH.
Qed.

(** The migration connects to the configured host unless that host
    contains "-pooler"; it then connects to the host with the first
    "-pooler" taken out, and with every other field as configured.  A host
    that contains "pooler" without the hyphen is used as it is. *)
Theorem migrationDSN_host (cfg : PostgresConfig) :
  (Contains (Host cfg) "-pooler" = false ->
   migrationDSN cfg = buildMigrationDSN cfg)
  /\ (Contains (Host cfg) "-pooler" = true ->
      exists before after,
        Host cfg = before +:+ "-pooler" +:+ after
        /\ Index (Host cfg) "-pooler" = Some (String.length before)
        /\ migrationDSN cfg
           = buildMigrationDSNFromHost cfg (before +:+ after)).
Proof.
  unfold migrationDSN. cbv zeta. split.
  - intros H. rewrite (Replace_1_absent _ _ _ H).
    now destruct (Contains (Host cfg) "pooler").
  - unfold Contains at 1.
    destruct (Index (Host cfg) "-pooler") as [i|] eqn:Hi; [|discriminate].
    intros _.
    destruct (Replace_1_present "-pooler" "" _ _ Hi)
      as (before & after & Hhost & Hlen & Hrep).
    exists before, after. split; [exact Hhost|]. split; [now rewrite Hlen|].
    rewrite Hrep.
    assert (Contains (Host cfg) "pooler" = true) as ->; [|reflexivity].
    rewrite Hhost.
    change ("-pooler" +:+ after) with ("-" +:+ "pooler" +:+ after).
    rewrite <- (append_assoc before "-").
    apply Contains_inside.
Qed.

End migration.

(** ** Coordinates of six decimals *)
Section six_decimal_numbers.

(** The division of a positive integer of at most 72 bits by a million,
    before rounding. *)
Lemma SFdiv_core_millionths p :
  Zpos (digits2_pos p) <= 72 ->
  SFdiv_core_binary prec emax (Zpos p) 0 1000000 0
  = ((Zpos p * 2 ^ (73 - Zpos (digits2_pos p))) / 1000000,
     Zpos (digits2_pos p) - 73,
     new_location 1000000
       ((Zpos p * 2 ^ (73 - Zpos (digits2_pos p))) mod 1000000)).
Proof.
  intros Hd. unfold SFdiv_core_binary.
  change (Zdigits2 1000000) with 20. unfold Zdigits2.
  set (d := Zpos (digits2_pos p)) in *.
  assert (0 < d) as Hpos by (subst d; lia).
  unfold fexp, emin, prec, emax.
  replace (Z.min (Z.max (d + 0 - (20 + 0) - 53) (3 - 1024 - 53)) (0 - 0))
    with (d - 73) by lia.
  replace (0 - 0 - (d - 73)) with (73 - d) by lia.
  destruct (73 - d) as [|s|s] eqn:Es; try lia.
  rewrite Z.shiftl_mul_pow2 by lia. now rewrite div_eucl_pair.
Qed.

(** What [ParseFloat] makes of [p] millionths, for [p] below 2^72: a
    normal number whose mantissa is within two units of the quotient. *)
Lemma ParseFloat_millionths neg p :
  let d := Zpos (digits2_pos p) in
  let q := (Zpos p * 2 ^ (73 - d)) / 1000000 in
  d <= 72 ->
  exists my ey,
    fmt.ParseFloat neg (Zpos p) (-6)
    = Some (SF2Prim (S754_finite neg my ey))
    /\ 2 ^ 52 <= Zpos my < 2 ^ 53
    /\ d - 73 <= ey <= d - 71
    /\ q - 1 <= Zpos my * 2 ^ (ey - (d - 73)) <= q + 2.
Proof.
  intros d q Hd. pose proof (digits2_pos_bounds p) as [Hlo Hhi]. fold d in Hlo, Hhi.
  assert (0 < d) as Hpos by (subst d; lia).
  assert (2 ^ 72 <= Zpos p * 2 ^ (73 - d) < 2 ^ 73) as [Hm1 Hm2].
  { assert (2 ^ 72 = 2 ^ (d - 1) * 2 ^ (73 - d)) as ->
      by (rewrite <- Z.pow_add_r by lia; f_equal; lia).
    assert (2 ^ 73 = 2 ^ d * 2 ^ (73 - d)) as ->
      by (rewrite <- Z.pow_add_r by lia; f_equal; lia).
    assert (0 < 2 ^ (73 - d)) by (apply Z.pow_pos_nonneg; lia).
    split; [apply Z.mul_le_mono_nonneg_r; lia
           |apply Z.mul_lt_mono_pos_r; lia]. }
  assert (2 ^ 52 <= q < 2 ^ 54) as Hq.
  { subst q. split.
    - apply Z.div_le_lower_bound; [lia|].
      apply Z.le_trans with (2 ^ 72); [vm_compute; discriminate|exact Hm1].
    - apply Z.div_lt_upper_bound; [lia|].
      apply Z.lt_le_trans with (2 ^ 73); [exact Hm2|vm_compute; discriminate]. }
  destruct (binary_round_aux_near neg q (d - 73)
              (new_location 1000000 ((Zpos p * 2 ^ (73 - d)) mod 1000000)) Hq)
    as (my & ey & Hround & Hmy & Hey & Hv); [lia|].
  exists my, ey. split; [|split; [exact Hmy|split; [lia|exact Hv]]].
  unfold fmt.ParseFloat.
  change (Zpos p =? 0) with false. change (0 <=? -6) with false. cbv iota.
  change (Z.to_pos (Zpos p)) with p.
  change (Z.to_pos (10 ^ (- -6))) with 1000000%positive.
  unfold SFdiv. rewrite (SFdiv_core_millionths p Hd). fold d. fold q.
  rewrite xorb_false_r, Hround. reflexivity.
Qed.

Lemma round_half_even_near num den N :
  0 < den -> 2 * Z.abs (num - N * den) < den ->
  fmt.round_half_even num den = N.
Proof.
  intros Hden Hnear. unfold fmt.round_half_even.
  pose proof (Z.div_mod num den ltac:(lia)) as Hdm.
  pose proof (Z.mod_pos_bound num den Hden) as Hmod.
  destruct (Z.le_gt_cases (N * den) num) as [Hle|Hgt].
  - assert (num / den = N) as Hq.
    { symmetry. apply Z.div_unique with (num - N * den); lia. }
    assert (num mod den = num - N * den) as Hr by (rewrite Hq in Hdm; lia).
    rewrite Hq, Hr.
    destruct (Z.compare_spec (2 * (num - N * den)) den); lia.
  - assert (num / den = N - 1) as Hq.
    { symmetry. apply Z.div_unique with (num - (N - 1) * den); lia. }
    assert (num mod den = num - (N - 1) * den) as Hr
      by (rewrite Hq in Hdm; lia).
    rewrite Hq, Hr.
    destruct (Z.compare_spec (2 * (num - (N - 1) * den)) den); lia.
Qed.

(** The six decimals of what [ParseFloat] made of [p] millionths are [p]
    again. *)
Lemma micro_millionths p my ey :
  let d := Zpos (digits2_pos p) in
  let q := (Zpos p * 2 ^ (73 - d)) / 1000000 in
  d <= 49 ->
  2 ^ 52 <= Zpos my < 2 ^ 53 ->
  d - 73 <= ey <= d - 71 ->
  q - 1 <= Zpos my * 2 ^ (ey - (d - 73)) <= q + 2 ->
  fmt.micro my ey = Zpos p.
Proof.
  intros d q Hd Hmy Hey Hv. unfold fmt.micro.
  replace (0 <=? ey) with false by (symmetry; apply Z.leb_gt; lia).
  apply round_half_even_near; [apply Z.pow_pos_nonneg; lia|].
  change (10 ^ 6) with 1000000.
  assert (2 ^ 22 <= 2 ^ (- ey)) as Hden by (apply Z.pow_le_mono_r; lia).
  change (2 ^ 22) with 4194304 in Hden.
  pose proof (Z.div_mod (Zpos p * 2 ^ (73 - d)) 1000000 ltac:(lia)) as Hdm.
  pose proof (Z.mod_pos_bound (Zpos p * 2 ^ (73 - d)) 1000000 ltac:(lia))
    as Hmod.
  fold q in Hdm.
  assert (2 ^ (73 - d) = 2 ^ (- ey) * 2 ^ (ey - (d - 73))) as Hsplit
    by (rewrite <- Z.pow_add_r by lia; f_equal; lia).
  rewrite Hsplit in Hdm, Hmod.
  assert (ey - (d - 73) = 0 \/ ey - (d - 73) = 1 \/ ey - (d - 73) = 2)
    as [Hk|[Hk|Hk]] by lia;
    rewrite Hk in *;
    [change (2 ^ 0) with 1 in * | change (2 ^ 1) with 2 in *
    | change (2 ^ 2) with 4 in *];
    generalize dependent (2 ^ (- ey)); intros D; intros;
    generalize dependent (Zpos p * 2 ^ (73 - d) mod 1000000); intros R; intros;
    nia.
Qed.

(** A number that was read from a decimal of six digits after the point,
    below 2^49 millionths, is written by [%f] and read back as itself. *)
Lemma six_decimals_parsed neg n x :
  0 <= n < 2 ^ 49 -> fmt.ParseFloat neg n (-6) = Some x ->
  six_decimals x = Some x.
Proof.
  intros Hn. destruct n as [|p|p]; [| |lia].
  - unfold fmt.ParseFloat. change (0 =? 0) with true. cbv iota.
    intros [= <-]. now destruct neg.
  - assert (Zpos (digits2_pos p) <= 49) as Hd.
    { pose proof (digits2_pos_bounds p) as [Hlo _].
      destruct (Z.le_gt_cases (Zpos (digits2_pos p)) 49) as [|Hgt];
        [assumption|].
      assert (2 ^ 49 <= 2 ^ (Zpos (digits2_pos p) - 1))
        by (apply Z.pow_le_mono_r; lia).
      lia. }
    destruct (ParseFloat_millionths neg p) as (my & ey & Hparse & Hmy & Hey & Hv);
      [lia|].
    rewrite Hparse. intros Hx.
    assert (x = SF2Prim (S754_finite neg my ey)) as -> by congruence.
    unfold six_decimals.
    rewrite valid_normal by (try assumption; lia).
    now rewrite (micro_millionths p my ey Hd Hmy Hey Hv).
Qed.

End six_decimal_numbers.

Section six_decimal_points.

Import types.

(** A point that [IsValid] accepts and whose coordinates are decimals of
    six digits after the point, below 2^49 millionths in size, is written
    by [ToWKT] and read back by [PointFromWKT] as itself. *)
Theorem ToWKT_round_trip_six_decimals (sx sy : bool) (nx ny : Z) (p : Point) :
  0 <= nx < 2 ^ 49 -> 0 <= ny < 2 ^ 49 ->
  fmt.ParseFloat sx nx (-6) = Some (Longitude p) ->
  fmt.ParseFloat sy ny (-6) = Some (Latitude p) ->
  IsValid p = true ->
  PointFromWKT (ToWKT p) = Some (inl p).
Proof.
  intros Hx Hy Ex Ey Hv. rewrite PointFromWKT_ToWKT.
  rewrite (six_decimals_parsed sx nx _ Hx Ex).
  rewrite (six_decimals_parsed sy ny _ Hy Ey).
  destruct p as [lng lat]. cbn [Longitude Latitude]. cbv zeta.
  now rewrite Hv.
Qed.

Lemma ToWKT_round_trip_six_decimals_witness :
  PointFromWKT (ToWKT {| Longitude := 73.75; Latitude := 19.75 |})
  = Some (inl {| Longitude := 73.75; Latitude := 19.75 |}).
Proof.
  apply (ToWKT_round_trip_six_decimals false false 73750000 19750000).
  - change (2 ^ 49) with 562949953421312. lia.
  - change (2 ^ 49) with 562949953421312. lia.
  - vm_compute. reflexivity.
  - vm_compute. reflexivity.
  - reflexivity.
Defined.

End six_decimal_points.
